(** * Poly1305 of sjcl (core/poly1305.js): a shallow embedding and its properties

    The file follows core/poly1305.js.  JavaScript numbers are modelled as
    [Z] (every number the code handles is an integer far below 2^53, so the
    double arithmetic is exact); the 32-bit operators are written out with
    their wrap-around.  Arrays and big-number objects live in a heap of cells
    so that in-place updates ([key[0] &= ...], [h.addM(ci)], the in-place
    [byteswap]) and the copies the code takes ([slice], [copy], [concat]) are
    visible.

    The collaborators that poly1305.js calls but that live in other files of
    sjcl (bitArray.js, codecBytes.js, bn.js, aes.js) are modelled from their
    contracts; each such definition says so.  The multiplication of the
    field and the cipher are parameters: the development holds for every
    multiplication that returns some representative of the product modulo
    2^130 - 5, and for every cipher. *)

From Stdlib Require Import ZArith List Lia Bool String.
From Stdlib.Strings Require Import Byte.
From stdpp Require Import base list.
Import ListNotations.
Local Open Scope Z_scope.

(* ================================================================== *)
(** * JavaScript numbers and arrays *)
(* ================================================================== *)

Module JS.

(** ToUint32 and ToInt32 of an integer-valued number. *)
Definition toUint32 (v : Z) : Z := v mod 2 ^ 32.
Definition toInt32 (v : Z) : Z := (v + 2 ^ 31) mod 2 ^ 32 - 2 ^ 31.

(** [a & b], [a | b], [a ^ b], [~a]: both operands go through ToInt32. *)
Definition and (a b : Z) : Z := Z.land (toInt32 a) (toInt32 b).
Definition or (a b : Z) : Z := Z.lor (toInt32 a) (toInt32 b).
Definition xor (a b : Z) : Z := Z.lxor (toInt32 a) (toInt32 b).
Definition not (a : Z) : Z := Z.lnot (toInt32 a).

(** [a << n] and [a >>> n]: the shift count is taken modulo 32. *)
Definition shl (a n : Z) : Z := toInt32 (Z.shiftl (toInt32 a) (toUint32 n mod 32)).
Definition ushr (a n : Z) : Z := Z.shiftr (toUint32 a) (toUint32 n mod 32).

(** [a.slice(from, to)] and [a.slice(from)] for [0 <= from <= to] (the only
    way poly1305.js calls them); both build a new array. *)
Definition slice {A} (a : list A) (from to : Z) : list A :=
  take (Z.to_nat to - Z.to_nat from) (drop (Z.to_nat from) a).
Definition slice_from {A} (a : list A) (from : Z) : list A := drop (Z.to_nat from) a.

(** [a[i]] is [undefined] outside the array; [a[i] || 0] and ToInt32 both
    read [undefined] as 0. *)
Definition get (a : list Z) (i : Z) : option Z :=
  if i <? 0 then None else a !! Z.to_nat i.
Definition get_or0 (a : list Z) (i : Z) : Z := default 0 (get a i).

(** [a[i] = v].  Writing at [i = a.length] appends.  Writing further out
    leaves holes in JavaScript; they are filled with 0 here, and the lemmas
    below show that poly1305.js never writes beyond [a.length]. *)
Definition set (a : list Z) (i : Z) (v : Z) : list Z :=
  let n := Z.to_nat i in
  if (n <? length a)%nat then <[n := v]> a
  else a ++ replicate (n - length a) 0 ++ [v].

End JS.

(** Bytes as numbers. *)
Definition b2z (b : byte) : Z := Z.of_N (Byte.to_N b).
Definition z2b (z : Z) : byte :=
  match Byte.of_N (Z.to_N (z mod 256)) with Some b => b | None => x00 end.

(* ================================================================== *)
(** * sjcl.bitArray and sjcl.codec.bytes (bitArray.js, codecBytes.js) *)
(* ================================================================== *)

Module bA.

(** Modelled from the spec: sjcl.bitArray is one of the "generic bit/byte
    serialization utilities" and is not in core/poly1305.js.  A bit array is
    an array of big-endian 32-bit words; a last word holding fewer than 32
    bits carries its bit length above bit 40.  [getPartial x] is
    [Math.round(x / 0x10000000000) || 32]. *)
Definition getPartial (x : Z) : Z :=
  let r := (x + 2 ^ 39) / 2 ^ 40 in if r =? 0 then 32 else r.

(** Modelled from the spec: [partial(len, x)], the last word that holds the
    [len] low bits of [x]. *)
Definition partial (len x : Z) : Z :=
  if len =? 32 then x else JS.shl x (32 - len) + len * 2 ^ 40.

(** Modelled from the spec: [bitLength(a)], the number of bits of [a]. *)
Definition bitLength (a : list Z) : Z :=
  match last a with
  | None => 0
  | Some x => (Z.of_nat (length a) - 1) * 32 + getPartial x
  end.

(** The big-endian number of some bytes, as the codec accumulates it
    ([tmp = tmp << 8 | byte]). *)
Definition be_value (bs : list byte) : Z :=
  fold_left (fun tmp b => tmp * 256 + b2z b) bs 0.

(** Modelled from the spec: sjcl.codec.bytes.toBits of codecBytes.js, the bit
    array of a byte sequence ("Message input: an arbitrary-length byte
    sequence"): four bytes per big-endian word, a shorter rest as a partial
    word. *)
Fixpoint fromBytes (bs : list byte) : list Z :=
  match bs with
  | [] => []
  | b0 :: b1 :: b2 :: b3 :: rest => JS.toInt32 (be_value [b0; b1; b2; b3]) :: fromBytes rest
  | _ => [partial (8 * Z.of_nat (length bs)) (be_value bs)]
  end.

(** The four bytes of a word, most significant first. *)
Definition word_bytes (w : Z) : list byte :=
  let u := JS.toUint32 w in
  [z2b (u / 2 ^ 24); z2b (u / 2 ^ 16); z2b (u / 2 ^ 8); z2b u].

(** Modelled from the spec: sjcl.codec.bytes.fromBits of codecBytes.js, the
    bytes of a byte-aligned bit array. *)
Definition toBytes (a : list Z) : list byte :=
  take (Z.to_nat (bitLength a / 8)) (flat_map word_bytes a).

(** Modelled from the spec: [sjcl.bitArray.concat(a1, a2)], the bit string
    [a1] followed by [a2] ("prepend any pendingBuffer to the new input");
    written for the byte-aligned arrays poly1305.js handles. *)
Definition concat (a1 a2 : list Z) : list Z :=
  fromBytes (toBytes a1 ++ toBytes a2).

(** Modelled from the spec: [sjcl.bitArray.equal(a, b)], whether two bit
    arrays hold the same bits: equal bit lengths and no differing word. *)
Definition equal (a b : list Z) : bool :=
  if negb (bitLength a =? bitLength b) then false
  else
    fold_left
      (fun x i => JS.or x (JS.xor (JS.get_or0 a (Z.of_nat i)) (JS.get_or0 b (Z.of_nat i))))
      (seq 0 (length a)) 0 =? 0.

End bA.

(* ================================================================== *)
(** * sjcl.bn and sjcl.bn.prime.p1305 (bn.js) *)
(* ================================================================== *)

Module bn.

(** Modelled from the spec: [sjcl.bn.prototype.radix], the number of bits of
    a limb.  bn.js is not in the sources; sjcl fixes the radix to 24. *)
Definition radix : Z := 24.

(** A big number is its array of limbs, least significant first. *)
Fixpoint value (limbs : list Z) : Z :=
  match limbs with
  | [] => 0
  | x :: rest => x + 2 ^ radix * value rest
  end.

(** The [n] low limbs of a number. *)
Fixpoint limbs_of (n : nat) (v : Z) : list Z :=
  match n with
  | O => []
  | S n' => v mod 2 ^ radix :: limbs_of n' (v / 2 ^ radix)
  end.

(** The number whose big-endian bits are the bits of a bit array: the words
    as 32-bit digits, without the unused low bits of a partial last word. *)
Definition bits_value (bits : list Z) : Z :=
  fold_left (fun acc w => acc * 2 ^ 32 + JS.toUint32 w) bits 0
  / 2 ^ (32 * Z.of_nat (length bits) - bA.bitLength bits).

(** Modelled from the spec: [cls.fromBits(bits)], "conversion between a field
    element and a ... byte/word sequence": the number whose big-endian bits
    are [bits], in as many limbs as the bits need (at least one). *)
Definition fromBits (bits : list Z) : list Z :=
  let l := bA.bitLength bits in
  limbs_of (Z.to_nat (Z.max 1 ((l + radix - 1) / radix))) (bits_value bits).

(** Modelled from the spec: [this.addM(that)], limb-wise addition into
    [this], extended with zero limbs to the length of [that]; no carry and no
    reduction ("the lazy ... reduction used during accumulation"). *)
Fixpoint addM (l ll : list Z) : list Z :=
  match l, ll with
  | _, [] => l
  | [], y :: ll' => 0 + y :: addM [] ll'
  | x :: l', y :: ll' => x + y :: addM l' ll'
  end.

(** Modelled from the spec: [this.cnormalize()], carry propagation through
    all limbs but the last ("kept normalized ... after each block"). *)
Fixpoint cnormalize_from (carry : Z) (limbs : list Z) : list Z :=
  match limbs with
  | [] => []
  | [x] => [x + carry]
  | x :: rest =>
      let l := x + carry in
      let m := l mod 2 ^ radix in
      m :: cnormalize_from ((l - m) / 2 ^ radix) rest
  end.
Definition cnormalize (limbs : list Z) : list Z := cnormalize_from 0 limbs.

(** Modelled from the spec: [this.normalize()] of the plain integer class,
    carry propagation through every limb; what is carried out of the last
    limb becomes a new limb. *)
Fixpoint normalize_from (carry : Z) (limbs : list Z) : list Z :=
  match limbs with
  | [] => if carry =? 0 then [] else [carry]
  | x :: rest =>
      let l := x + carry in
      let m := l mod 2 ^ radix in
      m :: normalize_from ((l - m) / 2 ^ radix) rest
  end.
Definition normalize (limbs : list Z) : list Z := normalize_from 0 limbs.

(** The [n] low 32-bit words of a number, most significant first, each as
    the signed number the bitwise operators of JavaScript produce. *)
Fixpoint be_words (n : nat) (v : Z) : list Z :=
  match n with
  | O => []
  | S n' => be_words n' (v / 2 ^ 32) ++ [JS.toInt32 (v mod 2 ^ 32)]
  end.

(** Modelled from the spec: [this.toBits(len)] of the plain integer class
    ("a separate fixed-width (128-bit) integer type with ... conversion"):
    the low [len] bits as a big-endian bit array, [len] a multiple of 32. *)
Definition toBits (len : Z) (limbs : list Z) : list Z :=
  be_words (Z.to_nat (len / 32)) (value limbs mod 2 ^ len).

End bn.

Module p1305.

(** Modelled from the spec: the prime of the field, "p = 2^130 - 5". *)
Definition modulus : Z := 2 ^ 130 - 5.

(** The number of limbs of a field element: 130 bits in limbs of [radix]. *)
Definition nlimbs : nat := Z.to_nat ((130 + bn.radix - 1) / bn.radix).

(** Modelled from the spec: [this.fullReduce()] of the field class, "a full
    (canonical) reduction": the representative in [0, p). *)
Definition fullReduce (a : list Z) : list Z :=
  bn.limbs_of nlimbs (bn.value a mod modulus).

End p1305.

(* ================================================================== *)
(** * The heap and its monad *)
(* ================================================================== *)

(** A cell holds a JavaScript array of numbers: a bit array, or the limbs of
    a big-number object.  Locations are indices; allocation appends. *)
Abbreviation loc := nat.
Abbreviation heap := (list (list Z)).

Definition St (A : Type) : Type := heap -> A * heap.
Definition ret {A} (a : A) : St A := fun s => (a, s).
Definition bind {A B} (m : St A) (k : A -> St B) : St B :=
  fun s => let '(a, s') := m s in k a s'.

Notation "'do' x <- m ; k" := (bind m (fun x => k))
  (at level 10, x pattern, m at level 100, k at level 200,
   format "'[v' 'do'  x  <-  m ; '/' k ']'").
Notation "'do_' m ; k" := (bind m (fun _ => k))
  (at level 10, m at level 100, k at level 200,
   format "'[v' 'do_'  m ; '/' k ']'").

Definition alloc (v : list Z) : St loc := fun s => (length s, s ++ [v]).
Definition load (l : loc) : St (list Z) := fun s => (s !!! l, s).
Definition store (l : loc) (v : list Z) : St unit := fun s => (tt, <[l := v]> s).

Section Poly1305.

(** Modelled from the spec: [this.mul(that)] of the field class of bn.js,
    which is not in the sources.  The spec asks that "addition and
    multiplication are defined mod 2^130-5" and tells the full reduction
    apart from "the lazy per-step reduction", so which representative of the
    product the method returns is left open: [mul] is any function on limbs
    whose value is congruent to the product modulo p.  The product is a new
    object. *)
Variable mul : list Z -> list Z -> list Z.
Hypothesis mul_spec : forall a b : list Z,
  bn.value (mul a b) mod p1305.modulus = (bn.value a * bn.value b) mod p1305.modulus.

(** The methods of big-number objects, on cells. *)
Definition bn_fromBits (bits : list Z) : St loc := alloc (bn.fromBits bits).
Definition bn_new (it : loc) : St loc := do l <- load it; alloc l.
Definition bn_copy (this : loc) : St loc := do l <- load this; alloc l.
Definition bn_addM (this that : loc) : St loc :=
  do l <- load this; do ll <- load that; do_ store this (bn.addM l ll); ret this.
Definition bn_cnormalize (this : loc) : St loc :=
  do l <- load this; do_ store this (bn.cnormalize l); ret this.
Definition bn_toBits (this : loc) (len : Z) : St (list Z) :=
  do l <- load this; do_ store this (bn.normalize l); ret (bn.toBits len l).
Definition p1305_new (n : Z) : St loc := alloc [n].
Definition p1305_mul (this that : loc) : St loc :=
  do a <- load this; do b <- load that; alloc (mul a b).
Definition p1305_fullReduce (this : loc) : St loc :=
  do l <- load this; do_ store this (p1305.fullReduce l); ret this.

(** [a[i] &= m] and [b.limbs[i] = (b.limbs[i] || 0) + v]. *)
Definition and_assign (a : loc) (i : Z) (m : Z) : St unit :=
  do k <- load a; store a (JS.set k i (JS.and (JS.get_or0 k i) m)).
Definition limb_add (b : loc) (i : Z) (v : Z) : St unit :=
  do k <- load b; store b (JS.set k i (JS.get_or0 k i + v)).

(* ================================================================== *)
(** * core/poly1305.js *)
(* ================================================================== *)

(** Lines 22-24. *)
Definition bit129ndx : Z := 128 / bn.radix.
Definition bit129value : Z := JS.shl 1 (128 mod bn.radix).

(** Lines 27-34: [byteswap(r)], in place in the source; every caller hands it
    an array it has just created. *)
Definition byteswap_word (v : Z) : Z :=
  JS.or (JS.or (JS.or (JS.ushr v 24) (JS.and (JS.ushr v 8) 0xff00))
               (JS.shl (JS.and v 0xff00) 8))
        (JS.shl (JS.and v 0xff) 24).
Definition byteswap (r : list Z) : list Z := map byteswap_word r.

(** Lines 38-40: [bits128ToNum(a, offset, cls)]; the result is a new
    big-number object. *)
Definition bits128ToNum (a : list Z) (offset : Z) : St loc :=
  bn_fromBits (rev (byteswap (JS.slice a offset (offset + 4)))).

Record poly1305_ctx : Type := Ctx { _r : loc; _s : loc; _h : loc; _buffer : option loc }.

(** [sjcl.exception.invalid(message)]. *)
Inductive exn : Type := invalid (message : string).

(** Lines 56-65: the constructor, [new poly1305(key)]; [key] is the caller's
    array. *)
Definition poly1305_new (key : loc) : St (exn + poly1305_ctx) :=
  do k <- load key;
  if negb (8 =? Z.of_nat (length k)) then ret (inl (invalid "invalid Poly1305 key size")) else
  do_ and_assign key 0 (JS.not 0xf0);
  do_ and_assign key 1 (JS.not 0x30000f0);
  do_ and_assign key 2 (JS.not 0x30000f0);
  do_ and_assign key 3 (JS.not 0x30000f0);
  do k <- load key;
  do r <- bits128ToNum k 0;
  do s <- bits128ToNum k 4;
  do h <- p1305_new 0;
  ret (inr {| _r := r; _s := s; _h := h; _buffer := None |}).

(** Lines 82-85 and, once more, lines 104-108: the four words at [offset] of
    [data] become a number, the number gets its marker bit, it is added to
    [h] in place, and the sum is multiplied by [r]; the product is a new
    object. *)
Definition add_block (h r : loc) (data : list Z) (offset ndx bit : Z) : St loc :=
  do ci <- bits128ToNum data offset;
  do_ limb_add ci ndx bit;
  do h <- bn_addM h ci;
  do h <- bn_cnormalize h;
  p1305_mul h r.

(** Lines 81-86: the loop of [update].  The recursion is on a number of
    rounds that [update] sets above the number of blocks, so that the loop
    always ends by its test [i < l] (lemma [update_loop_ends]). *)
Fixpoint update_loop (fuel : nat) (data : list Z) (l : Z) (r : loc) (i : Z) (h : loc)
  : St (Z * loc) :=
  match fuel with
  | O => ret (i, h)
  | S fuel' =>
      if i <? l then
        do h <- add_block h r data i bit129ndx bit129value;
        update_loop fuel' data l r (i + 4) h
      else ret (i, h)
  end.

(** Lines 73-93: [update(data)].  The argument is only read, so it is passed
    by value; the result is [this] with its fields as assigned. *)
Definition update (this : poly1305_ctx) (data : list Z) : St poly1305_ctx :=
  let h := _h this in
  let r := _r this in
  do data <- match _buffer this with
             | Some b => do buf <- load b; ret (bA.concat buf data)
             | None => ret data
             end;
  let l := JS.and (bA.bitLength data / 32) (JS.not 0x3) in
  do (i, h) <- update_loop (S (Z.to_nat l)) data l r 0 h;
  do buffer <- (if i <? Z.of_nat (length data)
                then do b <- alloc (JS.slice_from data i); ret (Some b)
                else ret None);
  ret {| _r := r; _s := _s this; _h := h; _buffer := buffer |}.

(** Lines 100-109: the first half of [finalize], which folds the pending
    bytes into a copy of the accumulator. *)
Definition finalize_fold (this : poly1305_ctx) : St loc :=
  do h <- bn_copy (_h this);
  match _buffer this with
  | Some b =>
      do data <- load b;
      let l := bA.bitLength data in
      let ndx := l / bn.radix in
      add_block h (_r this) data 0 ndx (JS.shl 1 (l mod bn.radix))
  | None => ret h
  end.

(** Lines 99-113: [finalize()]. *)
Definition finalize (this : poly1305_ctx) : St (list Z) :=
  do h <- finalize_fold this;
  do h <- p1305_fullReduce h;
  do h <- bn_new h;
  do_ bn_addM h (_s this);
  do bits <- bn_toBits h 128;
  ret (rev (byteswap bits)).

(** Lines 120-123: [verify(tag)]. *)
Definition verify (this : poly1305_ctx) (tag : list Z) : St bool :=
  do t <- finalize this;
  ret (bA.equal t tag).

(** Lines 52-54: [poly1305(key, data)] called as a function.  [key] and
    [data] are the caller's arrays, and they may be the same one: the
    constructor has clamped [key] in place by the time [update] reads
    [data]. *)
Definition poly1305 (key data : loc) : St (exn + list Z) :=
  do c <- poly1305_new key;
  match c with
  | inl e => ret (inl e)
  | inr c => do d <- load data; do c <- update c d; do t <- finalize c; ret (inr t)
  end.

Section Poly1305AES.

(** [new sjcl.cipher.aes(key).encrypt(nonce)] of aes.js, which is not in
    the sources: any function from the key and nonce words to the words of
    a new array. *)
Variable aes_encrypt : list Z -> list Z -> list Z.

(** Lines 145-146 and the [r.concat(s)] of lines 148 and 150;
    [Array.prototype.concat] builds a new array. *)
Definition poly1305aes_key (r key nonce : loc) : St (exn + loc) :=
  do k <- load key;
  do n <- load nonce;
  if negb (4 =? Z.of_nat (length k)) || negb (4 =? Z.of_nat (length n))
  then ret (inl (invalid "invalid Poly1305-AES key/nonce size")) else
  do s <- alloc (aes_encrypt k n);
  do rr <- load r;
  do ss <- load s;
  do rs <- alloc (rr ++ ss);
  ret (inr rs).

(** Lines 140-152 with [isConstructor] true: [new poly1305aes(r, key, nonce)]. *)
Definition poly1305aes_new (r key nonce : loc) : St (exn + poly1305_ctx) :=
  do rs <- poly1305aes_key r key nonce;
  match rs with
  | inl e => ret (inl e)
  | inr rs => poly1305_new rs
  end.

(** Lines 140-152 with [isConstructor] false: [poly1305aes(r, key, nonce, data)]. *)
Definition poly1305aes (r key nonce data : loc) : St (exn + list Z) :=
  do rs <- poly1305aes_key r key nonce;
  match rs with
  | inl e => ret (inl e)
  | inr rs => poly1305 rs data
  end.

End Poly1305AES.

(* ================================================================== *)
(** * Vocabulary of the statements *)
(* ================================================================== *)

(** Little-endian numbers and their bytes. *)
Fixpoint le_value (bs : list byte) : Z :=
  match bs with
  | [] => 0
  | b :: rest => b2z b + 256 * le_value rest
  end.

Fixpoint le_bytes (n : nat) (v : Z) : list byte :=
  match n with
  | O => []
  | S n' => z2b v :: le_bytes n' (v / 256)
  end.

(** The number of a sequence of 32-bit words, least significant first. *)
Fixpoint le_words (ws : list Z) : Z :=
  match ws with
  | [] => 0
  | w :: rest => JS.toUint32 w + 2 ^ 32 * le_words rest
  end.

(** The full 16-byte blocks of a message, and the bytes after the last one. *)
Fixpoint blocks_from (n : nat) (m : list byte) : list (list byte) :=
  match n with
  | O => []
  | S n' => take 16 m :: blocks_from n' (drop 16 m)
  end.
Definition full_blocks (m : list byte) : list (list byte) :=
  blocks_from (length m / 16)%nat m.
Definition tail_bytes (m : list byte) : list byte :=
  drop (16 * (length m / 16))%nat m.

(** The number of a block with its marker bit at position 8 * length, and
    the step of the accumulator: add, then multiply, modulo p. *)
Definition block_value (blk : list byte) : Z :=
  le_value blk + 2 ^ (8 * Z.of_nat (length blk)).
Definition step (r h c : Z) : Z :=
  (((h + c) mod p1305.modulus) * r) mod p1305.modulus.
Definition absorb (r h : Z) (blk : list byte) : Z := step r h (block_value blk).

(** The [i]-th little-endian 32-bit word of a number. *)
Definition le_word (v i : Z) : Z := (v / 2 ^ (32 * i)) mod 2 ^ 32.

(** The bits the clamp clears, on the little-endian words of r: the top four
    bits of every word, and the two low bits of words 1 to 3. *)
Definition clamped_number (v : Z) : Prop :=
  0 <= v < 2 ^ 128
  /\ le_word v 0 < 2 ^ 28
  /\ forall i, 1 <= i <= 3 -> le_word v i < 2 ^ 28 /\ le_word v i mod 4 = 0.

(** The step on limbs, as [add_block] computes it. *)
Definition marked (ci : list Z) (ndx v : Z) : list Z :=
  JS.set ci ndx (JS.get_or0 ci ndx + v).
Definition add_block_limbs (h r : list Z) (data : list Z) (offset ndx bit : Z) : list Z :=
  mul
    (bn.cnormalize
       (bn.addM h (marked (bn.fromBits (rev (byteswap (JS.slice data offset (offset + 4)))))
                          ndx bit)))
    r.
Definition absorb_limbs (r h : list Z) (blk : list byte) : list Z :=
  add_block_limbs h r (bA.fromBytes blk) 0 bit129ndx bit129value.

(** What the cells of a context hold. *)
Record contents : Type :=
  Contents { c_r : list Z; c_s : list Z; c_h : list Z; c_buffer : option (list Z) }.
Definition contents_of (c : poly1305_ctx) (σ : heap) : contents :=
  {| c_r := σ !!! _r c; c_s := σ !!! _s c; c_h := σ !!! _h c;
     c_buffer := (fun b => σ !!! b) <$> _buffer c |}.
Definition pending (c : poly1305_ctx) (σ : heap) : list byte :=
  match _buffer c with
  | Some b => bA.toBytes (σ !!! b)
  | None => []
  end.

(** The tag as lines 100-112 compute it from the contents of a context. *)
Definition folded (k : contents) : list Z :=
  match c_buffer k with
  | Some data =>
      let l := bA.bitLength data in
      add_block_limbs (c_h k) (c_r k) data 0 (l / bn.radix) (JS.shl 1 (l mod bn.radix))
  | None => c_h k
  end.
Definition tag_of (h s : list Z) : list Z :=
  rev (byteswap (bn.toBits 128 (bn.addM (p1305.fullReduce h) s))).
Definition tag (k : contents) : list Z := tag_of (folded k) (c_s k).

(** The contents of a context that was fed the message [m] since it was
    created with the numbers [r] and [s]. *)
Definition buffer_of (rest : list byte) : option (list Z) :=
  match rest with
  | [] => None
  | _ => Some (bA.fromBytes rest)
  end.
Definition contents_after (r s : list Z) (m : list byte) : contents :=
  {| c_r := r; c_s := s;
     c_h := fold_left (absorb_limbs r) (full_blocks m) [0];
     c_buffer := buffer_of (tail_bytes m) |}.

(** The locations of a context are allocated, and the accumulator is an
    object of its own. *)
Definition valid (c : poly1305_ctx) (σ : heap) : Prop :=
  (_r c < length σ)%nat /\ (_s c < length σ)%nat /\ (_h c < length σ)%nat
  /\ _h c <> _r c /\ _h c <> _s c
  /\ forall b, _buffer c = Some b -> (b < length σ)%nat.

(** The key array after lines 58-61. *)
Definition clamp_word (k : list Z) (i m : Z) : list Z :=
  JS.set k i (JS.and (JS.get_or0 k i) m).
Definition clamped (k : list Z) : list Z :=
  clamp_word (clamp_word (clamp_word (clamp_word k 0 (JS.not 0xf0)) 1 (JS.not 0x30000f0))
                         2 (JS.not 0x30000f0))
             3 (JS.not 0x30000f0).

(** Sequences of calls on one context. *)
Inductive op : Type :=
  | Update (bs : list byte)
  | Finalize
  | Verify (tag : list Z).
Inductive out : Type :=
  | Tag (t : list Z)
  | Verdict (b : bool).

Fixpoint run (ops : list op) (c : poly1305_ctx) : St (poly1305_ctx * list out) :=
  match ops with
  | [] => ret (c, [])
  | Update bs :: ops => do c <- update c (bA.fromBytes bs); run ops c
  | Finalize :: ops =>
      do t <- finalize c; do (c, os) <- run ops c; ret (c, Tag t :: os)
  | Verify tag :: ops =>
      do b <- verify c tag; do (c, os) <- run ops c; ret (c, Verdict b :: os)
  end.

(** The bytes the updates of [ops] feed, in order. *)
Fixpoint fed (ops : list op) : list byte :=
  match ops with
  | [] => []
  | Update bs :: ops => bs ++ fed ops
  | _ :: ops => fed ops
  end.

(** What a sequence of calls returns when every [finalize] and [verify]
    sees the tag [tagf m] of the bytes [m] fed so far. *)
Fixpoint expected (tagf : list byte -> list Z) (m : list byte) (ops : list op) : list out :=
  match ops with
  | [] => []
  | Update bs :: ops => expected tagf (m ++ bs) ops
  | Finalize :: ops => Tag (tagf m) :: expected tagf m ops
  | Verify t :: ops => Verdict (bA.equal (tagf m) t) :: expected tagf m ops
  end.

(** The tag of the context [c] after one [update] with the whole of [m]. *)
Definition tag_after (c : poly1305_ctx) (σ : heap) (m : list byte) : list Z :=
  let '(c1, σ1) := update c (bA.fromBytes m) σ in fst (finalize c1 σ1).

(** [Math.floor(bitLength / 32) & ~3] is a 32-bit operation: it is the
    number of words in full blocks as long as the array has fewer than 2^31
    words.  The statements are about messages of fewer than 2^33 bytes. *)
Definition short (m : list byte) : Prop := Z.of_nat (length m) < 2 ^ 33.

(** A context is reachable when a successful constructor call followed by
    some calls of [update], [finalize] and [verify] leads to it. *)
Definition reachable_by (ops : list op) (c : poly1305_ctx) (σ : heap) : Prop :=
  exists (key : loc) (σi : heap) (c0 : poly1305_ctx) (σ0 : heap) (os : list out),
    poly1305_new key σi = (inr c0, σ0) /\ run ops c0 σ0 = ((c, os), σ).

(** The polynomial of the header of poly1305.js,
    [c_1 * r^q + ... + c_q * r^1]. *)
Fixpoint poly (r : Z) (cs : list Z) : Z :=
  match cs with
  | [] => 0
  | c :: rest => c * r ^ Z.of_nat (length cs) + poly r rest
  end.

(** The blocks of a message: its full 16-byte blocks, then the shorter rest
    when there is one. *)
Definition message_blocks (m : list byte) : list (list byte) :=
  full_blocks m ++ match tail_bytes m with [] => [] | rest => [rest] end.

(** The clamp of lines 58-61 as a mask on the little-endian number of the
    first 16 key bytes. *)
Definition clamp_mask : Z := 0x0ffffffc0ffffffc0ffffffc0fffffff.

(** The header of poly1305.js: [mac = (csum + s) mod 2^128] with
    [csum = (c_1 * r'^q + ... + c_q * r'^1) mod (2^130 - 5)], on the bytes of
    the key and of the message. *)
Definition mac (key m : list byte) : list byte :=
  let r := Z.land (le_value (take 16 key)) clamp_mask in
  let s := le_value (drop 16 key) in
  let csum := poly r (map block_value (message_blocks m)) mod p1305.modulus in
  le_bytes 16 ((csum + s) mod 2 ^ 128).

(* ================================================================== *)
(** * Sample data *)
(* ================================================================== *)

(** The key, message and tag of RFC 7539, section 2.5.2. *)
Definition sample_key : list byte :=
  [x85; xd6; xbe; x78; x57; x55; x6d; x33; x7f; x44; x52; xfe; x42; xd5; x06; xa8;
   x01; x03; x80; x8a; xfb; x0d; xb2; xfd; x4a; xbf; xf6; xaf; x41; x49; xf5; x1b].
Definition sample_message : list byte :=
  list_byte_of_string "Cryptographic Forum Research Group".
Definition sample_tag : list byte :=
  [xa8; x06; x1d; xc1; x30; x51; x36; xc6; xc2; x2b; x8b; xaf; x0c; x01; x27; xa9].

(** A heap whose only cell is the key array, and some calls on a context. *)
Definition sample_heap : heap := [bA.fromBytes sample_key].
Definition sample_chunks : list (list byte) :=
  [take 5 sample_message; []; take 20 (drop 5 sample_message); drop 25 sample_message].
Definition sample_ops : list op :=
  [Update (take 3 sample_message); Finalize; Update (take 20 (drop 3 sample_message));
   Verify (bA.fromBytes sample_tag)].

(** The same with the message as a second array, for the one-shot call, and
    with the bytes that [sample_ops] feeds. *)
Definition sample_call_heap : heap :=
  [bA.fromBytes sample_key; bA.fromBytes sample_message].
Definition sample_stream_heap : heap :=
  [bA.fromBytes sample_key; bA.fromBytes (fed sample_ops)].

(** A multiplication that reduces lazily: of the representatives of the
    product modulo p it returns the one in [p, 2p), which is never the
    canonical one.  The theorems are instantiated with it at the sample
    data. *)
Definition lazy_mul (a b : list Z) : list Z :=
  bn.limbs_of p1305.nlimbs ((bn.value a * bn.value b) mod p1305.modulus + p1305.modulus).

(** A key of 29 bytes: 232 bits in eight words, the last one partial. *)
Definition short_key : list byte := take 29 sample_key.

(** An r with every bit set, a cipher key and a nonce. *)
Definition sample_aes_heap : heap :=
  [[-1; -1; -1; -1]; bA.fromBytes (take 16 sample_key); bA.fromBytes (drop 16 sample_key)].

(** The same with the message as a fourth array. *)
Definition sample_aes_call_heap : heap := sample_aes_heap ++ [bA.fromBytes sample_message].

(* ================================================================== *)
(** * Arithmetic of the 32-bit operators *)
(* ================================================================== *)

Lemma div_pow2_eq (x q r k : Z) : 0 <= r < 2 ^ k -> x = q * 2 ^ k + r -> x / 2 ^ k = q.
Proof. intros Hr ->. symmetry. apply (Z.div_unique _ _ q r); lia. Qed.

Lemma mod_pow2_eq (x q r k : Z) : 0 <= r < 2 ^ k -> x = q * 2 ^ k + r -> x mod 2 ^ k = r.
Proof. intros Hr ->. symmetry. apply (Z.mod_unique _ _ q r); lia. Qed.

Lemma land_mask (x k s : Z) :
  0 <= k -> 0 <= s ->
  Z.land x (Z.shiftl (Z.ones k) s) = ((x / 2 ^ s) mod 2 ^ k) * 2 ^ s.
Proof.
  intros Hk Hs. apply Z.bits_inj'. intros n Hn.
  rewrite Z.land_spec, Z.shiftl_spec by lia.
  rewrite Z.mul_pow2_bits by lia.
  destruct (Z.ltb_spec n s).
  - rewrite !(Z.testbit_neg_r _ (n - s)) by lia. apply andb_false_r.
  - destruct (Z.ltb_spec (n - s) k).
    + rewrite Z.ones_spec_low by lia. rewrite Z.mod_pow2_bits_low by lia.
      rewrite Z.div_pow2_bits by lia. rewrite andb_true_r. f_equal. lia.
    + rewrite Z.ones_spec_high by lia. rewrite Z.mod_pow2_bits_high by lia.
      apply andb_false_r.
Qed.

Lemma land_low_high (x y k : Z) : 0 <= k -> 0 <= x < 2 ^ k -> Z.land x (y * 2 ^ k) = 0.
Proof.
  intros Hk Hx. apply Z.bits_inj'. intros n Hn.
  rewrite Z.land_spec, Z.bits_0, Z.mul_pow2_bits by lia.
  destruct (Z.ltb_spec n k).
  - rewrite (Z.testbit_neg_r y) by lia. apply andb_false_r.
  - replace x with (x mod 2 ^ k) by (apply Z.mod_small; lia).
    rewrite Z.mod_pow2_bits_high by lia. reflexivity.
Qed.

Lemma lor_disjoint (x y k : Z) :
  0 <= k -> 0 <= x < 2 ^ k -> Z.lor x (y * 2 ^ k) = x + y * 2 ^ k.
Proof. intros. rewrite <- Z.add_lor_land, land_low_high by lia. lia. Qed.

Lemma toInt32_small (x : Z) : - 2 ^ 31 <= x < 2 ^ 31 -> JS.toInt32 x = x.
Proof. intros. unfold JS.toInt32. rewrite Z.mod_small; lia. Qed.

Lemma toInt32_range (x : Z) : - 2 ^ 31 <= JS.toInt32 x < 2 ^ 31.
Proof. unfold JS.toInt32. pose proof (Z.mod_pos_bound (x + 2 ^ 31) (2 ^ 32)). lia. Qed.

Lemma toUint32_range (x : Z) : 0 <= JS.toUint32 x < 2 ^ 32.
Proof. apply Z.mod_pos_bound. lia. Qed.

Lemma toUint32_small (x : Z) : 0 <= x < 2 ^ 32 -> JS.toUint32 x = x.
Proof. intros. apply Z.mod_small. lia. Qed.

Lemma toInt32_split (x : Z) :
  JS.toInt32 x = JS.toUint32 x \/ JS.toInt32 x = JS.toUint32 x - 2 ^ 32.
Proof.
  unfold JS.toInt32, JS.toUint32.
  pose proof (Z.mod_pos_bound x (2 ^ 32) ltac:(lia)).
  pose proof (Z.div_mod x (2 ^ 32) ltac:(lia)).
  destruct (Z_lt_ge_dec (x mod 2 ^ 32) (2 ^ 31)).
  - left. rewrite (mod_pow2_eq _ (x / 2 ^ 32) (x mod 2 ^ 32 + 2 ^ 31)); lia.
  - right. rewrite (mod_pow2_eq _ (x / 2 ^ 32 + 1) (x mod 2 ^ 32 - 2 ^ 31)); lia.
Qed.

Lemma toUint32_toInt32 (x : Z) : JS.toUint32 (JS.toInt32 x) = JS.toUint32 x.
Proof.
  destruct (toInt32_split x) as [-> | ->]; unfold JS.toUint32.
  - apply Z.mod_mod. lia.
  - rewrite <- (Z.mod_mod x (2 ^ 32)) at 2 by lia.
    rewrite <- (Z_mod_plus_full (x mod 2 ^ 32 - 2 ^ 32) 1 (2 ^ 32)).
    f_equal. lia.
Qed.

Lemma toInt32_toUint32 (x : Z) : JS.toInt32 (JS.toUint32 x) = JS.toInt32 x.
Proof.
  unfold JS.toInt32, JS.toUint32.
  rewrite Zplus_mod_idemp_l. reflexivity.
Qed.

Lemma toInt32_idem (x : Z) : JS.toInt32 (JS.toInt32 x) = JS.toInt32 x.
Proof. apply toInt32_small, toInt32_range. Qed.

(** Line 31 reverses the four bytes of a word. *)
Lemma byteswap_word_bytes (v a b c d : Z) :
  0 <= a < 256 -> 0 <= b < 256 -> 0 <= c < 256 -> 0 <= d < 256 ->
  JS.toUint32 v = a * 2 ^ 24 + b * 2 ^ 16 + c * 2 ^ 8 + d ->
  byteswap_word v = JS.toInt32 (d * 2 ^ 24 + c * 2 ^ 16 + b * 2 ^ 8 + a).
Proof.
  intros Ha Hb Hc Hd Hu. unfold byteswap_word.
  assert (H24 : JS.ushr v 24 = a).
  { unfold JS.ushr. change (JS.toUint32 24 mod 32) with 24.
    rewrite Z.shiftr_div_pow2 by lia. rewrite Hu.
    apply (div_pow2_eq _ a (b * 2 ^ 16 + c * 2 ^ 8 + d)); lia. }
  assert (H8 : JS.and (JS.ushr v 8) 0xff00 = b * 2 ^ 8).
  { unfold JS.ushr, JS.and. change (JS.toUint32 8 mod 32) with 8.
    rewrite Z.shiftr_div_pow2 by lia. rewrite Hu.
    rewrite (div_pow2_eq _ (a * 2 ^ 16 + b * 2 ^ 8 + c) d) by lia.
    rewrite toInt32_small by lia.
    change (JS.toInt32 65280) with (Z.shiftl (Z.ones 8) 8).
    rewrite land_mask by lia.
    rewrite (div_pow2_eq _ (a * 2 ^ 8 + b) c) by lia.
    rewrite (mod_pow2_eq _ a b) by lia. reflexivity. }
  assert (Hc8 : JS.and v 0xff00 = c * 2 ^ 8).
  { unfold JS.and. change (JS.toInt32 65280) with (Z.shiftl (Z.ones 8) 8).
    rewrite land_mask by lia.
    destruct (toInt32_split v) as [-> | ->]; rewrite Hu.
    - rewrite (div_pow2_eq _ (a * 2 ^ 16 + b * 2 ^ 8 + c) d) by lia.
      rewrite (mod_pow2_eq _ (a * 2 ^ 8 + b) c) by lia. reflexivity.
    - rewrite (div_pow2_eq _ ((a - 256) * 2 ^ 16 + b * 2 ^ 8 + c) d) by lia.
      rewrite (mod_pow2_eq _ ((a - 256) * 2 ^ 8 + b) c) by lia. reflexivity. }
  assert (Hd0 : JS.and v 0xff = d).
  { unfold JS.and. change (JS.toInt32 255) with (Z.ones 8).
    rewrite Z.land_ones by lia.
    destruct (toInt32_split v) as [-> | ->]; rewrite Hu.
    - apply (mod_pow2_eq _ (a * 2 ^ 16 + b * 2 ^ 8 + c)); lia.
    - apply (mod_pow2_eq _ ((a - 256) * 2 ^ 16 + b * 2 ^ 8 + c)); lia. }
  rewrite H24, H8, Hc8, Hd0.
  unfold JS.shl. change (JS.toUint32 8 mod 32) with 8. change (JS.toUint32 24 mod 32) with 24.
  rewrite !Z.shiftl_mul_pow2 by lia.
  rewrite (toInt32_small (c * 2 ^ 8)), (toInt32_small d) by lia.
  rewrite (toInt32_small (c * 2 ^ 8 * 2 ^ 8)) by lia.
  unfold JS.or.
  rewrite (toInt32_small a), (toInt32_small (b * 2 ^ 8)) by lia.
  rewrite (lor_disjoint a b 8) by lia.
  rewrite (toInt32_small (a + _)), (toInt32_small (c * _ * _)) by lia.
  replace (c * 2 ^ 8 * 2 ^ 8) with (c * 2 ^ 16) by lia.
  rewrite (lor_disjoint _ c 16) by lia.
  rewrite (toInt32_small (a + _ + _)) by lia.
  rewrite toInt32_idem.
  replace (d * 2 ^ 24 + c * 2 ^ 16 + b * 2 ^ 8 + a)
    with (a + b * 2 ^ 8 + c * 2 ^ 16 + d * 2 ^ 24) by lia.
  destruct (Z_lt_ge_dec d 128).
  - rewrite !toInt32_small by lia. apply lor_disjoint; lia.
  - assert (E : JS.toInt32 (d * 2 ^ 24) = (d - 256) * 2 ^ 24).
    { unfold JS.toInt32. rewrite (mod_pow2_eq _ 1 (d * 2 ^ 24 - 2 ^ 31)); lia. }
    rewrite E. rewrite lor_disjoint by lia.
    unfold JS.toInt32.
    rewrite (mod_pow2_eq _ 1 (a + b * 2 ^ 8 + c * 2 ^ 16 + d * 2 ^ 24 - 2 ^ 31)); lia.
Qed.

(** [x & ~3] rounds a non-negative 31-bit number down to a multiple of 4. *)
Lemma and_not3 (x : Z) : 0 <= x < 2 ^ 31 -> JS.and x (JS.not 3) = 4 * (x / 4).
Proof.
  intros Hx. unfold JS.and, JS.not.
  rewrite (toInt32_small x) by lia.
  change (JS.toInt32 3) with (Z.ones 2).
  rewrite toInt32_small by (change (Z.lnot (Z.ones 2)) with (-4); lia).
  rewrite <- Z.ldiff_land, Z.ldiff_ones_r by lia.
  rewrite Z.shiftr_div_pow2, Z.shiftl_mul_pow2 by lia.
  change (2 ^ 2) with 4. lia.
Qed.

(* ================================================================== *)
(** * Bytes, words and bit arrays *)
(* ================================================================== *)

Lemma b2z_range (b : byte) : 0 <= b2z b < 256.
Proof. unfold b2z. pose proof (Byte.to_N_bounded b). lia. Qed.

Lemma z2b_b2z (b : byte) : z2b (b2z b) = b.
Proof.
  unfold z2b. rewrite Z.mod_small by apply b2z_range.
  unfold b2z. rewrite N2Z.id, Byte.of_to_N. reflexivity.
Qed.

Lemma b2z_z2b (z : Z) : b2z (z2b z) = z mod 256.
Proof.
  unfold z2b. pose proof (Z.mod_pos_bound z 256 ltac:(lia)) as Hz.
  destruct (Byte.of_N (Z.to_N (z mod 256))) as [b|] eqn:E.
  - apply Byte.to_of_N in E. unfold b2z. rewrite E. lia.
  - apply Byte.of_N_None_iff in E. lia.
Qed.

Lemma z2b_eq (z : Z) (b : byte) : z mod 256 = b2z b -> z2b z = b.
Proof.
  intros H. rewrite <- (z2b_b2z b), <- H. unfold z2b.
  rewrite Z.mod_mod by lia. reflexivity.
Qed.

(** Induction on a byte sequence four bytes at a time. *)
Lemma bytes4_ind (P : list byte -> Prop) :
  P [] ->
  (forall b0, P [b0]) ->
  (forall b0 b1, P [b0; b1]) ->
  (forall b0 b1 b2, P [b0; b1; b2]) ->
  (forall b0 b1 b2 b3 rest, P rest -> P (b0 :: b1 :: b2 :: b3 :: rest)) ->
  forall bs, P bs.
Proof.
  intros H0 H1 H2 H3 H4.
  fix IH 1. intros [|b0 [|b1 [|b2 [|b3 rest]]]];
    [exact H0 | apply H1 | apply H2 | apply H3 | apply H4; apply IH].
Qed.

Lemma be_value_4 (b0 b1 b2 b3 : byte) :
  bA.be_value [b0; b1; b2; b3] = b2z b0 * 2 ^ 24 + b2z b1 * 2 ^ 16 + b2z b2 * 2 ^ 8 + b2z b3.
Proof. unfold bA.be_value. simpl. lia. Qed.

Lemma getPartial_int32 (x : Z) : - 2 ^ 31 <= x < 2 ^ 31 -> bA.getPartial x = 32.
Proof.
  intros Hx. unfold bA.getPartial.
  rewrite (Z.div_small (x + 2 ^ 39)) by lia. reflexivity.
Qed.

Lemma getPartial_partial (len x : Z) :
  0 < len < 32 -> bA.getPartial (bA.partial len x) = len.
Proof.
  intros Hl. unfold bA.getPartial, bA.partial.
  destruct (Z.eqb_spec len 32); [lia|].
  pose proof (toInt32_range (Z.shiftl (JS.toInt32 x) (JS.toUint32 (32 - len) mod 32))) as Hr.
  fold (JS.shl x (32 - len)) in Hr.
  rewrite (div_pow2_eq _ len (JS.shl x (32 - len) + 2 ^ 39)) by lia.
  destruct (Z.eqb_spec len 0); [lia | reflexivity].
Qed.

Lemma bitLength_nil : bA.bitLength [] = 0.
Proof. reflexivity. Qed.

Lemma bitLength_cons (w : Z) (a : list Z) :
  a <> [] -> bA.bitLength (w :: a) = 32 + bA.bitLength a.
Proof.
  intros Ha. unfold bA.bitLength. destruct a as [|x a]; [done|].
  rewrite last_cons. destruct (last (x :: a)) eqn:E.
  - rewrite !length_cons. lia.
  - apply last_None in E. done.
Qed.

Lemma bitLength_int32s (ws : list Z) :
  Forall (fun w => - 2 ^ 31 <= w < 2 ^ 31) ws ->
  bA.bitLength ws = 32 * Z.of_nat (length ws).
Proof.
  induction 1 as [|w ws Hw Hws IH]; [reflexivity|].
  destruct ws as [|w' ws].
  - unfold bA.bitLength. simpl. rewrite getPartial_int32 by lia. reflexivity.
  - rewrite bitLength_cons by done. rewrite IH. rewrite !length_cons. lia.
Qed.

Lemma fromBytes_4 (b0 b1 b2 b3 : byte) (rest : list byte) :
  bA.fromBytes (b0 :: b1 :: b2 :: b3 :: rest)
  = JS.toInt32 (bA.be_value [b0; b1; b2; b3]) :: bA.fromBytes rest.
Proof. reflexivity. Qed.

Lemma fromBytes_nil_inv (bs : list byte) : bA.fromBytes bs = [] -> bs = [].
Proof. destruct bs as [|b0 [|b1 [|b2 [|b3 rest]]]]; done. Qed.

Lemma bitLength_fromBytes (bs : list byte) :
  bA.bitLength (bA.fromBytes bs) = 8 * Z.of_nat (length bs).
Proof.
  induction bs as [| b0 | b0 b1 | b0 b1 b2 | b0 b1 b2 b3 rest IH] using bytes4_ind.
  - reflexivity.
  - unfold bA.fromBytes, bA.bitLength, last, length.
    rewrite getPartial_partial; lia.
  - unfold bA.fromBytes, bA.bitLength, last, length.
    rewrite getPartial_partial; lia.
  - unfold bA.fromBytes, bA.bitLength, last, length.
    rewrite getPartial_partial; lia.
  - rewrite fromBytes_4. destruct (bA.fromBytes rest) as [|w ws] eqn:E.
    + apply fromBytes_nil_inv in E. subst rest.
      unfold bA.bitLength, last, length. rewrite getPartial_int32 by apply toInt32_range.
      lia.
    + rewrite bitLength_cons by done. rewrite IH. rewrite !length_cons. lia.
Qed.

Lemma length_fromBytes (bs : list byte) :
  length (bA.fromBytes bs) = ((length bs + 3) / 4)%nat.
Proof.
  induction bs as [| b0 | b0 b1 | b0 b1 b2 | b0 b1 b2 b3 rest IH] using bytes4_ind;
    try reflexivity.
  rewrite fromBytes_4. rewrite !length_cons, IH.
  replace (S (S (S (S (length rest)))) + 3)%nat with (1 * 4 + (length rest + 3))%nat by lia.
  rewrite Nat.div_add_l by lia. lia.
Qed.

Lemma fromBytes_app (a b : list byte) :
  (length a mod 4 = 0)%nat -> bA.fromBytes (a ++ b) = bA.fromBytes a ++ bA.fromBytes b.
Proof.
  induction a as [| b0 | b0 b1 | b0 b1 b2 | b0 b1 b2 b3 rest IH] using bytes4_ind;
    intros Hlen; try (simpl in Hlen; discriminate).
  - reflexivity.
  - change (length (b0 :: b1 :: b2 :: b3 :: rest)) with (4 + length rest)%nat in Hlen.
    replace (4 + length rest)%nat with (length rest + 1 * 4)%nat in Hlen by lia.
    rewrite Nat.Div0.mod_add in Hlen.
    change ((b0 :: b1 :: b2 :: b3 :: rest) ++ b) with (b0 :: b1 :: b2 :: b3 :: (rest ++ b)).
    rewrite !fromBytes_4, IH by done. reflexivity.
Qed.

Lemma drop_fromBytes (n : nat) (bs : list byte) :
  drop n (bA.fromBytes bs) = bA.fromBytes (drop (4 * n) bs).
Proof.
  revert bs. induction n as [|n IH]; intros bs; [reflexivity|].
  replace (4 * S n)%nat with (S (S (S (S (4 * n))))) by lia.
  destruct bs as [|b0 [|b1 [|b2 [|b3 rest]]]]; simpl; rewrite ?drop_nil; try done.
Qed.

Lemma take_fromBytes (n : nat) (bs : list byte) :
  (4 * n <= length bs)%nat ->
  take n (bA.fromBytes bs) = bA.fromBytes (take (4 * n) bs).
Proof.
  revert bs. induction n as [|n IH]; intros bs Hn; [reflexivity|].
  replace (4 * S n)%nat with (S (S (S (S (4 * n))))) by lia.
  destruct bs as [|b0 [|b1 [|b2 [|b3 rest]]]]; try (simpl in Hn; lia).
  rewrite fromBytes_4. simpl take. rewrite fromBytes_4. f_equal.
  apply IH. simpl in Hn. lia.
Qed.

Lemma word_bytes_full (b0 b1 b2 b3 : byte) :
  bA.word_bytes (JS.toInt32 (bA.be_value [b0; b1; b2; b3])) = [b0; b1; b2; b3].
Proof.
  pose proof (b2z_range b0). pose proof (b2z_range b1).
  pose proof (b2z_range b2). pose proof (b2z_range b3).
  unfold bA.word_bytes. rewrite toUint32_toInt32, toUint32_small by (rewrite be_value_4; lia).
  rewrite be_value_4.
  rewrite (div_pow2_eq _ (b2z b0) (b2z b1 * 2 ^ 16 + b2z b2 * 2 ^ 8 + b2z b3)) by lia.
  rewrite (div_pow2_eq _ (b2z b0 * 2 ^ 8 + b2z b1) (b2z b2 * 2 ^ 8 + b2z b3)) by lia.
  rewrite (div_pow2_eq _ (b2z b0 * 2 ^ 16 + b2z b1 * 2 ^ 8 + b2z b2) (b2z b3)) by lia.
  repeat f_equal.
  - apply z2b_b2z.
  - apply z2b_eq. apply (mod_pow2_eq _ (b2z b0) _ 8); lia.
  - apply z2b_eq. apply (mod_pow2_eq _ (b2z b0 * 2 ^ 8 + b2z b1) _ 8); lia.
  - apply z2b_eq.
    apply (mod_pow2_eq _ (b2z b0 * 2 ^ 16 + b2z b1 * 2 ^ 8 + b2z b2) _ 8); lia.
Qed.

(** The unsigned value of the partial word of one to three bytes. *)
Lemma toUint32_partial (bs : list byte) (k : Z) :
  k = Z.of_nat (length bs) -> 0 < k < 4 ->
  JS.toUint32 (bA.partial (8 * k) (bA.be_value bs)) = bA.be_value bs * 2 ^ (32 - 8 * k)
  /\ 0 <= bA.be_value bs < 2 ^ (8 * k).
Proof.
  intros Hk Hk4.
  assert (Hv : 0 <= bA.be_value bs < 2 ^ (8 * k)).
  { destruct bs as [|b0 [|b1 [|b2 [|b3 rest]]]]; simpl in Hk; try lia; subst k;
      pose proof (b2z_range b0); try pose proof (b2z_range b1);
      try pose proof (b2z_range b2); unfold bA.be_value; simpl; lia. }
  split; [|exact Hv].
  unfold bA.partial. destruct (Z.eqb_spec (8 * k) 32); [lia|].
  unfold JS.toUint32 at 1.
  replace (8 * k * 2 ^ 40) with (8 * k * 2 ^ 8 * 2 ^ 32) by lia.
  rewrite Z_mod_plus_full.
  unfold JS.shl.
  assert (Hs : JS.toUint32 (32 - 8 * k) mod 32 = 32 - 8 * k).
  { rewrite toUint32_small by lia. apply Z.mod_small. lia. }
  rewrite Hs.
  fold (JS.toUint32 (JS.toInt32 (Z.shiftl (JS.toInt32 (bA.be_value bs)) (32 - 8 * k)))).
  rewrite toUint32_toInt32.
  assert (2 ^ (8 * k) <= 2 ^ 24) by (apply Z.pow_le_mono_r; lia).
  rewrite toInt32_small by lia.
  rewrite Z.shiftl_mul_pow2 by lia.
  apply toUint32_small.
  assert (2 ^ (8 * k) * 2 ^ (32 - 8 * k) = 2 ^ 32).
  { rewrite <- Z.pow_add_r by lia. f_equal. lia. }
  assert (0 < 2 ^ (32 - 8 * k)) by (apply Z.pow_pos_nonneg; lia).
  nia.
Qed.

Lemma word_bytes_partial (bs : list byte) (k : Z) :
  k = Z.of_nat (length bs) -> 0 < k < 4 ->
  exists pad, bA.word_bytes (bA.partial (8 * k) (bA.be_value bs)) = bs ++ pad.
Proof.
  intros Hk Hk4. destruct (toUint32_partial bs k Hk Hk4) as [Hu _].
  unfold bA.word_bytes. rewrite Hu. clear Hu.
  destruct bs as [|b0 [|b1 [|b2 [|b3 rest]]]]; simpl in Hk; try lia; subst k;
    pose proof (b2z_range b0); try pose proof (b2z_range b1);
    try pose proof (b2z_range b2); unfold bA.be_value; simpl fold_left;
    change (32 - 8 * Z.of_nat 1) with 24; change (32 - 8 * Z.of_nat 2) with 16;
    change (32 - 8 * Z.of_nat 3) with 8.
  - eexists. simpl app. f_equal.
    apply z2b_eq. rewrite Z.div_mul by lia. apply Z.mod_small. lia.
  - eexists. simpl app. f_equal; [|f_equal].
    + apply z2b_eq.
      rewrite (div_pow2_eq _ (b2z b0) (b2z b1 * 2 ^ 16)) by lia. apply Z.mod_small; lia.
    + apply z2b_eq. rewrite Z.div_mul by lia.
      apply (mod_pow2_eq _ (b2z b0) _ 8); lia.
  - eexists. simpl app. f_equal; [|f_equal; [|f_equal]].
    + apply z2b_eq.
      rewrite (div_pow2_eq _ (b2z b0) (b2z b1 * 2 ^ 16 + b2z b2 * 2 ^ 8)) by lia.
      apply Z.mod_small; lia.
    + apply z2b_eq.
      rewrite (div_pow2_eq _ (b2z b0 * 2 ^ 8 + b2z b1) (b2z b2 * 2 ^ 8)) by lia.
      apply (mod_pow2_eq _ (b2z b0) _ 8); lia.
    + apply z2b_eq. rewrite Z.div_mul by lia.
      apply (mod_pow2_eq _ (b2z b0 * 2 ^ 8 + b2z b1) _ 8); lia.
Qed.

Lemma flat_word_bytes_fromBytes (bs : list byte) :
  exists pad, flat_map bA.word_bytes (bA.fromBytes bs) = bs ++ pad.
Proof.
  induction bs as [| b0 | b0 b1 | b0 b1 b2 | b0 b1 b2 b3 rest IH] using bytes4_ind.
  - by exists [].
  - destruct (word_bytes_partial [b0] 1) as [pad E]; [done | lia |].
    exists pad. unfold bA.fromBytes, flat_map. rewrite app_nil_r. exact E.
  - destruct (word_bytes_partial [b0; b1] 2) as [pad E]; [done | lia |].
    exists pad. unfold bA.fromBytes, flat_map. rewrite app_nil_r. exact E.
  - destruct (word_bytes_partial [b0; b1; b2] 3) as [pad E]; [done | lia |].
    exists pad. unfold bA.fromBytes, flat_map. rewrite app_nil_r. exact E.
  - destruct IH as [pad E]. exists pad.
    rewrite fromBytes_4. cbn [flat_map]. rewrite word_bytes_full, E. reflexivity.
Qed.

(** The two codecs are inverse on byte sequences. *)
Lemma toBytes_fromBytes (bs : list byte) : bA.toBytes (bA.fromBytes bs) = bs.
Proof.
  unfold bA.toBytes. rewrite bitLength_fromBytes.
  destruct (flat_word_bytes_fromBytes bs) as [pad ->].
  replace (Z.to_nat (8 * Z.of_nat (length bs) / 8)) with (length bs).
  - apply take_app_length.
  - rewrite Z.mul_comm, Z.div_mul by lia. lia.
Qed.

Lemma concat_fromBytes (a b : list byte) :
  bA.concat (bA.fromBytes a) (bA.fromBytes b) = bA.fromBytes (a ++ b).
Proof. unfold bA.concat. by rewrite !toBytes_fromBytes. Qed.

(* ================================================================== *)
(** * Little-endian numbers *)
(* ================================================================== *)

Lemma byteswap_word_range (v : Z) : - 2 ^ 31 <= byteswap_word v < 2 ^ 31.
Proof.
  pose proof (toUint32_range v) as Hu.
  set (u := JS.toUint32 v) in *.
  pose proof (Z.div_mod u (2 ^ 24) ltac:(lia)).
  pose proof (Z.mod_pos_bound u (2 ^ 24) ltac:(lia)).
  pose proof (Z.div_mod (u mod 2 ^ 24) (2 ^ 16) ltac:(lia)).
  pose proof (Z.mod_pos_bound (u mod 2 ^ 24) (2 ^ 16) ltac:(lia)).
  pose proof (Z.div_mod ((u mod 2 ^ 24) mod 2 ^ 16) (2 ^ 8) ltac:(lia)).
  pose proof (Z.mod_pos_bound ((u mod 2 ^ 24) mod 2 ^ 16) (2 ^ 8) ltac:(lia)).
  rewrite (byteswap_word_bytes v (u / 2 ^ 24) ((u mod 2 ^ 24) / 2 ^ 16)
             (((u mod 2 ^ 24) mod 2 ^ 16) / 2 ^ 8) (((u mod 2 ^ 24) mod 2 ^ 16) mod 2 ^ 8)).
  - apply toInt32_range.
  - split; [apply Z.div_pos; lia | apply Z.div_lt_upper_bound; lia].
  - split; [apply Z.div_pos; lia | apply Z.div_lt_upper_bound; lia].
  - split; [apply Z.div_pos; lia | apply Z.div_lt_upper_bound; lia].
  - lia.
  - fold u. lia.
Qed.

Lemma byteswap_int32s (ws : list Z) :
  Forall (fun w => - 2 ^ 31 <= w < 2 ^ 31) (byteswap ws).
Proof.
  unfold byteswap. apply Forall_map, Forall_forall. intros w _.
  apply byteswap_word_range.
Qed.

Lemma le_words_range (ws : list Z) : 0 <= le_words ws < 2 ^ (32 * Z.of_nat (length ws)).
Proof.
  induction ws as [|w ws IH]; [simpl; lia|].
  pose proof (toUint32_range w).
  cbn [le_words length].
  replace (32 * Z.of_nat (S (length ws))) with (32 + 32 * Z.of_nat (length ws)) by lia.
  rewrite Z.pow_add_r by lia. nia.
Qed.

Lemma fold_be_rev (ws : list Z) :
  fold_left (fun acc w => acc * 2 ^ 32 + JS.toUint32 w) (rev ws) 0 = le_words ws.
Proof.
  induction ws as [|w ws IH]; [reflexivity|].
  cbn [rev le_words]. rewrite fold_left_app. cbn [fold_left]. rewrite IH. lia.
Qed.

(** The words of a byte sequence, byte-swapped and read least significant
    word first, are its little-endian number. *)
Lemma le_words_byteswap (bs : list byte) :
  le_words (byteswap (bA.fromBytes bs)) = le_value bs.
Proof.
  induction bs as [| b0 | b0 b1 | b0 b1 b2 | b0 b1 b2 b3 rest IH] using bytes4_ind.
  - reflexivity.
  - destruct (toUint32_partial [b0] 1) as [Hu _]; [done | lia |].
    pose proof (b2z_range b0).
    unfold bA.fromBytes, byteswap, map, le_words, length.
    rewrite (byteswap_word_bytes _ (b2z b0) 0 0 0); try lia.
    + rewrite toUint32_toInt32, toUint32_small by lia. simpl. lia.
    + change (8 * Z.of_nat 1) with (8 * 1). rewrite Hu. unfold bA.be_value. simpl. lia.
  - destruct (toUint32_partial [b0; b1] 2) as [Hu _]; [done | lia |].
    pose proof (b2z_range b0). pose proof (b2z_range b1).
    unfold bA.fromBytes, byteswap, map, le_words, length.
    rewrite (byteswap_word_bytes _ (b2z b0) (b2z b1) 0 0); try lia.
    + rewrite toUint32_toInt32, toUint32_small by lia. simpl. lia.
    + change (8 * Z.of_nat 2) with (8 * 2). rewrite Hu. unfold bA.be_value. simpl. lia.
  - destruct (toUint32_partial [b0; b1; b2] 3) as [Hu _]; [done | lia |].
    pose proof (b2z_range b0). pose proof (b2z_range b1). pose proof (b2z_range b2).
    unfold bA.fromBytes, byteswap, map, le_words, length.
    rewrite (byteswap_word_bytes _ (b2z b0) (b2z b1) (b2z b2) 0); try lia.
    + rewrite toUint32_toInt32, toUint32_small by lia. simpl. lia.
    + change (8 * Z.of_nat 3) with (8 * 3). rewrite Hu. unfold bA.be_value. simpl. lia.
  - pose proof (b2z_range b0). pose proof (b2z_range b1).
    pose proof (b2z_range b2). pose proof (b2z_range b3).
    rewrite fromBytes_4. unfold byteswap in *. cbn [map le_words le_value]. rewrite IH.
    rewrite (byteswap_word_bytes _ (b2z b0) (b2z b1) (b2z b2) (b2z b3)); try lia.
    + rewrite toUint32_toInt32, toUint32_small by lia. lia.
    + rewrite toUint32_toInt32, be_value_4. apply toUint32_small. lia.
Qed.

Lemma le_value_range (bs : list byte) : 0 <= le_value bs < 2 ^ (8 * Z.of_nat (length bs)).
Proof.
  induction bs as [|b bs IH]; [simpl; lia|].
  pose proof (b2z_range b). cbn [le_value length].
  replace (8 * Z.of_nat (S (length bs))) with (8 + 8 * Z.of_nat (length bs)) by lia.
  rewrite Z.pow_add_r by lia. nia.
Qed.

Lemma le_value_app (a b : list byte) :
  le_value (a ++ b) = le_value a + 2 ^ (8 * Z.of_nat (length a)) * le_value b.
Proof.
  induction a as [|x a IH]; [simpl; lia|].
  cbn [app le_value length]. rewrite IH.
  replace (8 * Z.of_nat (S (length a))) with (8 + 8 * Z.of_nat (length a)) by lia.
  rewrite Z.pow_add_r by lia. lia.
Qed.

Lemma length_le_bytes (n : nat) (v : Z) : length (le_bytes n v) = n.
Proof. revert v. induction n as [|n IH]; intros v; simpl; [done | by rewrite IH]. Qed.

Lemma le_value_le_bytes (n : nat) (v : Z) :
  le_value (le_bytes n v) = v mod 2 ^ (8 * Z.of_nat n).
Proof.
  revert v. induction n as [|n IH]; intros v.
  - simpl. by rewrite Z.mod_1_r.
  - cbn [le_bytes le_value]. rewrite IH, b2z_z2b.
    replace (8 * Z.of_nat (S n)) with (8 + 8 * Z.of_nat n) by lia.
    rewrite Z.pow_add_r by lia. change (2 ^ 8) with 256.
    rewrite Z.rem_mul_r; [lia | lia |]. apply Z.pow_pos_nonneg; lia.
Qed.

(** Byte-swapping a word yields the word of its bytes in little-endian order. *)
Lemma byteswap_word_le4 (v : Z) :
  byteswap_word (JS.toInt32 (v mod 2 ^ 32)) = JS.toInt32 (bA.be_value (le_bytes 4 v)).
Proof.
  cbn [le_bytes]. rewrite be_value_4, !b2z_z2b, !Z.div_div by lia.
  change (256 * 256 * 256) with (2 ^ 24). change (256 * 256) with (2 ^ 16).
  change 256 with (2 ^ 8) at 1 2 3 4 5.
  set (d := v mod 2 ^ 8). set (c := (v / 2 ^ 8) mod 2 ^ 8).
  set (b := (v / 2 ^ 16) mod 2 ^ 8). set (a := (v / 2 ^ 24) mod 2 ^ 8).
  assert (Hd : 0 <= d < 256) by (apply Z.mod_pos_bound; lia).
  assert (Hc : 0 <= c < 256) by (apply Z.mod_pos_bound; lia).
  assert (Hb : 0 <= b < 256) by (apply Z.mod_pos_bound; lia).
  assert (Ha : 0 <= a < 256) by (apply Z.mod_pos_bound; lia).
  apply byteswap_word_bytes; try lia.
  rewrite toUint32_toInt32. unfold JS.toUint32. rewrite Z.mod_mod by lia.
  subst a b c d.
  change (2 ^ 32) with (2 ^ 8 * 2 ^ 24).
  rewrite (Z.rem_mul_r v (2 ^ 8) (2 ^ 24)) by lia.
  change (2 ^ 24) with (2 ^ 8 * 2 ^ 16) at 1.
  rewrite (Z.rem_mul_r (v / 2 ^ 8) (2 ^ 8) (2 ^ 16)) by lia.
  change (2 ^ 16) with (2 ^ 8 * 2 ^ 8) at 1.
  rewrite (Z.rem_mul_r (v / 2 ^ 8 / 2 ^ 8) (2 ^ 8) (2 ^ 8)) by lia.
  rewrite !Z.div_div by lia.
  change (2 ^ 8 * 2 ^ 8 * 2 ^ 8) with (2 ^ 24). change (2 ^ 8 * 2 ^ 8) with (2 ^ 16).
  lia.
Qed.

Lemma rev_byteswap_be_words (n : nat) (v : Z) :
  rev (byteswap (bn.be_words n v)) = bA.fromBytes (le_bytes (4 * n) v).
Proof.
  revert v. induction n as [|n IH]; intros v; [reflexivity|].
  replace (4 * S n)%nat with (S (S (S (S (4 * n))))) by lia.
  cbn [bn.be_words]. unfold byteswap in *. rewrite map_app, rev_app_distr.
  cbn [map rev app]. rewrite IH.
  change (le_bytes (S (S (S (S (4 * n))))) v)
    with (z2b v :: z2b (v / 256) :: z2b (v / 256 / 256) :: z2b (v / 256 / 256 / 256)
            :: le_bytes (4 * n) (v / 256 / 256 / 256 / 256)).
  rewrite fromBytes_4. f_equal.
  - apply byteswap_word_le4.
  - rewrite !Z.div_div by lia. reflexivity.
Qed.

(* ================================================================== *)
(** * The big-number engine *)
(* ================================================================== *)

Lemma value_app (a b : list Z) :
  bn.value (a ++ b) = bn.value a + 2 ^ (bn.radix * Z.of_nat (length a)) * bn.value b.
Proof.
  induction a as [|x a IH].
  { cbn [app length bn.value]. change (Z.of_nat 0) with 0.
    rewrite Z.mul_0_r, Z.pow_0_r. lia. }
  cbn [app bn.value length]. rewrite IH.
  replace (bn.radix * Z.of_nat (S (length a)))
    with (bn.radix + bn.radix * Z.of_nat (length a)) by lia.
  rewrite Z.pow_add_r by (unfold bn.radix; lia). lia.
Qed.

Lemma value_replicate_0 (n : nat) : bn.value (replicate n 0) = 0.
Proof. induction n as [|n IH]; [reflexivity|]. cbn [replicate bn.value]. lia. Qed.

Lemma length_limbs_of (n : nat) (v : Z) : length (bn.limbs_of n v) = n.
Proof. revert v. induction n as [|n IH]; intros v; simpl; [done | by rewrite IH]. Qed.

Lemma value_limbs_of (n : nat) (v : Z) :
  bn.value (bn.limbs_of n v) = v mod 2 ^ (bn.radix * Z.of_nat n).
Proof.
  revert v. induction n as [|n IH]; intros v.
  - simpl. by rewrite Z.mod_1_r.
  - cbn [bn.limbs_of bn.value]. rewrite IH.
    replace (bn.radix * Z.of_nat (S n)) with (bn.radix + bn.radix * Z.of_nat n) by lia.
    rewrite Z.pow_add_r by (unfold bn.radix; lia).
    rewrite Z.rem_mul_r; [lia | unfold bn.radix; lia |].
    apply Z.pow_pos_nonneg; unfold bn.radix; lia.
Qed.

Lemma value_limbs_of_small (n : nat) (v : Z) :
  0 <= v < 2 ^ (bn.radix * Z.of_nat n) -> bn.value (bn.limbs_of n v) = v.
Proof. intros. rewrite value_limbs_of. by apply Z.mod_small. Qed.

Lemma value_addM (l ll : list Z) : bn.value (bn.addM l ll) = bn.value l + bn.value ll.
Proof.
  revert l. induction ll as [|y ll IH]; intros l.
  - destruct l; simpl; lia.
  - destruct l as [|x l]; cbn [bn.addM bn.value]; rewrite IH; simpl; lia.
Qed.

Lemma value_cnormalize_from (carry : Z) (limbs : list Z) :
  limbs <> [] -> bn.value (bn.cnormalize_from carry limbs) = bn.value limbs + carry.
Proof.
  revert carry. induction limbs as [|x rest IH]; intros carry Hne; [done|].
  destruct rest as [|y rest].
  - simpl. lia.
  - change (bn.cnormalize_from carry (x :: y :: rest))
      with ((x + carry) mod 2 ^ bn.radix
              :: bn.cnormalize_from ((x + carry - (x + carry) mod 2 ^ bn.radix) / 2 ^ bn.radix)
                   (y :: rest)).
    cbn [bn.value] in *. rewrite IH by done. cbn [bn.value].
    pose proof (Z.div_mod (x + carry) (2 ^ bn.radix) ltac:(unfold bn.radix; lia)) as Hdm.
    assert (E : (x + carry - (x + carry) mod 2 ^ bn.radix) / 2 ^ bn.radix
                = (x + carry) / 2 ^ bn.radix).
    { replace (x + carry - (x + carry) mod 2 ^ bn.radix)
        with ((x + carry) / 2 ^ bn.radix * 2 ^ bn.radix) by lia.
      apply Z.div_mul. unfold bn.radix. lia. }
    rewrite E. lia.
Qed.

Lemma value_cnormalize (limbs : list Z) : bn.value (bn.cnormalize limbs) = bn.value limbs.
Proof.
  destruct limbs as [|x rest]; [reflexivity|].
  unfold bn.cnormalize. rewrite value_cnormalize_from by done. lia.
Qed.

Lemma value_insert (a : list Z) (n : nat) (x y : Z) :
  a !! n = Some x ->
  bn.value (<[n := y]> a) = bn.value a + (y - x) * 2 ^ (bn.radix * Z.of_nat n).
Proof.
  revert n. induction a as [|z a IH]; intros n Hn; [done|].
  destruct n as [|n].
  - injection Hn as ->. change (<[0%nat := y]> (x :: a)) with (y :: a). cbn [bn.value].
    change (Z.of_nat 0) with 0. rewrite Z.mul_0_r, Z.pow_0_r. lia.
  - change (<[S n := y]> (z :: a)) with (z :: <[n := y]> a).
    change ((z :: a) !! S n) with (a !! n) in Hn.
    cbn [bn.value]. rewrite (IH n Hn).
    replace (bn.radix * Z.of_nat (S n)) with (bn.radix + bn.radix * Z.of_nat n) by lia.
    rewrite Z.pow_add_r by (unfold bn.radix; lia). lia.
Qed.

(** [b.limbs[i] = (b.limbs[i] || 0) + v] adds [v * 2^(radix * i)] as long as
    [i] is at most the number of limbs. *)
Lemma value_marked (ci : list Z) (i v : Z) :
  0 <= i <= Z.of_nat (length ci) ->
  bn.value (marked ci i v) = bn.value ci + v * 2 ^ (bn.radix * i).
Proof.
  intros Hi. unfold marked, JS.set, JS.get_or0, JS.get.
  destruct (Z.ltb_spec i 0); [lia|].
  destruct (Nat.ltb_spec (Z.to_nat i) (length ci)) as [Hlt|Hge].
  - destruct (lookup_lt_is_Some_2 ci (Z.to_nat i) Hlt) as [x Hx]. rewrite Hx. cbn [default from_option id].
    rewrite (value_insert ci (Z.to_nat i) x _ Hx).
    rewrite Z2Nat.id by lia. lia.
  - assert (Z.to_nat i = length ci) as E by lia.
    rewrite lookup_ge_None_2 by lia. cbn [default from_option id].
    rewrite E, Nat.sub_diag. cbn [replicate app].
    rewrite value_app. cbn [bn.value]. rewrite <- E, Z2Nat.id by lia. lia.
Qed.

Lemma length_marked (ci : list Z) (i v : Z) :
  0 <= i <= Z.of_nat (length ci) ->
  length (marked ci i v) = Nat.max (length ci) (S (Z.to_nat i)).
Proof.
  intros Hi. unfold marked, JS.set.
  destruct (Nat.ltb_spec (Z.to_nat i) (length ci)) as [Hlt|Hge].
  - rewrite length_insert. lia.
  - rewrite !length_app, length_replicate. simpl. lia.
Qed.

Lemma length_byteswap (ws : list Z) : length (byteswap ws) = length ws.
Proof. apply length_map. Qed.

(** [fromBits] of byte-swapped words, most significant word first. *)
Lemma fromBits_rev_byteswap (ws : list Z) :
  bn.value (bn.fromBits (rev (byteswap ws))) = le_words (byteswap ws)
  /\ length (bn.fromBits (rev (byteswap ws)))
     = Z.to_nat (Z.max 1 ((32 * Z.of_nat (length ws) + bn.radix - 1) / bn.radix)).
Proof.
  assert (Hbl : bA.bitLength (rev (byteswap ws)) = 32 * Z.of_nat (length ws)).
  { rewrite bitLength_int32s.
    - by rewrite length_rev, length_byteswap.
    - apply Forall_rev, byteswap_int32s. }
  unfold bn.fromBits. rewrite Hbl. split; [|apply length_limbs_of].
  assert (Hv : bn.bits_value (rev (byteswap ws)) = le_words (byteswap ws)).
  { unfold bn.bits_value.
    rewrite Hbl, fold_be_rev, length_rev, length_byteswap, Z.sub_diag.
    apply Z.div_1_r. }
  rewrite Hv. apply value_limbs_of_small.
  pose proof (le_words_range (byteswap ws)) as Hr.
  rewrite length_byteswap in Hr.
  split; [lia|]. eapply Z.lt_le_trans; [apply Hr|].
  apply Z.pow_le_mono_r; [lia|].
  unfold bn.radix.
  pose proof (Z.div_mod (32 * Z.of_nat (length ws) + 24 - 1) 24 ltac:(lia)).
  pose proof (Z.mod_pos_bound (32 * Z.of_nat (length ws) + 24 - 1) 24 ltac:(lia)).
  lia.
Qed.

(** The product as a field element. *)
Lemma value_mul (a b : list Z) :
  bn.value (mul a b) mod p1305.modulus = (bn.value a * bn.value b) mod p1305.modulus.
Proof. apply mul_spec. Qed.

Lemma value_fullReduce (a : list Z) :
  bn.value (p1305.fullReduce a) = bn.value a mod p1305.modulus.
Proof.
  unfold p1305.fullReduce. apply value_limbs_of_small.
  pose proof (Z.mod_pos_bound (bn.value a) p1305.modulus ltac:(done)).
  change (2 ^ (bn.radix * Z.of_nat p1305.nlimbs)) with (2 ^ 144).
  unfold p1305.modulus in *. lia.
Qed.

(** Lines 82-85 on a full block: the block's number with the pad bit 2^128
    is added, and the sum is multiplied by r; the new accumulator is a
    representative of that product modulo p. *)
Lemma value_absorb_limbs (r h : list Z) (blk : list byte) :
  length blk = 16%nat ->
  bn.value (absorb_limbs r h blk) mod p1305.modulus
  = absorb (bn.value r) (bn.value h) blk.
Proof.
  intros Hlen. unfold absorb_limbs, add_block_limbs, absorb, step, block_value.
  assert (Hs : JS.slice (bA.fromBytes blk) 0 (0 + 4) = bA.fromBytes blk).
  { unfold JS.slice. change (Z.to_nat (0 + 4) - Z.to_nat 0)%nat with 4%nat.
    change (Z.to_nat 0) with 0%nat. rewrite drop_0.
    apply take_ge. rewrite length_fromBytes, Hlen. done. }
  rewrite Hs.
  destruct (fromBits_rev_byteswap (bA.fromBytes blk)) as [Hv Hl].
  rewrite length_fromBytes, Hlen in Hl.
  rewrite value_mul, value_cnormalize, value_addM, value_marked.
  - rewrite Hv, le_words_byteswap, Hlen.
    rewrite Z.mul_mod_idemp_l by done.
    change (bit129value * 2 ^ (bn.radix * bit129ndx)) with (2 ^ 128).
    change (2 ^ (8 * Z.of_nat 16)) with (2 ^ 128).
    f_equal; lia.
  - rewrite Hl. vm_compute. split; discriminate.
Qed.

(* ================================================================== *)
(** * The heap *)
(* ================================================================== *)

Lemma heap_alloc_old (σ : heap) (v : list Z) (l : loc) :
  (l < length σ)%nat -> (σ ++ [v]) !!! l = σ !!! l.
Proof. intros. by rewrite lookup_total_app_l. Qed.

Lemma heap_alloc_new (σ : heap) (v : list Z) (l : loc) :
  l = length σ -> (σ ++ [v]) !!! l = v.
Proof. intros ->. by rewrite list_lookup_total_middle. Qed.

Lemma heap_store_eq (σ : heap) (l : loc) (v : list Z) :
  (l < length σ)%nat -> <[l := v]> σ !!! l = v.
Proof. apply list_lookup_total_insert_eq. Qed.

Lemma heap_store_ne (σ : heap) (l l' : loc) (v : list Z) :
  l <> l' -> <[l := v]> σ !!! l' = σ !!! l'.
Proof. apply list_lookup_total_insert_ne. Qed.

Lemma heap_invalid (σ : heap) (l : loc) : (length σ <= l)%nat -> σ !!! l = [].
Proof.
  intros. rewrite list_lookup_total_alt, lookup_ge_None_2 by done. reflexivity.
Qed.

Ltac heap_len :=
  repeat first [rewrite length_app | rewrite length_insert]; simpl length; lia.
Ltac heap_simpl :=
  repeat first
    [ rewrite heap_alloc_new by heap_len
    | rewrite heap_store_eq by heap_len
    | rewrite heap_store_ne by heap_len
    | rewrite heap_alloc_old by heap_len ].

(** Unfolding equations of the monadic code. *)
Lemma bind_eq {A B} (m : St A) (k : A -> St B) (σ : heap) :
  bind m k σ = let '(a, σ') := m σ in k a σ'.
Proof. reflexivity. Qed.

Lemma add_block_eq (h r : loc) (data : list Z) (offset ndx bit : Z) (σ : heap) :
  add_block h r data offset ndx bit σ =
  let ci := length σ in
  let σ1 := σ ++ [bn.fromBits (rev (byteswap (JS.slice data offset (offset + 4))))] in
  let σ2 := <[ci := marked (σ1 !!! ci) ndx bit]> σ1 in
  let σ3 := <[h := bn.addM (σ2 !!! h) (σ2 !!! ci)]> σ2 in
  let σ4 := <[h := bn.cnormalize (σ3 !!! h)]> σ3 in
  (length σ4, σ4 ++ [mul (σ4 !!! h) (σ4 !!! r)]).
Proof. reflexivity. Qed.

(** One block: the product is a fresh cell; of the old cells only [h] is
    written. *)
Lemma add_block_spec (h r : loc) (data : list Z) (offset ndx bit : Z)
    (σ σ' : heap) (h' : loc) :
  add_block h r data offset ndx bit σ = (h', σ') ->
  (h < length σ)%nat -> (r < length σ)%nat -> h <> r ->
  h' = S (length σ) /\ length σ' = S (S (length σ))
  /\ σ' !!! h' = add_block_limbs (σ !!! h) (σ !!! r) data offset ndx bit
  /\ (forall l, (l < length σ)%nat -> l <> h -> σ' !!! l = σ !!! l).
Proof.
  rewrite add_block_eq. cbv zeta. intros [= <- <-] Hh Hr Hhr.
  split; [heap_len|]. split; [heap_len|]. split.
  - heap_simpl. unfold add_block_limbs. reflexivity.
  - intros l Hl Hlh. heap_simpl. reflexivity.
Qed.

(* ================================================================== *)
(** * [update] *)
(* ================================================================== *)

Lemma update_loop_S (fuel : nat) (data : list Z) (l : Z) (r : loc) (i : Z) (h : loc)
    (σ : heap) :
  update_loop (S fuel) data l r i h σ =
  if i <? l
  then let '(h1, σ1) := add_block h r data i bit129ndx bit129value σ in
       update_loop fuel data l r (i + 4) h1 σ1
  else ((i, h), σ).
Proof. cbn [update_loop]. destruct (i <? l); reflexivity. Qed.

(** With more rounds than blocks the loop ends by its test, as the [for]
    of the source does; [update] gives it [l + 1] rounds. *)
Lemma update_loop_ends (fuel : nat) (data : list Z) (l : Z) (r : loc) :
  forall (i : Z) (h : loc) (σ σ' : heap) (i' : Z) (h' : loc),
  update_loop fuel data l r i h σ = ((i', h'), σ') ->
  l - i < 4 * Z.of_nat fuel -> l <= i'.
Proof.
  induction fuel as [|fuel IH]; intros i h σ σ' i' h' Hrun Hfuel.
  - cbn [update_loop ret] in Hrun. injection Hrun as <- _ _. lia.
  - rewrite update_loop_S in Hrun.
    destruct (Z.ltb_spec i l).
    + destruct (add_block h r data i bit129ndx bit129value σ) as [h1 σ1].
      apply (IH _ _ _ _ _ _ Hrun). lia.
    + injection Hrun as <- _ _. lia.
Qed.

(** The loop writes the accumulator it was given and fresh cells only. *)
Lemma update_loop_frame (fuel : nat) (data : list Z) (l : Z) (r : loc) :
  forall (i : Z) (h : loc) (σ σ' : heap) (i' : Z) (h' : loc),
  update_loop fuel data l r i h σ = ((i', h'), σ') ->
  (h < length σ)%nat -> (r < length σ)%nat -> h <> r ->
  (h' < length σ')%nat /\ (length σ <= length σ')%nat
  /\ (h' = h \/ (length σ <= h')%nat)
  /\ (forall l0, (l0 < length σ)%nat -> l0 <> h -> σ' !!! l0 = σ !!! l0).
Proof.
  induction fuel as [|fuel IH]; intros i h σ σ' i' h' Hrun Hh Hr Hhr.
  - injection Hrun as <- <- <-. repeat split; auto.
  - rewrite update_loop_S in Hrun. destruct (i <? l).
    + destruct (add_block h r data i bit129ndx bit129value σ) as [h1 σ1] eqn:Hb.
      destruct (add_block_spec _ _ _ _ _ _ _ _ _ Hb Hh Hr Hhr) as (-> & Hlen & _ & Hold).
      destruct (IH _ _ _ _ _ _ Hrun) as (Hh' & Hle & Hor & Hnew); try lia.
      split; [done|]. split; [lia|]. split; [right; lia|].
      intros l0 Hl0 Hne. rewrite Hnew by lia. by apply Hold.
    + injection Hrun as <- <- <-. repeat split; auto.
Qed.

Lemma slice_short {A} (a : list A) :
  (length a <= 4)%nat -> JS.slice a 0 (0 + 4) = a.
Proof.
  intros. unfold JS.slice. change (Z.to_nat (0 + 4) - Z.to_nat 0)%nat with 4%nat.
  change (Z.to_nat 0) with 0%nat. rewrite drop_0. by apply take_ge.
Qed.

Lemma slice_slice {A} (a : list A) (i : Z) :
  0 <= i -> JS.slice (JS.slice a i (i + 4)) 0 (0 + 4) = JS.slice a i (i + 4).
Proof.
  intros. apply slice_short. unfold JS.slice. rewrite length_take. lia.
Qed.

(** [add_block] reads its data through the four-word slice only. *)
Lemma add_block_limbs_slice (h r data : list Z) (i ndx bit : Z) :
  0 <= i ->
  add_block_limbs h r data i ndx bit
  = add_block_limbs h r (JS.slice data i (i + 4)) 0 ndx bit.
Proof. intros. unfold add_block_limbs. by rewrite slice_slice. Qed.

Lemma slice_block (m : list byte) (j : nat) :
  (16 * j + 16 <= length m)%nat ->
  JS.slice (bA.fromBytes m) (4 * Z.of_nat j) (4 * Z.of_nat j + 4)
  = bA.fromBytes (take 16 (drop (16 * j) m)).
Proof.
  intros Hlen. unfold JS.slice.
  replace (Z.to_nat (4 * Z.of_nat j + 4) - Z.to_nat (4 * Z.of_nat j))%nat with 4%nat by lia.
  replace (Z.to_nat (4 * Z.of_nat j)) with (4 * j)%nat by lia.
  rewrite drop_fromBytes.
  replace (4 * (4 * j))%nat with (16 * j)%nat by lia.
  rewrite take_fromBytes by (rewrite length_drop; lia).
  reflexivity.
Qed.

(** The loop on the words of a byte sequence: block after block is absorbed. *)
Lemma update_loop_blocks (m : list byte) (r : loc) (n : nat) :
  forall (fuel j : nat) (h : loc) (σ σ' : heap) (i' : Z) (h' : loc),
  update_loop fuel (bA.fromBytes m) (4 * Z.of_nat (j + n)) r (4 * Z.of_nat j) h σ
    = ((i', h'), σ') ->
  (n < fuel)%nat -> (16 * (j + n) <= length m)%nat ->
  (h < length σ)%nat -> (r < length σ)%nat -> h <> r ->
  i' = 4 * Z.of_nat (j + n)
  /\ σ' !!! h' = fold_left (absorb_limbs (σ !!! r)) (blocks_from n (drop (16 * j) m)) (σ !!! h).
Proof.
  induction n as [|n IH]; intros fuel j h σ σ' i' h' Hrun Hfuel Hlen Hh Hr Hhr.
  - destruct fuel as [|fuel]; [lia|].
    rewrite update_loop_S in Hrun.
    destruct (Z.ltb_spec (4 * Z.of_nat j) (4 * Z.of_nat (j + 0))); [lia|].
    injection Hrun as <- <- <-. split; [f_equal; lia | reflexivity].
  - destruct fuel as [|fuel]; [lia|].
    rewrite update_loop_S in Hrun.
    destruct (Z.ltb_spec (4 * Z.of_nat j) (4 * Z.of_nat (j + S n))); [|lia].
    destruct (add_block h r (bA.fromBytes m) (4 * Z.of_nat j) bit129ndx bit129value σ)
      as [h1 σ1] eqn:Hb.
    destruct (add_block_spec _ _ _ _ _ _ _ _ _ Hb Hh Hr Hhr) as (-> & Hlen1 & Hval & Hold).
    replace (4 * Z.of_nat j + 4) with (4 * Z.of_nat (S j)) in Hrun by lia.
    replace (j + S n)%nat with (S j + n)%nat in Hrun |- * by lia.
    destruct (IH _ _ _ _ _ _ _ Hrun) as (Hi & Hh'); try lia.
    split; [exact Hi|]. rewrite Hh', Hval, (Hold r) by lia.
    cbn [blocks_from fold_left]. rewrite drop_drop.
    replace (16 * j + 16)%nat with (16 * S j)%nat by lia.
    f_equal. unfold absorb_limbs.
    rewrite add_block_limbs_slice by lia.
    rewrite slice_block by lia.
    rewrite (add_block_limbs_slice _ _ (bA.fromBytes _) 0) by lia.
    rewrite slice_short; [reflexivity|].
    rewrite length_fromBytes, length_take, length_drop.
    replace (16 `min` (length m - 16 * j))%nat with 16%nat by lia. done.
Qed.

Lemma update_eq (c : poly1305_ctx) (data : list Z) (σ : heap) :
  update c data σ =
  let data' := match _buffer c with
               | Some b => bA.concat (σ !!! b) data
               | None => data
               end in
  let l := JS.and (bA.bitLength data' / 32) (JS.not 3) in
  let '((i, h), σ1) := update_loop (S (Z.to_nat l)) data' l (_r c) 0 (_h c) σ in
  if i <? Z.of_nat (length data')
  then ({| _r := _r c; _s := _s c; _h := h; _buffer := Some (length σ1) |},
        σ1 ++ [JS.slice_from data' i])
  else ({| _r := _r c; _s := _s c; _h := h; _buffer := None |}, σ1).
Proof.
  unfold update. cbv zeta. rewrite bind_eq.
  destruct (_buffer c) as [b|]; cbn [bind load ret]; rewrite bind_eq;
    match goal with |- context [update_loop ?f ?d ?l ?r ?i ?h σ] =>
      destruct (update_loop f d l r i h σ) as [[i' h'] σ1] end;
    rewrite bind_eq; destruct (i' <? _); reflexivity.
Qed.

(** [update] keeps a context valid, never touches r and s, and of the cells
    that exist it writes the accumulator only. *)
Lemma update_frame (c c' : poly1305_ctx) (data : list Z) (σ σ' : heap) :
  update c data σ = (c', σ') -> valid c σ ->
  valid c' σ' /\ _r c' = _r c /\ _s c' = _s c /\ (length σ <= length σ')%nat
  /\ (forall l, (l < length σ)%nat -> l <> _h c -> σ' !!! l = σ !!! l).
Proof.
  rewrite update_eq. cbv zeta. intros Hrun (Hr & Hs & Hh & Hhr & Hhs & Hb).
  match type of Hrun with context [update_loop ?f ?d ?l ?r ?i ?h σ] =>
    destruct (update_loop f d l r i h σ) as [[i' h'] σ1] eqn:Hloop end.
  destruct (update_loop_frame _ _ _ _ _ _ _ _ _ _ Hloop Hh Hr Hhr)
    as (Hh' & Hle & Hor & Hold).
  destruct (i' <? _); injection Hrun as <- <-; cbn [_r _s _h _buffer].
  - split; [|split; [done|split; [done|split; [heap_len|]]]].
    + unfold valid; cbn [_r _s _h _buffer]. rewrite length_app. simpl length.
      repeat split; try lia. intros b [= <-]. lia.
    + intros l Hl Hne. rewrite heap_alloc_old by lia. by apply Hold.
  - split; [|split; [done|split; [done|split; [lia|exact Hold]]]].
    unfold valid; cbn [_r _s _h _buffer]. repeat split; try lia. done.
Qed.

(** ** Blocks of a message *)

Lemma blocks_from_app (k n : nat) (a x : list byte) :
  length a = (16 * k)%nat ->
  blocks_from (k + n) (a ++ x) = blocks_from k a ++ blocks_from n x.
Proof.
  revert a. induction k as [|k IH]; intros a Ha.
  - apply nil_length_inv in Ha. by subst a.
  - cbn [Nat.add blocks_from app].
    rewrite take_app_le, drop_app_le by lia.
    rewrite IH by (rewrite length_drop; lia). reflexivity.
Qed.

Lemma blocks_from_take (k : nat) (m : list byte) :
  (16 * k <= length m)%nat -> blocks_from k m = blocks_from k (take (16 * k) m).
Proof.
  intros Hk. rewrite <- (take_drop (16 * k) m) at 1.
  rewrite <- (Nat.add_0_r k) at 1.
  rewrite blocks_from_app by (rewrite length_take; lia).
  apply app_nil_r.
Qed.

Lemma length_tail_bytes (m : list byte) : (length (tail_bytes m) < 16)%nat.
Proof.
  unfold tail_bytes. rewrite length_drop.
  pose proof (Nat.div_mod_eq (length m) 16). pose proof (Nat.mod_upper_bound (length m) 16).
  lia.
Qed.

Lemma split_tail (m : list byte) :
  m = take (16 * (length m / 16)) m ++ tail_bytes m.
Proof. unfold tail_bytes. by rewrite take_drop. Qed.

Lemma full_blocks_app (m bs : list byte) :
  full_blocks (m ++ bs) = full_blocks m ++ full_blocks (tail_bytes m ++ bs).
Proof.
  pose proof (Nat.div_mod_eq (length m) 16) as Hdm.
  pose proof (Nat.mod_upper_bound (length m) 16 ltac:(lia)) as Hlt.
  assert (Hlen : length (take (16 * (length m / 16)) m) = (16 * (length m / 16))%nat)
    by (rewrite length_take; lia).
  unfold full_blocks at 1.
  rewrite (split_tail m) at 1 2. rewrite <- app_assoc.
  rewrite length_app, Hlen.
  rewrite (Nat.mul_comm 16), Nat.div_add_l by lia. rewrite (Nat.mul_comm _ 16).
  rewrite blocks_from_app by done.
  unfold full_blocks at 1. rewrite <- blocks_from_take by lia. reflexivity.
Qed.

Lemma tail_bytes_app (m bs : list byte) :
  tail_bytes (m ++ bs) = tail_bytes (tail_bytes m ++ bs).
Proof.
  pose proof (Nat.div_mod_eq (length m) 16) as Hdm.
  pose proof (Nat.mod_upper_bound (length m) 16 ltac:(lia)) as Hlt.
  assert (Hlen : length (take (16 * (length m / 16)) m) = (16 * (length m / 16))%nat)
    by (rewrite length_take; lia).
  unfold tail_bytes at 1.
  rewrite (split_tail m) at 1 2. rewrite <- app_assoc.
  rewrite length_app, Hlen.
  rewrite (Nat.mul_comm 16 (length m / 16)), Nat.div_add_l by lia.
  rewrite Nat.mul_add_distr_l, (Nat.mul_comm _ 16).
  rewrite <- Hlen at 1. rewrite drop_app_add. reflexivity.
Qed.

Lemma full_blocks_length (m : list byte) :
  Forall (fun blk => length blk = 16%nat) (full_blocks m).
Proof.
  unfold full_blocks.
  assert (H : (16 * (length m / 16) <= length m)%nat).
  { pose proof (Nat.div_mod_eq (length m) 16). lia. }
  revert H. generalize (length m / 16)%nat as k. intros k. revert m.
  induction k as [|k IH]; intros m Hk; [constructor|].
  cbn [blocks_from]. constructor.
  - rewrite length_take. lia.
  - apply IH. rewrite length_drop. lia.
Qed.

Lemma full_blocks_short (m : list byte) : (length m < 16)%nat -> full_blocks m = [].
Proof. intros. unfold full_blocks. by rewrite Nat.div_small. Qed.

Lemma tail_bytes_short (m : list byte) : (length m < 16)%nat -> tail_bytes m = m.
Proof. intros. unfold tail_bytes. by rewrite Nat.div_small. Qed.

(** ** The contents of a context after [update] *)

Lemma buffer_of_Some (t : list byte) (data : list Z) :
  buffer_of t = Some data -> data = bA.fromBytes t /\ t <> [].
Proof. destruct t; [done|]. by intros [= <-]. Qed.

Lemma buffer_of_None (t : list byte) : buffer_of t = None -> t = [].
Proof. by destruct t. Qed.

Lemma update_contents (c c' : poly1305_ctx) (σ σ' : heap) (r s : list Z)
    (m bs : list byte) :
  update c (bA.fromBytes bs) σ = (c', σ') ->
  valid c σ -> contents_of c σ = contents_after r s m -> short (m ++ bs) ->
  contents_of c' σ' = contents_after r s (m ++ bs).
Proof.
  intros Hrun Hvalid Hc Hshort.
  destruct Hvalid as (Hr & Hs & Hh & Hhr & Hhs & Hb).
  injection Hc as Hcr Hcs Hch Hcb.
  rewrite update_eq in Hrun. cbv zeta in Hrun.
  set (D := tail_bytes m ++ bs).
  assert (Hdata : match _buffer c with
                  | Some b => bA.concat (σ !!! b) (bA.fromBytes bs)
                  | None => bA.fromBytes bs
                  end = bA.fromBytes D).
  { subst D. destruct (_buffer c) as [b|]; cbn [fmap option_fmap option_map] in Hcb.
    - symmetry in Hcb. apply buffer_of_Some in Hcb as [-> _]. apply concat_fromBytes.
    - symmetry in Hcb. apply buffer_of_None in Hcb. by rewrite Hcb. }
  rewrite Hdata in Hrun. clear Hdata.
  assert (HD : (length D <= length m + length bs)%nat).
  { subst D. rewrite length_app. pose proof (length_tail_bytes m).
    unfold tail_bytes. rewrite length_drop. lia. }
  unfold short in Hshort. rewrite length_app in Hshort.
  assert (Hl : JS.and (bA.bitLength (bA.fromBytes D) / 32) (JS.not 3)
               = 4 * Z.of_nat (length D / 16)).
  { rewrite bitLength_fromBytes, and_not3.
    - rewrite Nat2Z.inj_div. change (Z.of_nat 16) with 16.
      rewrite Z.div_div by lia. change (32 * 4) with (8 * 16).
      rewrite Z.div_mul_cancel_l by lia. reflexivity.
    - split; [apply Z.div_pos; lia|]. apply Z.div_lt_upper_bound; lia. }
  rewrite Hl in Hrun.
  match type of Hrun with context [update_loop ?f ?d ?l ?r ?i ?h σ] =>
    destruct (update_loop f d l r i h σ) as [[i' h'] σ1] eqn:Hloop end.
  destruct (update_loop_frame _ _ _ _ _ _ _ _ _ _ Hloop Hh Hr Hhr)
    as (Hh' & Hle & Hor & Hold1).
  pose proof (Nat.div_mod_eq (length D) 16) as Hdm.
  pose proof (Nat.mod_upper_bound (length D) 16 ltac:(lia)) as Hlt.
  destruct (update_loop_blocks D (_r c) (length D / 16) _ 0 _ _ _ _ _ Hloop)
    as (Hi' & Hacc); try lia.
  rewrite drop_0 in Hacc. fold (full_blocks D) in Hacc.
  assert (Hh1 : σ1 !!! h' = c_h (contents_after r s (m ++ bs))).
  { cbn [contents_after c_h]. rewrite full_blocks_app, fold_left_app.
    rewrite Hacc, Hcr, Hch. reflexivity. }
  assert (Hr1 : σ1 !!! _r c = r) by (rewrite Hold1 by lia; exact Hcr).
  assert (Hs1 : σ1 !!! _s c = s) by (rewrite Hold1 by lia; exact Hcs).
  assert (Htail : tail_bytes (m ++ bs) = drop (16 * (length D / 16)) D).
  { rewrite tail_bytes_app. reflexivity. }
  rewrite length_fromBytes in Hrun. rewrite Nat.add_0_l in Hi'. subst i'.
  assert (Hw : ((length D + 3) / 4 = 4 * (length D / 16) + (length D mod 16 + 3) / 4)%nat).
  { rewrite Hdm at 1.
    replace (16 * (length D / 16) + length D mod 16 + 3)%nat
      with ((4 * (length D / 16)) * 4 + (length D mod 16 + 3))%nat by lia.
    rewrite Nat.div_add_l by lia. reflexivity. }
  assert (Hlen_tail : length (drop (16 * (length D / 16)) D) = (length D mod 16)%nat)
    by (rewrite length_drop; lia).
  revert Hrun Htail Hw Hlen_tail Hdm Hlt.
  generalize (length D mod 16)%nat as q. generalize (length D / 16)%nat as k.
  intros k q Hrun Htail Hw Hlen_tail Hdm Hlt. rewrite Hw in Hrun.
  destruct (Z.ltb_spec (4 * Z.of_nat k) (Z.of_nat (4 * k + (q + 3) / 4)))
    as [Hlt4|Hge4]; injection Hrun as <- <-.
  - unfold contents_of, contents_after. cbn [_r _s _h _buffer c_h fmap option_fmap option_map].
    rewrite !heap_alloc_old by lia. rewrite heap_alloc_new by done.
    rewrite Hr1, Hs1, Hh1. f_equal.
    rewrite Htail. unfold JS.slice_from.
    replace (Z.to_nat (4 * Z.of_nat k)) with (4 * k)%nat by lia.
    rewrite drop_fromBytes.
    replace (4 * (4 * k))%nat with (16 * k)%nat by lia.
    destruct (drop (16 * k) D) as [|x t]; [|reflexivity].
    cbn [length] in Hlen_tail. subst q. change ((0 + 3) / 4)%nat with 0%nat in Hlt4. lia.
  - unfold contents_of, contents_after. cbn [_r _s _h _buffer c_h fmap option_fmap option_map].
    rewrite Hr1, Hs1, Hh1. f_equal.
    rewrite Htail.
    destruct (drop (16 * k) D) as [|x t]; [reflexivity|].
    cbn [length] in Hlen_tail.
    assert (1 <= (q + 3) / 4)%nat; [|lia].
    apply Nat.div_le_lower_bound; lia.
Qed.

(** A later [update] writes either the same accumulator or a fresh one. *)
Lemma update_acc (c c' : poly1305_ctx) (data : list Z) (σ σ' : heap) :
  update c data σ = (c', σ') -> valid c σ ->
  _h c' = _h c \/ (length σ <= _h c')%nat.
Proof.
  rewrite update_eq. cbv zeta. intros Hrun (Hr & Hs & Hh & Hhr & Hhs & Hb).
  match type of Hrun with context [update_loop ?f ?d ?l ?r ?i ?h σ] =>
    destruct (update_loop f d l r i h σ) as [[i' h'] σ1] eqn:Hloop end.
  destruct (update_loop_frame _ _ _ _ _ _ _ _ _ _ Hloop Hh Hr Hhr) as (_ & _ & Hor & _).
  destruct (i' <? _); injection Hrun as <- <-; exact Hor.
Qed.

(* ================================================================== *)
(** * [finalize] and [verify] *)
(* ================================================================== *)

Lemma finalize_fold_eq (c : poly1305_ctx) (σ : heap) :
  finalize_fold c σ =
  let σ1 := σ ++ [σ !!! _h c] in
  match _buffer c with
  | Some b =>
      let data := σ1 !!! b in
      let l := bA.bitLength data in
      add_block (length σ) (_r c) data 0 (l / bn.radix) (JS.shl 1 (l mod bn.radix)) σ1
  | None => (length σ, σ1)
  end.
Proof. unfold finalize_fold. rewrite bind_eq. cbn. by destruct (_buffer c). Qed.

(** The first half of [finalize] writes fresh cells only, and its result
    holds what [folded] computes. *)
Lemma finalize_fold_spec (c : poly1305_ctx) (σ σ' : heap) (h : loc) :
  finalize_fold c σ = (h, σ') -> valid c σ ->
  (length σ <= h < length σ')%nat
  /\ σ' !!! h = folded (contents_of c σ)
  /\ (forall l, (l < length σ)%nat -> σ' !!! l = σ !!! l).
Proof.
  rewrite finalize_fold_eq. cbv zeta. intros Hrun (Hr & Hs & Hh & Hhr & Hhs & Hb).
  unfold folded, contents_of. cbn [c_buffer c_h c_r].
  destruct (_buffer c) as [b|]; cbn [fmap option_fmap option_map].
  - specialize (Hb b eq_refl).
    rewrite (heap_alloc_old σ _ b) in Hrun by lia.
    apply add_block_spec in Hrun; [|heap_len|heap_len|lia].
    destruct Hrun as (-> & Hlen & Hval & Hold).
    rewrite length_app in *. simpl length in *.
    split; [lia|]. split.
    + rewrite Hval. heap_simpl. reflexivity.
    + intros l Hl. rewrite Hold by lia. by heap_simpl.
  - injection Hrun as <- <-. rewrite length_app. simpl length.
    split; [lia|]. split; [by heap_simpl|]. intros l Hl. by heap_simpl.
Qed.

Lemma finalize_eq (c : poly1305_ctx) (σ : heap) :
  finalize c σ =
  let '(h, σ2) := finalize_fold c σ in
  let σ3 := <[h := p1305.fullReduce (σ2 !!! h)]> σ2 in
  let hb := length σ3 in
  let σ4 := σ3 ++ [σ3 !!! h] in
  let σ5 := <[hb := bn.addM (σ4 !!! hb) (σ4 !!! _s c)]> σ4 in
  (rev (byteswap (bn.toBits 128 (σ5 !!! hb))), <[hb := bn.normalize (σ5 !!! hb)]> σ5).
Proof.
  unfold finalize. rewrite bind_eq. by destruct (finalize_fold c σ) as [h σ2].
Qed.

(** [finalize] returns the tag of the contents of the context and writes
    fresh cells only. *)
Lemma finalize_spec (c : poly1305_ctx) (σ σ' : heap) (t : list Z) :
  finalize c σ = (t, σ') -> valid c σ ->
  t = tag (contents_of c σ)
  /\ (length σ <= length σ')%nat
  /\ (forall l, (l < length σ)%nat -> σ' !!! l = σ !!! l).
Proof.
  rewrite finalize_eq. intros Hrun Hvalid.
  destruct (finalize_fold c σ) as [h σ2] eqn:Hfold.
  destruct (finalize_fold_spec _ _ _ _ Hfold Hvalid) as (Hh & Hval & Hold).
  destruct Hvalid as (Hr & Hs & _).
  cbv zeta in Hrun. injection Hrun as <- <-.
  split; [|split].
  - unfold tag, tag_of. heap_simpl.
    rewrite Hval, Hold by lia. reflexivity.
  - heap_len.
  - intros l Hl. heap_simpl. by apply Hold.
Qed.

Lemma verify_spec (c : poly1305_ctx) (σ σ' : heap) (candidate : list Z) (b : bool) :
  verify c candidate σ = (b, σ') -> valid c σ ->
  b = bA.equal (tag (contents_of c σ)) candidate
  /\ (length σ <= length σ')%nat
  /\ (forall l, (l < length σ)%nat -> σ' !!! l = σ !!! l).
Proof.
  unfold verify. rewrite bind_eq. intros Hrun Hvalid.
  destruct (finalize c σ) as [t σ1] eqn:Hfin.
  cbn [ret] in Hrun. apply pair_equal_spec in Hrun as [<- <-].
  destruct (finalize_spec _ _ _ _ Hfin Hvalid) as (Ht & Hle & Hold).
  split; [by rewrite Ht|]. split; assumption.
Qed.

(** Cells that are kept keep a context valid and its contents the same. *)
Lemma valid_frame (c : poly1305_ctx) (σ σ' : heap) :
  valid c σ -> (length σ <= length σ')%nat ->
  (forall l, (l < length σ)%nat -> σ' !!! l = σ !!! l) ->
  valid c σ' /\ contents_of c σ' = contents_of c σ.
Proof.
  intros (Hr & Hs & Hh & Hhr & Hhs & Hb) Hle Hold. split.
  - repeat split; try lia; try done. intros b Hbb. specialize (Hb b Hbb). lia.
  - unfold contents_of. rewrite !Hold by done. f_equal.
    destruct (_buffer c) as [b|]; [|done]. cbn. by rewrite Hold by auto.
Qed.

(* ================================================================== *)
(** * The constructor *)
(* ================================================================== *)

Lemma poly1305_new_eq (key : loc) (σ : heap) :
  poly1305_new key σ =
  if negb (8 =? Z.of_nat (length (σ !!! key)))
  then (inl (invalid "invalid Poly1305 key size"), σ)
  else
    let σ1 := <[key := clamp_word (σ !!! key) 0 (JS.not 0xf0)]> σ in
    let σ2 := <[key := clamp_word (σ1 !!! key) 1 (JS.not 0x30000f0)]> σ1 in
    let σ3 := <[key := clamp_word (σ2 !!! key) 2 (JS.not 0x30000f0)]> σ2 in
    let σ4 := <[key := clamp_word (σ3 !!! key) 3 (JS.not 0x30000f0)]> σ3 in
    let k := σ4 !!! key in
    let σ5 := σ4 ++ [bn.fromBits (rev (byteswap (JS.slice k 0 (0 + 4))))] in
    let σ6 := σ5 ++ [bn.fromBits (rev (byteswap (JS.slice k 4 (4 + 4))))] in
    (inr {| _r := length σ4; _s := length σ5; _h := length σ6; _buffer := None |},
     σ6 ++ [[0]]).
Proof.
  unfold poly1305_new. rewrite bind_eq. cbn [load].
  destruct (negb (8 =? Z.of_nat (length (σ !!! key)))); reflexivity.
Qed.

Lemma poly1305_new_fail (key : loc) (σ : heap) :
  length (σ !!! key) <> 8%nat ->
  poly1305_new key σ = (inl (invalid "invalid Poly1305 key size"), σ).
Proof.
  intros H. rewrite poly1305_new_eq.
  destruct (Z.eqb_spec 8 (Z.of_nat (length (σ !!! key)))); [lia | reflexivity].
Qed.

(** A successful constructor call: the key array is clamped in place, and
    three fresh cells hold r, s and the accumulator 0. *)
Lemma poly1305_new_ok (key : loc) (σ : heap) :
  length (σ !!! key) = 8%nat ->
  let k := clamped (σ !!! key) in
  (key < length σ)%nat
  /\ poly1305_new key σ =
     (inr {| _r := length σ; _s := S (length σ); _h := S (S (length σ)); _buffer := None |},
      ((<[key := k]> σ ++ [bn.fromBits (rev (byteswap (JS.slice k 0 (0 + 4))))])
         ++ [bn.fromBits (rev (byteswap (JS.slice k 4 (4 + 4))))]) ++ [[0]]).
Proof.
  intros Hlen k.
  assert (Hkey : (key < length σ)%nat).
  { destruct (Nat.lt_ge_cases key (length σ)) as [|Hge]; [done|].
    rewrite heap_invalid in Hlen by done. done. }
  split; [done|].
  rewrite poly1305_new_eq.
  destruct (Z.eqb_spec 8 (Z.of_nat (length (σ !!! key)))); [|lia].
  cbn [negb]. cbv zeta. rewrite !length_app, !length_insert. simpl length.
  rewrite !heap_store_eq by heap_len.
  rewrite !list_insert_insert_eq.
  fold (clamped (σ !!! key)). fold k.
  f_equal. repeat f_equal; lia.
Qed.

Lemma poly1305_new_inv (key : loc) (σ σ0 : heap) (c0 : poly1305_ctx) :
  poly1305_new key σ = (inr c0, σ0) ->
  length (σ !!! key) = 8%nat /\ (key < length σ)%nat
  /\ c0 = {| _r := length σ; _s := S (length σ); _h := S (S (length σ)); _buffer := None |}
  /\ length σ0 = S (S (S (length σ)))
  /\ σ0 !!! key = clamped (σ !!! key)
  /\ σ0 !!! _r c0 = bn.fromBits (rev (byteswap (JS.slice (clamped (σ !!! key)) 0 (0 + 4))))
  /\ σ0 !!! _s c0 = bn.fromBits (rev (byteswap (JS.slice (clamped (σ !!! key)) 4 (4 + 4))))
  /\ σ0 !!! _h c0 = [0]
  /\ (forall l, (l < length σ)%nat -> l <> key -> σ0 !!! l = σ !!! l).
Proof.
  intros Hrun.
  destruct (Nat.eq_dec (length (σ !!! key)) 8%nat) as [Hlen|Hlen];
    [|rewrite poly1305_new_fail in Hrun by done; discriminate].
  destruct (poly1305_new_ok key σ Hlen) as [Hkey Hok].
  rewrite Hok in Hrun. apply pair_equal_spec in Hrun as [[= <-] <-].
  cbn [_r _s _h].
  split; [done|]. split; [done|]. split; [done|].
  split; [heap_len|].
  split; [by heap_simpl|]. split; [by heap_simpl|]. split; [by heap_simpl|].
  split; [by heap_simpl|].
  intros l Hl Hne. by heap_simpl.
Qed.

(** A new context is valid and holds the contents of the empty message. *)
Lemma poly1305_new_contents (key : loc) (σ σ0 : heap) (c0 : poly1305_ctx) :
  poly1305_new key σ = (inr c0, σ0) ->
  valid c0 σ0
  /\ contents_of c0 σ0 = contents_after (σ0 !!! _r c0) (σ0 !!! _s c0) [].
Proof.
  intros Hrun.
  destruct (poly1305_new_inv _ _ _ _ Hrun) as (_ & _ & Hc & Hlen & _ & _ & _ & Hh & _).
  split.
  - subst c0. unfold valid. cbn [_r _s _h _buffer]. rewrite Hlen.
    repeat split; try lia. done.
  - unfold contents_of, contents_after. rewrite Hh. subst c0. reflexivity.
Qed.

(* ================================================================== *)
(** * Sequences of calls *)
(* ================================================================== *)

Lemma run_update (bs : list byte) (ops : list op) (c : poly1305_ctx) (σ : heap) :
  run (Update bs :: ops) c σ =
  let '(c1, σ1) := update c (bA.fromBytes bs) σ in run ops c1 σ1.
Proof. reflexivity. Qed.

Lemma run_finalize (ops : list op) (c : poly1305_ctx) (σ : heap) :
  run (Finalize :: ops) c σ =
  let '(t, σ1) := finalize c σ in
  let '((c', os), σ2) := run ops c σ1 in ((c', Tag t :: os), σ2).
Proof.
  cbn [run]. rewrite bind_eq. destruct (finalize c σ) as [t σ1].
  rewrite bind_eq. by destruct (run ops c σ1) as [[c' os] σ2].
Qed.

Lemma run_verify (candidate : list Z) (ops : list op) (c : poly1305_ctx) (σ : heap) :
  run (Verify candidate :: ops) c σ =
  let '(b, σ1) := verify c candidate σ in
  let '((c', os), σ2) := run ops c σ1 in ((c', Verdict b :: os), σ2).
Proof.
  cbn [run]. rewrite bind_eq. destruct (verify c candidate σ) as [b σ1].
  rewrite bind_eq. by destruct (run ops c σ1) as [[c' os] σ2].
Qed.

Lemma run_app (ops1 ops2 : list op) (c : poly1305_ctx) (σ : heap) :
  run (ops1 ++ ops2) c σ =
  let '((c1, os1), σ1) := run ops1 c σ in
  let '((c2, os2), σ2) := run ops2 c1 σ1 in ((c2, os1 ++ os2), σ2).
Proof.
  revert c σ. induction ops1 as [|[bs| |candidate] ops1 IH]; intros c σ.
  - cbn [app run ret]. by destruct (run ops2 c σ) as [[c2 os2] σ2].
  - cbn [app]. rewrite !run_update. destruct (update c (bA.fromBytes bs) σ) as [c1 σ1].
    apply IH.
  - cbn [app]. rewrite !run_finalize. destruct (finalize c σ) as [t σ1].
    rewrite IH. destruct (run ops1 c σ1) as [[c1 os1] σ2].
    by destruct (run ops2 c1 σ2) as [[c2 os2] σ3].
  - cbn [app]. rewrite !run_verify. destruct (verify c candidate σ) as [b σ1].
    rewrite IH. destruct (run ops1 c σ1) as [[c1 os1] σ2].
    by destruct (run ops2 c1 σ2) as [[c2 os2] σ3].
Qed.

Lemma fed_app (ops1 ops2 : list op) : fed (ops1 ++ ops2) = fed ops1 ++ fed ops2.
Proof.
  induction ops1 as [|[bs| |candidate] ops1 IH]; cbn [app fed]; [done| |done|done].
  by rewrite IH, app_assoc.
Qed.

Lemma fed_updates (chunks : list (list byte)) : fed (map Update chunks) = concat chunks.
Proof. induction chunks as [|bs chunks IH]; cbn [map fed concat]; by rewrite ?IH. Qed.

Lemma short_app_l (a b : list byte) : short (a ++ b) -> short a.
Proof. unfold short. rewrite length_app. lia. Qed.

(** Calls keep a context valid, never move or write r and s, and of the
    cells that exist they write the accumulator only. *)
Lemma run_frame (ops : list op) :
  forall (c c' : poly1305_ctx) (σ σ' : heap) (os : list out),
  run ops c σ = ((c', os), σ') -> valid c σ ->
  valid c' σ' /\ _r c' = _r c /\ _s c' = _s c /\ (length σ <= length σ')%nat
  /\ (forall l, (l < length σ)%nat -> l <> _h c -> σ' !!! l = σ !!! l).
Proof.
  induction ops as [|[bs| |candidate] ops IH]; intros c c' σ σ' os Hrun Hvalid.
  - injection Hrun as <- <- <-.
    split; [done|]. split; [done|]. split; [done|]. split; [lia|done].
  - rewrite run_update in Hrun.
    destruct (update c (bA.fromBytes bs) σ) as [c1 σ1] eqn:Hup.
    destruct (update_frame _ _ _ _ _ Hup Hvalid) as (Hv1 & Hr1 & Hs1 & Hle1 & Hold1).
    pose proof (update_acc _ _ _ _ _ Hup Hvalid) as Hacc.
    destruct (IH _ _ _ _ _ Hrun Hv1) as (Hv' & Hr' & Hs' & Hle' & Hold').
    split; [done|]. split; [congruence|]. split; [congruence|]. split; [lia|].
    intros l Hl Hne. rewrite Hold' by lia. by apply Hold1.
  - rewrite run_finalize in Hrun. destruct (finalize c σ) as [t σ1] eqn:Hfin.
    destruct (finalize_spec _ _ _ _ Hfin Hvalid) as (_ & Hle1 & Hold1).
    destruct (valid_frame _ _ _ Hvalid Hle1 Hold1) as (Hv1 & _).
    destruct (run ops c σ1) as [[c1 os1] σ2] eqn:Hrest. injection Hrun as <- <- <-.
    destruct (IH _ _ _ _ _ Hrest Hv1) as (Hv' & Hr' & Hs' & Hle' & Hold').
    split; [done|]. split; [done|]. split; [done|]. split; [lia|].
    intros l Hl Hne. rewrite Hold' by lia. by apply Hold1.
  - rewrite run_verify in Hrun. destruct (verify c candidate σ) as [b σ1] eqn:Hver.
    destruct (verify_spec _ _ _ _ _ Hver Hvalid) as (_ & Hle1 & Hold1).
    destruct (valid_frame _ _ _ Hvalid Hle1 Hold1) as (Hv1 & _).
    destruct (run ops c σ1) as [[c1 os1] σ2] eqn:Hrest. injection Hrun as <- <- <-.
    destruct (IH _ _ _ _ _ Hrest Hv1) as (Hv' & Hr' & Hs' & Hle' & Hold').
    split; [done|]. split; [done|]. split; [done|]. split; [lia|].
    intros l Hl Hne. rewrite Hold' by lia. by apply Hold1.
Qed.

(** After any calls a context holds the contents of the bytes it was fed,
    and every [finalize] and [verify] saw the tag of the bytes fed until then. *)
Lemma run_contents (r s : list Z) (ops : list op) :
  forall (m : list byte) (c c' : poly1305_ctx) (σ σ' : heap) (os : list out),
  run ops c σ = ((c', os), σ') -> valid c σ ->
  contents_of c σ = contents_after r s m -> short (m ++ fed ops) ->
  contents_of c' σ' = contents_after r s (m ++ fed ops)
  /\ os = expected (fun m => tag (contents_after r s m)) m ops.
Proof.
  induction ops as [|[bs| |candidate] ops IH]; intros m c c' σ σ' os Hrun Hvalid Hc Hshort.
  - injection Hrun as <- <- <-. cbn [fed expected]. by rewrite app_nil_r.
  - rewrite run_update in Hrun. cbn [fed expected] in *. rewrite app_assoc in *.
    destruct (update c (bA.fromBytes bs) σ) as [c1 σ1] eqn:Hup.
    destruct (update_frame _ _ _ _ _ Hup Hvalid) as (Hv1 & _).
    apply (IH _ _ _ _ _ _ Hrun Hv1); [|done].
    apply (update_contents _ _ _ _ _ _ _ _ Hup Hvalid Hc). by apply short_app_l in Hshort.
  - rewrite run_finalize in Hrun. cbn [fed expected] in *.
    destruct (finalize c σ) as [t σ1] eqn:Hfin.
    destruct (finalize_spec _ _ _ _ Hfin Hvalid) as (-> & Hle1 & Hold1).
    destruct (valid_frame _ _ _ Hvalid Hle1 Hold1) as (Hv1 & Hc1).
    destruct (run ops c σ1) as [[c1 os1] σ2] eqn:Hrest. injection Hrun as <- <- <-.
    rewrite <- Hc1 in Hc.
    destruct (IH _ _ _ _ _ _ Hrest Hv1 Hc Hshort) as (Hc' & ->).
    split; [done|]. by rewrite <- Hc1, Hc.
  - rewrite run_verify in Hrun. cbn [fed expected] in *.
    destruct (verify c candidate σ) as [b σ1] eqn:Hver.
    destruct (verify_spec _ _ _ _ _ Hver Hvalid) as (-> & Hle1 & Hold1).
    destruct (valid_frame _ _ _ Hvalid Hle1 Hold1) as (Hv1 & Hc1).
    destruct (run ops c σ1) as [[c1 os1] σ2] eqn:Hrest. injection Hrun as <- <- <-.
    rewrite <- Hc1 in Hc.
    destruct (IH _ _ _ _ _ _ Hrest Hv1 Hc Hshort) as (Hc' & ->).
    split; [done|]. by rewrite <- Hc1, Hc.
Qed.

Lemma tag_after_contents (r s : list Z) (c : poly1305_ctx) (σ : heap) (m : list byte) :
  valid c σ -> contents_of c σ = contents_after r s [] -> short m ->
  tag_after c σ m = tag (contents_after r s m).
Proof.
  intros Hvalid Hc Hshort. unfold tag_after.
  destruct (update c (bA.fromBytes m) σ) as [c1 σ1] eqn:Hup.
  destruct (update_frame _ _ _ _ _ Hup Hvalid) as (Hv1 & _).
  pose proof (update_contents _ _ _ _ _ _ _ _ Hup Hvalid Hc Hshort) as Hc1.
  destruct (finalize c1 σ1) as [t σ2] eqn:Hfin.
  destruct (finalize_spec _ _ _ _ Hfin Hv1) as (-> & _). by rewrite Hc1.
Qed.

Lemma expected_ext (f g : list byte -> list Z) (ops : list op) :
  forall m, (forall m', short m' -> f m' = g m') -> short (m ++ fed ops) ->
  expected f m ops = expected g m ops.
Proof.
  induction ops as [|[bs| |candidate] ops IH]; intros m Hfg Hshort; cbn [expected fed] in *.
  - reflexivity.
  - apply IH; [done|]. by rewrite <- app_assoc.
  - rewrite Hfg by (by apply short_app_l in Hshort). f_equal. by apply IH.
  - rewrite Hfg by (by apply short_app_l in Hshort). f_equal. by apply IH.
Qed.

(** What is known of every reachable context. *)
Lemma reachable_contents (ops : list op) (c : poly1305_ctx) (σ : heap) :
  reachable_by ops c σ -> short (fed ops) ->
  valid c σ /\ contents_of c σ = contents_after (σ !!! _r c) (σ !!! _s c) (fed ops).
Proof.
  intros (key & σi & c0 & σ0 & os & Hnew & Hrun) Hshort.
  destruct (poly1305_new_contents _ _ _ _ Hnew) as (Hv0 & Hc0).
  destruct (run_frame _ _ _ _ _ _ Hrun Hv0) as (Hv & Hr & Hs & _ & Hold).
  destruct (run_contents _ _ _ [] _ _ _ _ _ Hrun Hv0 Hc0 Hshort) as (Hc & _).
  split; [done|]. cbn [app] in Hc. rewrite Hc. cbn [contents_after c_r c_s].
  destruct Hv0 as (Hr0 & Hs0 & Hh0 & Hhr0 & Hhs0 & _).
  rewrite Hr, Hs, !Hold by lia. reflexivity.
Qed.

Lemma pending_contents (c : poly1305_ctx) (σ : heap) (r s : list Z) (m : list byte) :
  contents_of c σ = contents_after r s m -> pending c σ = tail_bytes m.
Proof.
  intros [= _ _ _ Hb]. unfold pending.
  destruct (_buffer c) as [b|]; cbn [fmap option_fmap option_map] in Hb; symmetry in Hb.
  - apply buffer_of_Some in Hb as [-> _]. apply toBytes_fromBytes.
  - by apply buffer_of_None in Hb.
Qed.

(* ================================================================== *)
(** * The numbers of the accumulator and of the tag *)
(* ================================================================== *)

(** A step sees the accumulator as a field element: any representative
    gives the same result. *)
Lemma step_mod_l (r h c : Z) : step r (h mod p1305.modulus) c = step r h c.
Proof. unfold step. by rewrite Z.add_mod_idemp_l. Qed.

Lemma fold_step_mod_l {A} (r : Z) (f : A -> Z) (l : list A) (h : Z) :
  fold_left (fun h x => step r h (f x)) l (h mod p1305.modulus) mod p1305.modulus
  = fold_left (fun h x => step r h (f x)) l h mod p1305.modulus.
Proof.
  destruct l as [|x l]; cbn [fold_left]; [by rewrite Z.mod_mod|].
  by rewrite step_mod_l.
Qed.

Lemma value_fold_absorb (r : list Z) (blocks : list (list byte)) :
  Forall (fun blk => length blk = 16%nat) blocks ->
  forall h,
  bn.value (fold_left (absorb_limbs r) blocks h) mod p1305.modulus
  = fold_left (fun h blk => step (bn.value r) h (le_value blk + 2 ^ 128)) blocks (bn.value h)
    mod p1305.modulus.
Proof.
  induction 1 as [|blk blocks Hblk _ IH]; intros h; [reflexivity|].
  cbn [fold_left]. rewrite IH, <- fold_step_mod_l, value_absorb_limbs by done.
  unfold absorb, block_value. rewrite Hblk. reflexivity.
Qed.

(** The marker of a partial block of [n] bytes, as lines 105-106 place it. *)
Lemma partial_marker (n : nat) :
  (0 < n < 16)%nat ->
  JS.shl 1 (8 * Z.of_nat n mod bn.radix) * 2 ^ (bn.radix * (8 * Z.of_nat n / bn.radix))
  = 2 ^ (8 * Z.of_nat n)
  /\ 0 <= 8 * Z.of_nat n / bn.radix
     <= Z.of_nat (Z.to_nat (Z.max 1 ((32 * Z.of_nat ((n + 3) / 4) + bn.radix - 1) / bn.radix))).
Proof.
  intros Hn.
  do 16 (destruct n as [|n]; [try lia; vm_compute; repeat split; discriminate|]).
  lia.
Qed.

(** Lines 102-108 on the pending bytes: their number with the marker bit at
    position 8 * length is added, and the sum is multiplied by r modulo p. *)
Lemma value_folded_partial (k : contents) (rest : list byte) :
  c_buffer k = Some (bA.fromBytes rest) -> (0 < length rest < 16)%nat ->
  bn.value (folded k) mod p1305.modulus
  = step (bn.value (c_r k)) (bn.value (c_h k))
         (le_value rest + 2 ^ (8 * Z.of_nat (length rest))).
Proof.
  intros Hb Hlen. unfold folded. rewrite Hb. cbv zeta. unfold add_block_limbs.
  assert (Hw : (length (bA.fromBytes rest) <= 4)%nat).
  { rewrite length_fromBytes.
    assert ((length rest + 3) / 4 < 5)%nat; [|lia].
    apply Nat.Div0.div_lt_upper_bound. lia. }
  rewrite slice_short by done.
  destruct (fromBits_rev_byteswap (bA.fromBytes rest)) as [Hv Hl].
  rewrite length_fromBytes in Hl.
  destruct (partial_marker (length rest) Hlen) as [Hmark Hndx].
  rewrite bitLength_fromBytes.
  rewrite value_mul, value_cnormalize, value_addM, value_marked by (by rewrite Hl).
  rewrite Hv, le_words_byteswap, Hmark. unfold step.
  rewrite Z.mul_mod_idemp_l by done. repeat (f_equal; try lia).
Qed.

(** Lines 110-112: the canonical representative of the accumulator,
    truncated to 128 bits, plus s modulo 2^128, in little-endian bytes. *)
Lemma tag_of_value (h s : list Z) :
  tag_of h s
  = bA.fromBytes
      (le_bytes 16 (((bn.value h mod p1305.modulus) mod 2 ^ 128 + bn.value s) mod 2 ^ 128)).
Proof.
  unfold tag_of, bn.toBits. change (Z.to_nat (128 / 32)) with 4%nat.
  rewrite rev_byteswap_be_words. change (4 * 4)%nat with 16%nat.
  rewrite value_addM, value_fullReduce.
  rewrite Zplus_mod_idemp_l. reflexivity.
Qed.

Lemma tag_of_bytes (h s : list Z) :
  length (bA.toBytes (tag_of h s)) = 16%nat /\ bA.bitLength (tag_of h s) = 128.
Proof.
  rewrite tag_of_value, toBytes_fromBytes, bitLength_fromBytes, length_le_bytes. done.
Qed.

(* ================================================================== *)
(** * The clamp *)
(* ================================================================== *)

Lemma length_8_inv (k : list Z) :
  length k = 8%nat ->
  exists k0 k1 k2 k3 k4 k5 k6 k7, k = [k0; k1; k2; k3; k4; k5; k6; k7].
Proof.
  intros H. do 8 (destruct k as [|? k]; [discriminate|]).
  destruct k; [|discriminate]. by repeat eexists.
Qed.

Lemma clamped_8 (k0 k1 k2 k3 k4 k5 k6 k7 : Z) :
  clamped [k0; k1; k2; k3; k4; k5; k6; k7]
  = [JS.and k0 (JS.not 0xf0); JS.and k1 (JS.not 0x30000f0);
     JS.and k2 (JS.not 0x30000f0); JS.and k3 (JS.not 0x30000f0); k4; k5; k6; k7].
Proof. reflexivity. Qed.

Lemma uint32_bytes (u : Z) :
  0 <= u < 2 ^ 32 ->
  exists b c,
    0 <= u / 2 ^ 24 < 256 /\ 0 <= b < 256 /\ 0 <= c < 256 /\ 0 <= u mod 2 ^ 8 < 256
    /\ u = u / 2 ^ 24 * 2 ^ 24 + b * 2 ^ 16 + c * 2 ^ 8 + u mod 2 ^ 8.
Proof.
  intros Hu.
  exists ((u / 2 ^ 16) mod 2 ^ 8), ((u / 2 ^ 8) mod 2 ^ 8).
  pose proof (Z.div_mod u (2 ^ 8) ltac:(lia)).
  pose proof (Z.mod_pos_bound u (2 ^ 8) ltac:(lia)).
  pose proof (Z.div_mod (u / 2 ^ 8) (2 ^ 8) ltac:(lia)).
  pose proof (Z.mod_pos_bound (u / 2 ^ 8) (2 ^ 8) ltac:(lia)).
  pose proof (Z.div_mod (u / 2 ^ 8 / 2 ^ 8) (2 ^ 8) ltac:(lia)).
  pose proof (Z.mod_pos_bound (u / 2 ^ 8 / 2 ^ 8) (2 ^ 8) ltac:(lia)).
  assert (E16 : u / 2 ^ 8 / 2 ^ 8 = u / 2 ^ 16) by (rewrite Z.div_div by lia; reflexivity).
  assert (E24 : u / 2 ^ 16 / 2 ^ 8 = u / 2 ^ 24) by (rewrite Z.div_div by lia; reflexivity).
  rewrite E16 in *. rewrite E24 in *.
  assert (0 <= u / 2 ^ 24 < 256).
  { split; [apply Z.div_pos; lia | apply Z.div_lt_upper_bound; lia]. }
  repeat split; try lia.
Qed.

(** The unsigned value of [x & m] is the bitwise and of the unsigned values. *)
Lemma toUint32_and (x m : Z) :
  JS.toUint32 (JS.and x m) = Z.land (JS.toUint32 x) (JS.toUint32 m).
Proof.
  rewrite <- (toUint32_toInt32 x), <- (toUint32_toInt32 m).
  unfold JS.and, JS.toUint32. rewrite <- !Z.land_ones by lia.
  apply Z.bits_inj'. intros n Hn. rewrite !Z.land_spec.
  destruct (Z.testbit (JS.toInt32 x) n), (Z.testbit (JS.toInt32 m) n),
    (Z.testbit (Z.ones 32) n); reflexivity.
Qed.

Lemma clamp_low_nibble (k m : Z) :
  Z.land (JS.toUint32 m) 255 = 15 ->
  JS.toUint32 (JS.and k m) mod 2 ^ 8 < 16.
Proof.
  intros Hm. rewrite toUint32_and.
  rewrite <- (Z.land_ones _ 8) by lia. change (Z.ones 8) with 255.
  rewrite <- Z.land_assoc, Hm. change 15 with (Z.ones 4).
  rewrite Z.land_ones by lia.
  pose proof (Z.mod_pos_bound (JS.toUint32 k) (2 ^ 4) ltac:(lia)). lia.
Qed.

Lemma clamp_high_bits (k m : Z) :
  Z.land (Z.shiftr (JS.toUint32 m) 24) 3 = 0 ->
  (JS.toUint32 (JS.and k m) / 2 ^ 24) mod 4 = 0.
Proof.
  intros Hm. rewrite toUint32_and.
  rewrite <- Z.shiftr_div_pow2 by lia. change 4 with (2 ^ 2).
  rewrite <- (Z.land_ones _ 2) by lia. change (Z.ones 2) with 3.
  rewrite Z.shiftr_land, <- Z.land_assoc, Hm. apply Z.land_0_r.
Qed.

(** The byte-swapped first key word after [key[0] &= ~0xf0]. *)
Lemma clamp_word0 (k : Z) :
  0 <= JS.toUint32 (byteswap_word (JS.and k (JS.not 0xf0))) < 2 ^ 28.
Proof.
  set (u := JS.toUint32 (JS.and k (JS.not 0xf0))).
  destruct (uint32_bytes u (toUint32_range _)) as (b & c & Ha & Hb & Hc & Hd & Hu).
  pose proof (clamp_low_nibble k (JS.not 0xf0) eq_refl) as Hlow. fold u in Hlow.
  rewrite (byteswap_word_bytes _ (u / 2 ^ 24) b c (u mod 2 ^ 8)) by (try lia; exact Hu).
  rewrite toUint32_toInt32, toUint32_small by lia. lia.
Qed.

(** The byte-swapped key words 1 to 3 after [key[i] &= ~0x30000f0]. *)
Lemma clamp_word1 (k : Z) :
  0 <= JS.toUint32 (byteswap_word (JS.and k (JS.not 0x30000f0))) < 2 ^ 28
  /\ JS.toUint32 (byteswap_word (JS.and k (JS.not 0x30000f0))) mod 4 = 0.
Proof.
  set (u := JS.toUint32 (JS.and k (JS.not 0x30000f0))).
  destruct (uint32_bytes u (toUint32_range _)) as (b & c & Ha & Hb & Hc & Hd & Hu).
  pose proof (clamp_low_nibble k (JS.not 0x30000f0) eq_refl) as Hlow. fold u in Hlow.
  pose proof (clamp_high_bits k (JS.not 0x30000f0) eq_refl) as Hhigh. fold u in Hhigh.
  rewrite (byteswap_word_bytes _ (u / 2 ^ 24) b c (u mod 2 ^ 8)) by (try lia; exact Hu).
  rewrite toUint32_toInt32, toUint32_small by lia. split; [lia|].
  rewrite (mod_pow2_eq _ (u mod 2 ^ 8 * 2 ^ 22 + c * 2 ^ 14 + b * 2 ^ 6 + u / 2 ^ 24 / 4) 0 2);
    [reflexivity | lia |].
  pose proof (Z.div_mod (u / 2 ^ 24) 4 ltac:(lia)). lia.
Qed.

Lemma le_word_words (u0 u1 u2 u3 : Z) :
  0 <= u0 < 2 ^ 32 -> 0 <= u1 < 2 ^ 32 -> 0 <= u2 < 2 ^ 32 -> 0 <= u3 < 2 ^ 32 ->
  let v := u0 + 2 ^ 32 * (u1 + 2 ^ 32 * (u2 + 2 ^ 32 * (u3 + 2 ^ 32 * 0))) in
  0 <= v < 2 ^ 128
  /\ le_word v 0 = u0 /\ le_word v 1 = u1 /\ le_word v 2 = u2 /\ le_word v 3 = u3.
Proof.
  intros H0 H1 H2 H3 v. subst v. unfold le_word.
  change (2 ^ (32 * 0)) with 1. change (32 * 1) with 32.
  change (32 * 2) with 64. change (32 * 3) with 96.
  split; [lia|]. rewrite Z.div_1_r.
  split. { apply (mod_pow2_eq _ (u1 + 2 ^ 32 * (u2 + 2 ^ 32 * u3))); lia. }
  split. { rewrite (div_pow2_eq _ (u1 + 2 ^ 32 * (u2 + 2 ^ 32 * u3)) u0) by lia.
           apply (mod_pow2_eq _ (u2 + 2 ^ 32 * u3)); lia. }
  split. { rewrite (div_pow2_eq _ (u2 + 2 ^ 32 * u3) (u0 + 2 ^ 32 * u1)) by lia.
           apply (mod_pow2_eq _ u3); lia. }
  rewrite (div_pow2_eq _ u3 (u0 + 2 ^ 32 * (u1 + 2 ^ 32 * u2))) by lia.
  apply Z.mod_small. lia.
Qed.

(** The number of the first four words of a clamped key. *)
Lemma clamped_r (k : list Z) :
  length k = 8%nat ->
  clamped_number (bn.value (bn.fromBits (rev (byteswap (JS.slice (clamped k) 0 (0 + 4)))))).
Proof.
  intros Hlen.
  destruct (length_8_inv k Hlen) as (k0 & k1 & k2 & k3 & k4 & k5 & k6 & k7 & ->).
  rewrite clamped_8.
  change (JS.slice [JS.and k0 (JS.not 240); JS.and k1 (JS.not 50331888);
                    JS.and k2 (JS.not 50331888); JS.and k3 (JS.not 50331888);
                    k4; k5; k6; k7] 0 (0 + 4))
    with [JS.and k0 (JS.not 240); JS.and k1 (JS.not 50331888);
          JS.and k2 (JS.not 50331888); JS.and k3 (JS.not 50331888)].
  destruct (fromBits_rev_byteswap [JS.and k0 (JS.not 240); JS.and k1 (JS.not 50331888);
                                   JS.and k2 (JS.not 50331888); JS.and k3 (JS.not 50331888)])
    as [-> _].
  cbn [byteswap map le_words].
  pose proof (clamp_word0 k0) as H0.
  destruct (clamp_word1 k1) as [H1 H1'].
  destruct (clamp_word1 k2) as [H2 H2'].
  destruct (clamp_word1 k3) as [H3 H3'].
  set (u0 := JS.toUint32 (byteswap_word (JS.and k0 (JS.not 240)))) in *.
  set (u1 := JS.toUint32 (byteswap_word (JS.and k1 (JS.not 50331888)))) in *.
  set (u2 := JS.toUint32 (byteswap_word (JS.and k2 (JS.not 50331888)))) in *.
  set (u3 := JS.toUint32 (byteswap_word (JS.and k3 (JS.not 50331888)))) in *.
  destruct (le_word_words u0 u1 u2 u3) as (Hv & E0 & E1 & E2 & E3); try lia.
  split; [exact Hv|]. split; [rewrite E0; lia|].
  intros i Hi. assert (i = 1 \/ i = 2 \/ i = 3) as [-> | [-> | ->]] by lia;
    rewrite ?E1, ?E2, ?E3; lia.
Qed.

(* ================================================================== *)
(** * Properties of core/poly1305.js *)
(* ================================================================== *)

(** ** Chunking *)

(** C1.  For every message and every way of cutting it into consecutive
    byte-aligned chunks, feeding the chunks with one [update] each leaves a
    context with the same contents (r, s, accumulator limbs and pending
    buffer), and hence the same [finalize] tag, as feeding the whole message
    with a single [update].  The context is any one reached from a successful
    constructor call by earlier calls [pre]; messages are shorter than 2^33
    bytes. *)
Theorem update_chunking (key : loc) (σ σ0 : heap) (c0 : poly1305_ctx)
    (pre : list op) (chunks : list (list byte)) :
  poly1305_new key σ = (inr c0, σ0) ->
  short (fed pre ++ concat chunks) ->
  let '((c1, _), σ1) := run (pre ++ map Update chunks) c0 σ0 in
  let '((c2, _), σ2) := run (pre ++ [Update (concat chunks)]) c0 σ0 in
  contents_of c1 σ1 = contents_of c2 σ2
  /\ fst (finalize c1 σ1) = fst (finalize c2 σ2).
Proof.
  intros Hnew Hshort.
  destruct (poly1305_new_contents _ _ _ _ Hnew) as (Hv0 & Hc0).
  destruct (run (pre ++ map Update chunks) c0 σ0) as [[c1 os1] σ1] eqn:Hrun1.
  destruct (run (pre ++ [Update (concat chunks)]) c0 σ0) as [[c2 os2] σ2] eqn:Hrun2.
  destruct (run_frame _ _ _ _ _ _ Hrun1 Hv0) as (Hv1 & _).
  destruct (run_frame _ _ _ _ _ _ Hrun2 Hv0) as (Hv2 & _).
  assert (Hfed1 : fed (pre ++ map Update chunks) = fed pre ++ concat chunks)
    by (by rewrite fed_app, fed_updates).
  assert (Hfed2 : fed (pre ++ [Update (concat chunks)]) = fed pre ++ concat chunks)
    by (rewrite fed_app; cbn [fed]; by rewrite app_nil_r).
  destruct (run_contents _ _ _ [] _ _ _ _ _ Hrun1 Hv0 Hc0) as (Hc1 & _);
    [by rewrite Hfed1|].
  destruct (run_contents _ _ _ [] _ _ _ _ _ Hrun2 Hv0 Hc0) as (Hc2 & _);
    [by rewrite Hfed2|].
  rewrite Hfed1 in Hc1. rewrite Hfed2 in Hc2.
  assert (Hc : contents_of c1 σ1 = contents_of c2 σ2) by congruence.
  split; [exact Hc|].
  destruct (finalize c1 σ1) as [t1 σ1'] eqn:Hfin1.
  destruct (finalize c2 σ2) as [t2 σ2'] eqn:Hfin2.
  destruct (finalize_spec _ _ _ _ Hfin1 Hv1) as (-> & _).
  destruct (finalize_spec _ _ _ _ Hfin2 Hv2) as (-> & _).
  cbn [fst]. by rewrite Hc.
Qed.

(** ** Full blocks *)

(** C2.  [update] on a reachable context consumes the full 16-byte blocks of
    the pending bytes followed by the new bytes, in order.  Each block is read
    as a little-endian number, 2^128 is added to it, and the accumulator goes
    from h to ((h + c) mod p) * r mod p ([step]): addition first, then the
    multiplication, with p = 2^130 - 5.  The accumulator is a field element:
    its limbs hold whichever representative the multiplication returns, and
    the equation is between the residues modulo p of the old and the new
    accumulator.  The bytes after the last full block become the new pending
    bytes. *)
Theorem update_absorbs_blocks (ops : list op) (c : poly1305_ctx) (σ : heap)
    (bs : list byte) :
  reachable_by ops c σ ->
  short (fed ops ++ bs) ->
  let '(c', σ') := update c (bA.fromBytes bs) σ in
  Forall (fun blk => length blk = 16%nat) (full_blocks (pending c σ ++ bs))
  /\ bn.value (σ' !!! _h c') mod p1305.modulus
     = fold_left (fun h blk => step (bn.value (σ !!! _r c)) h (le_value blk + 2 ^ 128))
         (full_blocks (pending c σ ++ bs)) (bn.value (σ !!! _h c) mod p1305.modulus)
       mod p1305.modulus
  /\ pending c' σ' = tail_bytes (pending c σ ++ bs).
Proof.
  intros Hreach Hshort.
  destruct (reachable_contents _ _ _ Hreach (short_app_l _ _ Hshort)) as (Hv & Hc).
  destruct (update c (bA.fromBytes bs) σ) as [c' σ'] eqn:Hup.
  pose proof (update_contents _ _ _ _ _ _ _ _ Hup Hv Hc Hshort) as Hc'.
  rewrite (pending_contents _ _ _ _ _ Hc), (pending_contents _ _ _ _ _ Hc').
  split; [apply full_blocks_length|]. split; [|apply tail_bytes_app].
  pose proof (f_equal c_h Hc) as Hh. pose proof (f_equal c_h Hc') as Hh'.
  cbn [c_h contents_of contents_after] in Hh, Hh'.
  rewrite Hh', full_blocks_app, fold_left_app, <- Hh.
  rewrite fold_step_mod_l. apply value_fold_absorb, full_blocks_length.
Qed.

(** ** The pending bytes in [finalize] *)

(** C3.  The first half of [finalize] works on a copy of the accumulator:
    the result is a new object, and every object that existed before, the
    accumulator of the context among them, has the limbs it had.  With L
    pending bytes, 1 <= L <= 15, they are read as a little-endian number,
    2^(8 L) is added, and the copy goes through the same step as for a full
    block (the result is the residue modulo p of the new object, whichever
    representative the multiplication returns).  Without pending bytes the
    copy is left as it is: no empty block is folded. *)
Theorem finalize_folds_pending (ops : list op) (c : poly1305_ctx) (σ : heap) :
  reachable_by ops c σ ->
  short (fed ops) ->
  let '(h, σ') := finalize_fold c σ in
  let rest := pending c σ in
  (length rest < 16)%nat
  /\ (length σ <= h)%nat
  /\ h <> _h c
  /\ σ' !!! _h c = σ !!! _h c
  /\ (forall l, (l < length σ)%nat -> σ' !!! l = σ !!! l)
  /\ (rest = [] -> σ' !!! h = σ !!! _h c)
  /\ (rest <> [] ->
      bn.value (σ' !!! h) mod p1305.modulus
      = step (bn.value (σ !!! _r c)) (bn.value (σ !!! _h c))
             (le_value rest + 2 ^ (8 * Z.of_nat (length rest)))).
Proof.
  intros Hreach Hshort.
  destruct (reachable_contents _ _ _ Hreach Hshort) as (Hv & Hc).
  destruct (finalize_fold c σ) as [h σ'] eqn:Hfold. cbv zeta.
  destruct (finalize_fold_spec _ _ _ _ Hfold Hv) as (Hh & Hval & Hold).
  rewrite (pending_contents _ _ _ _ _ Hc).
  pose proof (length_tail_bytes (fed ops)) as Hlen.
  destruct Hv as (_ & _ & Hhc & _).
  split; [exact Hlen|]. split; [lia|]. split; [lia|].
  split; [by apply Hold|]. split; [exact Hold|].
  rewrite Hval. split.
  - intros Hrest. unfold folded. rewrite Hc. cbn [contents_after c_buffer c_h].
    rewrite Hrest. cbn [buffer_of].
    pose proof (f_equal c_h Hc) as Hch. cbn [c_h contents_of contents_after] in Hch.
    by rewrite Hch.
  - intros Hrest. rewrite (value_folded_partial _ (tail_bytes (fed ops))).
    + reflexivity.
    + rewrite Hc. cbn [contents_after c_buffer].
      by destruct (tail_bytes (fed ops)).
    + destruct (tail_bytes (fed ops)); [done|]. cbn [length] in *. lia.
Qed.

(** ** The tag *)

Lemma finalize_reduces (c : poly1305_ctx) (σ σ2 σ' : heap) (h : loc) (t : list Z) :
  finalize_fold c σ = (h, σ2) -> finalize c σ = (t, σ') -> valid c σ ->
  σ' !!! h = p1305.fullReduce (σ2 !!! h).
Proof.
  intros Hfold Hfin Hvalid. rewrite finalize_eq, Hfold in Hfin. cbv zeta in Hfin.
  destruct (finalize_fold_spec _ _ _ _ Hfold Hvalid) as (Hh & _).
  apply pair_equal_spec in Hfin as [_ <-]. by heap_simpl.
Qed.

(** C4.  After the pending bytes are folded, [finalize] reduces the
    accumulator in place to its canonical representative in [0, p), takes
    that value modulo 2^128, adds s modulo 2^128 and returns the sum as 16
    little-endian bytes (four words, 128 bits), whatever was fed before and
    whichever representative the multiplication had left in the folded
    accumulator. *)
Theorem finalize_tag (ops : list op) (c : poly1305_ctx) (σ : heap) :
  reachable_by ops c σ ->
  short (fed ops) ->
  let '(h, σ2) := finalize_fold c σ in
  let '(t, σ') := finalize c σ in
  let s := bn.value (σ !!! _s c) in
  bn.value (σ' !!! h) = bn.value (σ2 !!! h) mod p1305.modulus
  /\ 0 <= bn.value (σ' !!! h) < p1305.modulus
  /\ t = bA.fromBytes (le_bytes 16 ((bn.value (σ' !!! h) mod 2 ^ 128 + s) mod 2 ^ 128))
  /\ length (bA.toBytes t) = 16%nat
  /\ bA.bitLength t = 128.
Proof.
  intros Hreach Hshort.
  destruct (reachable_contents _ _ _ Hreach Hshort) as (Hv & Hc).
  destruct (finalize_fold c σ) as [h σ2] eqn:Hfold.
  destruct (finalize c σ) as [t σ'] eqn:Hfin. cbv zeta.
  rewrite (finalize_reduces _ _ _ _ _ _ Hfold Hfin Hv), value_fullReduce.
  destruct (finalize_fold_spec _ _ _ _ Hfold Hv) as (_ & Hval & _).
  destruct (finalize_spec _ _ _ _ Hfin Hv) as (-> & _).
  unfold tag. rewrite <- Hval.
  split; [reflexivity|]. split; [by apply Z.mod_pos_bound|].
  split; [apply tag_of_value|]. apply tag_of_bytes.
Qed.

(** ** [finalize] and [verify] do not change the context *)

(** C5.  [finalize] and [verify] leave every cell that exists as it is, so
    the contents of the context (accumulator and pending buffer included) are
    the same after the call.  In any sequence of [update], [finalize] and
    [verify] calls on a new context, each [finalize] returns, and each
    [verify] compares with, the tag of the bytes fed so far, as one [update]
    with all of them followed by [finalize] computes it. *)
Theorem finalize_is_projection (key : loc) (σ σ0 : heap) (c0 : poly1305_ctx)
    (ops : list op) :
  poly1305_new key σ = (inr c0, σ0) ->
  short (fed ops) ->
  let '((c, os), σ1) := run ops c0 σ0 in
  os = expected (tag_after c0 σ0) [] ops
  /\ (let '(_, σ2) := finalize c σ1 in
      contents_of c σ2 = contents_of c σ1
      /\ forall l, (l < length σ1)%nat -> σ2 !!! l = σ1 !!! l)
  /\ (forall candidate,
      let '(_, σ2) := verify c candidate σ1 in
      contents_of c σ2 = contents_of c σ1
      /\ forall l, (l < length σ1)%nat -> σ2 !!! l = σ1 !!! l).
Proof.
  intros Hnew Hshort.
  destruct (poly1305_new_contents _ _ _ _ Hnew) as (Hv0 & Hc0).
  destruct (run ops c0 σ0) as [[c os] σ1] eqn:Hrun.
  destruct (run_frame _ _ _ _ _ _ Hrun Hv0) as (Hv & _).
  destruct (run_contents _ _ _ [] _ _ _ _ _ Hrun Hv0 Hc0 Hshort) as (_ & ->).
  split; [|split].
  - apply expected_ext; [|done]. intros m Hm. symmetry.
    by apply tag_after_contents.
  - destruct (finalize c σ1) as [t σ2] eqn:Hfin.
    destruct (finalize_spec _ _ _ _ Hfin Hv) as (_ & Hle & Hold).
    split; [|exact Hold]. by apply valid_frame.
  - intros candidate. destruct (verify c candidate σ1) as [b σ2] eqn:Hver.
    destruct (verify_spec _ _ _ _ _ Hver Hv) as (_ & Hle & Hold).
    split; [|exact Hold]. by apply valid_frame.
Qed.

(** ** The clamp of r *)

(** C6.  For every key the constructor accepts, the number r it derives has,
    in its four little-endian 32-bit words, the top four bits of every word
    zero and the two low bits of words 1 to 3 zero; no later call moves the
    object or changes its limbs. *)
Theorem r_clamped_and_fixed (key : loc) (σ σ0 : heap) (c0 : poly1305_ctx)
    (ops : list op) :
  poly1305_new key σ = (inr c0, σ0) ->
  clamped_number (bn.value (σ0 !!! _r c0))
  /\ let '((c, _), σ1) := run ops c0 σ0 in
     _r c = _r c0 /\ σ1 !!! _r c = σ0 !!! _r c0.
Proof.
  intros Hnew.
  destruct (poly1305_new_inv _ _ _ _ Hnew) as (Hlen & _ & _ & _ & _ & Hr & _).
  destruct (poly1305_new_contents _ _ _ _ Hnew) as (Hv0 & _).
  split; [rewrite Hr; by apply clamped_r|].
  destruct (run ops c0 σ0) as [[c os] σ1] eqn:Hrun.
  destruct (run_frame _ _ _ _ _ _ Hrun Hv0) as (_ & Hrc & _ & _ & Hold).
  destruct Hv0 as (Hr0 & _ & _ & Hhr & _).
  split; [exact Hrc|]. rewrite Hrc. apply Hold; [exact Hr0 | congruence].
Qed.

(** ** The size checks *)

Lemma poly1305aes_key_eq (aes : list Z -> list Z -> list Z) (r key nonce : loc) (σ : heap) :
  poly1305aes_key aes r key nonce σ =
  if negb (4 =? Z.of_nat (length (σ !!! key))) || negb (4 =? Z.of_nat (length (σ !!! nonce)))
  then (inl (invalid "invalid Poly1305-AES key/nonce size"), σ)
  else
    let σ1 := σ ++ [aes (σ !!! key) (σ !!! nonce)] in
    (inr (length σ1), σ1 ++ [σ1 !!! r ++ σ1 !!! length σ]).
Proof.
  cbv [poly1305aes_key bind load alloc ret].
  by destruct (negb (4 =? Z.of_nat (length (σ !!! key)))
               || negb (4 =? Z.of_nat (length (σ !!! nonce)))).
Qed.

Lemma poly1305aes_key_fail (aes : list Z -> list Z -> list Z) (r key nonce : loc) (σ : heap) :
  length (σ !!! key) <> 4%nat \/ length (σ !!! nonce) <> 4%nat ->
  poly1305aes_key aes r key nonce σ
  = (inl (invalid "invalid Poly1305-AES key/nonce size"), σ).
Proof.
  intros H. rewrite poly1305aes_key_eq.
  destruct (Z.eqb_spec 4 (Z.of_nat (length (σ !!! key))));
    destruct (Z.eqb_spec 4 (Z.of_nat (length (σ !!! nonce)))); try reflexivity.
  lia.
Qed.

Lemma length_fromBytes_8 (bs : list byte) :
  length (bA.fromBytes bs) = 8%nat <-> (29 <= length bs <= 32)%nat.
Proof.
  rewrite length_fromBytes.
  pose proof (Nat.div_mod_eq (length bs + 3) 4).
  pose proof (Nat.mod_upper_bound (length bs + 3) 4 ltac:(lia)). lia.
Qed.

(** C7, as the code has it.  The constructor checks the number of words of
    the key array, not its bit length: it throws "invalid Poly1305 key size"
    exactly when the array does not have eight words, before it writes
    anything (the heap is the one it was given), and otherwise it succeeds.
    A byte-aligned key has eight words exactly when it has 29 to 32 bytes.
    [poly1305aes], as a constructor or as a function, throws before anything
    is written when the cipher key or the nonce does not have four words. *)
Theorem key_size_check (aes : list Z -> list Z -> list Z) (key r ckey nonce : loc)
    (σ : heap) (data : loc) :
  (poly1305_new key σ = (inl (invalid "invalid Poly1305 key size"), σ)
   <-> length (σ !!! key) <> 8%nat)
  /\ ((exists c σ', poly1305_new key σ = (inr c, σ')) <-> length (σ !!! key) = 8%nat)
  /\ (forall bs, σ !!! key = bA.fromBytes bs ->
      length (σ !!! key) = 8%nat <-> (29 <= length bs <= 32)%nat)
  /\ (length (σ !!! ckey) <> 4%nat \/ length (σ !!! nonce) <> 4%nat ->
      poly1305aes_new aes r ckey nonce σ
      = (inl (invalid "invalid Poly1305-AES key/nonce size"), σ)
      /\ poly1305aes aes r ckey nonce data σ
         = (inl (invalid "invalid Poly1305-AES key/nonce size"), σ)).
Proof.
  split; [|split; [|split]].
  - split.
    + intros Hrun Hlen. destruct (poly1305_new_ok key σ Hlen) as [_ Hok]. congruence.
    + apply poly1305_new_fail.
  - split.
    + intros (c & σ' & Hrun). by destruct (poly1305_new_inv _ _ _ _ Hrun) as (Hlen & _).
    + intros Hlen. destruct (poly1305_new_ok key σ Hlen) as [_ Hok]. eauto.
  - intros bs ->. apply length_fromBytes_8.
  - intros Hbad. unfold poly1305aes_new, poly1305aes.
    rewrite !bind_eq, poly1305aes_key_fail by done. done.
Qed.

(** C7, the claim as it is stated fails: a key of 232 bits that fills eight
    words is accepted. *)
Lemma short_key_accepted :
  bA.bitLength (bA.fromBytes short_key) = 232
  /\ length (bA.fromBytes short_key) = 8%nat
  /\ exists c σ', poly1305_new 0%nat [bA.fromBytes short_key] = (inr c, σ').
Proof.
  split; [vm_compute; reflexivity|]. split; [vm_compute; reflexivity|].
  destruct (poly1305_new 0%nat [bA.fromBytes short_key]) as [[e|c] σ'] eqn:Hnew;
    [vm_compute in Hnew; discriminate|].
  by exists c, σ'.
Qed.

(** ** The empty message *)

Lemma slice_clamped (k : list Z) :
  length k = 8%nat -> JS.slice (clamped k) 4 (4 + 4) = JS.slice k 4 (4 + 4).
Proof.
  intros Hlen.
  destruct (length_8_inv k Hlen) as (k0 & k1 & k2 & k3 & k4 & k5 & k6 & k7 & ->).
  reflexivity.
Qed.

(** The number s is the little-endian number of the last four key words. *)
Lemma value_s (key : loc) (σ σ0 : heap) (c0 : poly1305_ctx) :
  poly1305_new key σ = (inr c0, σ0) ->
  bn.value (σ0 !!! _s c0) = le_words (byteswap (JS.slice (σ !!! key) 4 (4 + 4)))
  /\ 0 <= bn.value (σ0 !!! _s c0) < 2 ^ 128.
Proof.
  intros Hnew.
  destruct (poly1305_new_inv _ _ _ _ Hnew) as (Hlen & _ & _ & _ & _ & _ & Hs & _).
  rewrite Hs, slice_clamped by done.
  destruct (fromBits_rev_byteswap (JS.slice (σ !!! key) 4 (4 + 4))) as [-> _].
  split; [reflexivity|].
  pose proof (le_words_range (byteswap (JS.slice (σ !!! key) 4 (4 + 4)))) as Hr.
  rewrite length_byteswap in Hr.
  assert (Hl : length (JS.slice (σ !!! key) 4 (4 + 4)) = 4%nat).
  { unfold JS.slice. rewrite length_take, length_drop, Hlen. reflexivity. }
  rewrite Hl in Hr. exact Hr.
Qed.

(** C9.  When no byte was fed (no call, or calls that feed no bytes),
    [finalize] returns the 16 little-endian bytes of s, and s is the number
    of the last four key words alone: r has no part in the tag. *)
Theorem empty_message_tag (key : loc) (σ σ0 : heap) (c0 : poly1305_ctx) (ops : list op) :
  poly1305_new key σ = (inr c0, σ0) ->
  fed ops = [] ->
  let '((c, _), σ1) := run ops c0 σ0 in
  let s := bn.value (σ1 !!! _s c) in
  s = le_words (byteswap (JS.slice (σ !!! key) 4 (4 + 4)))
  /\ fst (finalize c σ1) = bA.fromBytes (le_bytes 16 s).
Proof.
  intros Hnew Hfed.
  destruct (poly1305_new_contents _ _ _ _ Hnew) as (Hv0 & Hc0).
  destruct (value_s _ _ _ _ Hnew) as (Hs & Hrange).
  destruct (run ops c0 σ0) as [[c os] σ1] eqn:Hrun. cbv zeta.
  destruct (run_frame _ _ _ _ _ _ Hrun Hv0) as (Hv & _ & Hsc & _ & Hold).
  assert (Hshort : short ([] ++ fed ops)) by (rewrite Hfed; vm_compute; reflexivity).
  destruct (run_contents _ _ _ [] _ _ _ _ _ Hrun Hv0 Hc0 Hshort) as (Hc & _).
  rewrite Hfed in Hc. cbn [app] in Hc.
  assert (Hs1 : σ1 !!! _s c = σ0 !!! _s c0).
  { destruct Hv0 as (_ & Hs0 & _ & _ & Hhs & _). rewrite Hsc. apply Hold; [done|congruence]. }
  rewrite Hs1. split; [exact Hs|].
  destruct (finalize c σ1) as [t σ2] eqn:Hfin.
  destruct (finalize_spec _ _ _ _ Hfin Hv) as (-> & _).
  cbn [fst]. rewrite Hc. unfold tag. cbn [contents_after c_s].
  rewrite tag_of_value. do 2 f_equal.
  change (bn.value (folded _)) with 0. change ((0 mod p1305.modulus) mod 2 ^ 128) with 0.
  apply Z.mod_small. lia.
Qed.

(** ** The key array *)

Lemma poly1305_new_frame (key : loc) (σ : heap) (l : loc) :
  (l < length σ)%nat -> l <> key -> snd (poly1305_new key σ) !!! l = σ !!! l.
Proof.
  intros Hl Hne. destruct (poly1305_new key σ) as [[e|c] σ'] eqn:Hnew.
  - destruct (Nat.eq_dec (length (σ !!! key)) 8%nat) as [Hlen|Hlen].
    + destruct (poly1305_new_ok key σ Hlen) as [_ Hok]. congruence.
    + rewrite poly1305_new_fail in Hnew by done. by injection Hnew as _ <-.
  - destruct (poly1305_new_inv _ _ _ _ Hnew) as (_ & _ & _ & _ & _ & _ & _ & _ & Hold).
    by apply Hold.
Qed.

(** The one-shot call, step by step: [update] reads the data array as the
    constructor has left it. *)
Lemma poly1305_eq (key data : loc) (σ : heap) :
  poly1305 key data σ =
  match poly1305_new key σ with
  | (inl e, σ0) => (inl e, σ0)
  | (inr c, σ0) =>
      let '(c1, σ1) := update c (σ0 !!! data) σ0 in
      let '(t, σ2) := finalize c1 σ1 in (inr t, σ2)
  end.
Proof.
  unfold poly1305. cbv [bind load ret].
  destruct (poly1305_new key σ) as [[e|c] σ0]; [reflexivity|].
  destruct (update c (σ0 !!! data) σ0) as [c1 σ1].
  by destruct (finalize c1 σ1).
Qed.

(** The one-shot call: the key array holds the clamped words afterwards. *)
Lemma poly1305_call_frame (key data : loc) (σ σ' : heap) (t : list Z) :
  poly1305 key data σ = (inr t, σ') ->
  σ' !!! key = clamped (σ !!! key)
  /\ forall l, (l < length σ)%nat -> l <> key -> σ' !!! l = σ !!! l.
Proof.
  intros Hrun. rewrite poly1305_eq in Hrun.
  destruct (poly1305_new key σ) as [[e|c] σ0] eqn:Hnew; [discriminate|].
  destruct (update c (σ0 !!! data) σ0) as [c1 σ1] eqn:Hup.
  destruct (finalize c1 σ1) as [t1 σ2] eqn:Hfin.
  apply pair_equal_spec in Hrun as [_ <-].
  destruct (poly1305_new_inv _ _ _ _ Hnew)
    as (_ & Hkey & Hc & Hlen0 & Hk & _ & _ & _ & Hold0).
  destruct (poly1305_new_contents _ _ _ _ Hnew) as (Hv0 & _).
  destruct (update_frame _ _ _ _ _ Hup Hv0) as (Hv1 & _ & _ & Hle1 & Hold1).
  destruct (finalize_spec _ _ _ _ Hfin Hv1) as (_ & _ & Hold2).
  assert (Hkeep : forall l, (l < length σ)%nat -> σ2 !!! l = σ0 !!! l).
  { intros l Hl. rewrite Hold2 by lia. apply Hold1; [lia|]. subst c. cbn [_h]. lia. }
  split; [by rewrite Hkeep|]. intros l Hl Hne. rewrite Hkeep by done. by apply Hold0.
Qed.

(** [poly1305aes] writes fresh cells only. *)
Lemma poly1305aes_new_frame (aes : list Z -> list Z -> list Z) (r ckey nonce : loc)
    (σ : heap) (l : loc) :
  (l < length σ)%nat -> snd (poly1305aes_new aes r ckey nonce σ) !!! l = σ !!! l.
Proof.
  intros Hl. unfold poly1305aes_new. rewrite bind_eq, poly1305aes_key_eq.
  destruct (negb _ || negb _); [reflexivity|]. cbv beta iota zeta.
  rewrite poly1305_new_frame by heap_len. by heap_simpl.
Qed.

Lemma poly1305aes_frame (aes : list Z -> list Z -> list Z) (r ckey nonce data : loc)
    (σ : heap) (l : loc) :
  (l < length σ)%nat -> snd (poly1305aes aes r ckey nonce data σ) !!! l = σ !!! l.
Proof.
  intros Hl. unfold poly1305aes. rewrite bind_eq, poly1305aes_key_eq.
  destruct (negb _ || negb _); [reflexivity|]. cbv beta iota zeta.
  match goal with |- snd (poly1305 ?k data ?s) !!! l = _ =>
    destruct (poly1305 k data s) as [[e|t] σ'] eqn:Hrun end.
  - rewrite poly1305_eq in Hrun.
    match type of Hrun with context [poly1305_new ?k ?s] =>
      pose proof (poly1305_new_frame k s l) as Hfr;
      destruct (poly1305_new k s) as [[e'|c] σ0] eqn:Hnew end.
    + apply pair_equal_spec in Hrun as [_ <-]. cbn [snd] in *.
      rewrite Hfr by heap_len. by heap_simpl.
    + destruct (update c (σ0 !!! data) σ0) as [c1 σ1].
      by destruct (finalize c1 σ1).
  - destruct (poly1305_call_frame _ _ _ _ _ Hrun) as (_ & Hold). cbn [snd].
    rewrite Hold by heap_len. by heap_simpl.
Qed.

(** C10, as the code has it.  The constructor clamps the array it is given
    in place, derives r from the clamped words and leaves every other cell
    as it is; after the one-shot call the caller's key array holds the
    clamped words as well.  [poly1305aes] hands the constructor the new array
    [r.concat(s)]: every cell that existed before the call, the caller's r,
    cipher key and nonce among them, is unchanged. *)
Theorem clamp_in_place (aes : list Z -> list Z -> list Z) (key r ckey nonce : loc)
    (σ : heap) (data : loc) :
  (forall c σ', poly1305_new key σ = (inr c, σ') ->
     σ' !!! key = clamped (σ !!! key)
     /\ σ' !!! _r c = bn.fromBits (rev (byteswap (JS.slice (σ' !!! key) 0 (0 + 4))))
     /\ forall l, (l < length σ)%nat -> l <> key -> σ' !!! l = σ !!! l)
  /\ (forall t σ', poly1305 key data σ = (inr t, σ') ->
        σ' !!! key = clamped (σ !!! key)
        /\ forall l, (l < length σ)%nat -> l <> key -> σ' !!! l = σ !!! l)
  /\ (forall l, (l < length σ)%nat ->
        snd (poly1305aes_new aes r ckey nonce σ) !!! l = σ !!! l)
  /\ (forall l, (l < length σ)%nat ->
        snd (poly1305aes aes r ckey nonce data σ) !!! l = σ !!! l).
Proof.
  split; [|split; [|split]].
  - intros c σ' Hnew.
    destruct (poly1305_new_inv _ _ _ _ Hnew) as (_ & _ & _ & _ & Hk & Hr & _ & _ & Hold).
    by rewrite Hk.
  - intros t σ'. apply poly1305_call_frame.
  - intros l. apply poly1305aes_new_frame.
  - intros l. apply poly1305aes_frame.
Qed.

(** C10, the claim as it is stated fails for [poly1305aes]: with an r whose
    words have every bit set (so that the clamp would change each of them),
    the caller's r array is the same after the call, whatever the cipher
    returns, and the call returns a context when the cipher returns four
    words. *)
Lemma poly1305aes_keeps_r :
  clamped [-1; -1; -1; -1] <> [-1; -1; -1; -1]
  /\ sample_aes_heap !!! 0%nat = [-1; -1; -1; -1]
  /\ forall aes : list Z -> list Z -> list Z,
       snd (poly1305aes_new aes 0%nat 1%nat 2%nat sample_aes_heap) !!! 0%nat
       = [-1; -1; -1; -1]
       /\ (length (aes (sample_aes_heap !!! 1%nat) (sample_aes_heap !!! 2%nat)) = 4%nat ->
           exists c, fst (poly1305aes_new aes 0%nat 1%nat 2%nat sample_aes_heap) = inr c).
Proof.
  split; [vm_compute; discriminate|]. split; [reflexivity|].
  intros aes. split.
  { rewrite poly1305aes_new_frame; [reflexivity | vm_compute; lia]. }
  intros Hlen. unfold poly1305aes_new. rewrite bind_eq, poly1305aes_key_eq.
  change (negb (4 =? Z.of_nat (length (sample_aes_heap !!! 1%nat)))
          || negb (4 =? Z.of_nat (length (sample_aes_heap !!! 2%nat)))) with false.
  cbv beta iota zeta.
  match goal with |- context [poly1305_new ?k ?s] =>
    destruct (poly1305_new_ok k s) as [_ ->] end; [|by eexists].
  rewrite heap_alloc_new by heap_len.
  rewrite length_app.
  rewrite (heap_alloc_old _ _ 0%nat) by (vm_compute; lia).
  rewrite (heap_alloc_new _ _ (length sample_aes_heap)) by done.
  rewrite Hlen. reflexivity.
Qed.

(* ================================================================== *)
(** * Further properties of core/poly1305.js *)
(* ================================================================== *)

(* ================================================================== *)
(** * The polynomial *)
(* ================================================================== *)

Lemma step_range (r h c : Z) : 0 <= step r h c < p1305.modulus.
Proof. apply Z.mod_pos_bound. done. Qed.

Lemma fold_step_range (r : Z) (cs : list Z) :
  forall h, 0 <= h < p1305.modulus -> 0 <= fold_left (step r) cs h < p1305.modulus.
Proof.
  induction cs as [|c cs IH]; intros h Hh; [done|].
  cbn [fold_left]. apply IH, step_range.
Qed.

Lemma mod_mul_add (a b c : Z) :
  (a mod p1305.modulus * b + c) mod p1305.modulus = (a * b + c) mod p1305.modulus.
Proof.
  rewrite <- Z.add_mod_idemp_l by done.
  rewrite Z.mul_mod_idemp_l by done.
  by rewrite Z.add_mod_idemp_l by done.
Qed.

(** Horner's rule: the steps of the accumulator evaluate the polynomial. *)
Lemma fold_step_poly (r : Z) (cs : list Z) :
  forall h,
  fold_left (step r) cs h mod p1305.modulus
  = (h * r ^ Z.of_nat (length cs) + poly r cs) mod p1305.modulus.
Proof.
  induction cs as [|c cs IH]; intros h.
  - cbn [fold_left poly length]. f_equal. change (Z.of_nat 0) with 0. lia.
  - cbn [fold_left]. rewrite IH. cbn [poly].
    replace (Z.of_nat (length (c :: cs))) with (Z.succ (Z.of_nat (length cs)))
      by (cbn [length]; lia).
    rewrite Z.pow_succ_r by lia. unfold step.
    rewrite mod_mul_add, <- Z.mul_assoc, mod_mul_add.
    f_equal. ring.
Qed.

Lemma fold_left_map_l {A B C} (f : A -> B -> A) (g : C -> B) (l : list C) :
  forall a, fold_left f (map g l) a = fold_left (fun a x => f a (g x)) l a.
Proof. induction l as [|x l IH]; intros a; [done|]. cbn. apply IH. Qed.

(* ================================================================== *)
(** * Bitwise and on digits *)
(* ================================================================== *)

Lemma land_concat (k x y p q : Z) :
  0 <= k -> 0 <= x < 2 ^ k -> 0 <= y < 2 ^ k ->
  Z.land (x + 2 ^ k * p) (y + 2 ^ k * q) = Z.land x y + 2 ^ k * Z.land p q.
Proof.
  intros Hk Hx Hy.
  assert (Hxy : 0 <= Z.land x y < 2 ^ k).
  { split; [apply Z.land_nonneg; lia|].
    destruct (Z.eq_dec (Z.land x y) 0) as [->|Hne]; [lia|].
    apply Z.log2_lt_pow2; [pose proof (Z.land_nonneg x y); lia|].
    pose proof (Z.log2_land x y ltac:(lia) ltac:(lia)).
    destruct (Z.eq_dec x 0) as [->|Hx0]; [by rewrite Z.land_0_l in Hne|].
    pose proof (proj1 (Z.log2_lt_pow2 x k ltac:(lia)) ltac:(lia)). lia. }
  rewrite !(Z.mul_comm (2 ^ k)).
  rewrite <- !lor_disjoint by lia.
  apply Z.bits_inj'. intros n Hn.
  rewrite !Z.land_spec, !Z.lor_spec, !Z.mul_pow2_bits, !Z.land_spec by lia.
  destruct (Z.ltb_spec n k).
  - rewrite !(Z.testbit_neg_r _ (n - k)) by lia.
    rewrite !orb_false_r. reflexivity.
  - replace x with (x mod 2 ^ k) by (apply Z.mod_small; lia).
    replace y with (y mod 2 ^ k) by (apply Z.mod_small; lia).
    rewrite !Z.mod_pow2_bits_high by lia. reflexivity.
Qed.

Lemma land_bytes (a b c d a' b' c' d' : Z) :
  0 <= a < 256 -> 0 <= b < 256 -> 0 <= c < 256 -> 0 <= d < 256 ->
  0 <= a' < 256 -> 0 <= b' < 256 -> 0 <= c' < 256 -> 0 <= d' < 256 ->
  Z.land (a * 2 ^ 24 + b * 2 ^ 16 + c * 2 ^ 8 + d) (a' * 2 ^ 24 + b' * 2 ^ 16 + c' * 2 ^ 8 + d')
  = Z.land a a' * 2 ^ 24 + Z.land b b' * 2 ^ 16 + Z.land c c' * 2 ^ 8 + Z.land d d'.
Proof.
  intros.
  replace (a * 2 ^ 24 + b * 2 ^ 16 + c * 2 ^ 8 + d)
    with (d + 2 ^ 8 * (c + 2 ^ 8 * (b + 2 ^ 8 * a))) by lia.
  replace (a' * 2 ^ 24 + b' * 2 ^ 16 + c' * 2 ^ 8 + d')
    with (d' + 2 ^ 8 * (c' + 2 ^ 8 * (b' + 2 ^ 8 * a'))) by lia.
  rewrite !land_concat by lia. lia.
Qed.

Lemma land_byte_range (a b : Z) : 0 <= a < 256 -> 0 <= Z.land a b < 256.
Proof.
  intros Ha. change 256 with (2 ^ 8) in *.
  replace a with (a mod 2 ^ 8) by (apply Z.mod_small; lia).
  rewrite <- Z.land_ones, <- Z.land_assoc, (Z.land_comm (Z.ones 8)), Z.land_assoc,
    Z.land_ones by lia.
  apply Z.mod_pos_bound. lia.
Qed.

(** A number below 2^32 and its four bytes. *)
Lemma uint32_four_bytes (u : Z) :
  0 <= u < 2 ^ 32 ->
  exists a b c d,
    0 <= a < 256 /\ 0 <= b < 256 /\ 0 <= c < 256 /\ 0 <= d < 256
    /\ u = a * 2 ^ 24 + b * 2 ^ 16 + c * 2 ^ 8 + d.
Proof.
  intros Hu. destruct (uint32_bytes u Hu) as (b & c & Ha & Hb & Hc & Hd & Hv).
  by exists (u / 2 ^ 24), b, c, (u mod 2 ^ 8).
Qed.

(** Line 31 permutes bits, so it goes through [&]. *)
Lemma byteswap_word_and (x m : Z) :
  JS.toUint32 (byteswap_word (JS.and x m))
  = Z.land (JS.toUint32 (byteswap_word x)) (JS.toUint32 (byteswap_word m)).
Proof.
  destruct (uint32_four_bytes _ (toUint32_range x)) as (a & b & c & d & Ha & Hb & Hc & Hd & Hx).
  destruct (uint32_four_bytes _ (toUint32_range m))
    as (a' & b' & c' & d' & Ha' & Hb' & Hc' & Hd' & Hm).
  pose proof (land_byte_range a a' Ha). pose proof (land_byte_range b b' Hb).
  pose proof (land_byte_range c c' Hc). pose proof (land_byte_range d d' Hd).
  rewrite (byteswap_word_bytes x a b c d), (byteswap_word_bytes m a' b' c' d') by done.
  rewrite (byteswap_word_bytes (JS.and x m) (Z.land a a') (Z.land b b') (Z.land c c')
             (Z.land d d')); try done.
  - rewrite !toUint32_toInt32, !toUint32_small by lia.
    symmetry. apply land_bytes; done.
  - rewrite toUint32_and, Hx, Hm. apply land_bytes; done.
Qed.

(** ** [byteswap] *)

Lemma word_bytes_toInt32 (v : Z) : bA.word_bytes (JS.toInt32 v) = bA.word_bytes v.
Proof. unfold bA.word_bytes. by rewrite toUint32_toInt32. Qed.

Lemma byteswap_word_rev (v : Z) :
  bA.word_bytes (byteswap_word v) = rev (bA.word_bytes v)
  /\ byteswap_word (byteswap_word v) = JS.toInt32 v.
Proof.
  destruct (uint32_four_bytes _ (toUint32_range v)) as (a & b & c & d & Ha & Hb & Hc & Hd & Hv).
  assert (Hbe : forall a b c d, 0 <= a < 256 -> 0 <= b < 256 -> 0 <= c < 256 -> 0 <= d < 256 ->
            a * 2 ^ 24 + b * 2 ^ 16 + c * 2 ^ 8 + d = bA.be_value [z2b a; z2b b; z2b c; z2b d]).
  { intros. rewrite be_value_4, !b2z_z2b, !Z.mod_small by lia. reflexivity. }
  rewrite (byteswap_word_bytes v a b c d) by done. split.
  - rewrite <- (word_bytes_toInt32 v), <- (toInt32_toUint32 v), Hv.
    rewrite (Hbe a b c d), (Hbe d c b a) by done.
    by rewrite !word_bytes_full.
  - rewrite (byteswap_word_bytes _ d c b a); try done.
    + by rewrite <- Hv, toInt32_toUint32.
    + rewrite toUint32_toInt32, toUint32_small by lia. reflexivity.
Qed.

(** X1.  [byteswap] keeps the number of words, reverses the four bytes of every
    word, and applied twice gives the words back (as 32-bit signed numbers,
    which the bitwise operators make of them). *)
Theorem byteswap_reverses_bytes (ws : list Z) :
  length (byteswap ws) = length ws
  /\ flat_map bA.word_bytes (byteswap ws) = flat_map (fun w => rev (bA.word_bytes w)) ws
  /\ byteswap (byteswap ws) = map JS.toInt32 ws.
Proof.
  split; [apply length_byteswap|]. unfold byteswap.
  induction ws as [|w ws [IH1 IH2]]; [done|].
  destruct (byteswap_word_rev w) as [Hb Hi].
  cbn [map flat_map]. rewrite IH1, IH2, Hb, Hi. done.
Qed.

(** ** [bits128ToNum] *)

Lemma take4_fromBytes (bs : list byte) :
  take 4 (bA.fromBytes bs) = bA.fromBytes (take 16 bs).
Proof.
  destruct (Nat.le_gt_cases 16 (length bs)) as [Hge|Hlt].
  - by rewrite take_fromBytes.
  - rewrite (take_ge bs) by lia. apply take_ge. rewrite length_fromBytes.
    assert ((length bs + 3) / 4 < 5)%nat; [|lia].
    apply Nat.Div0.div_lt_upper_bound. lia.
Qed.

(** X2.  [bits128ToNum(a, offset, cls)] on the bit array of some bytes builds a
    new number and leaves every cell as it is; the number is the
    little-endian number of the at most 16 bytes that start at word
    [offset], also when the last word is partial. *)
Theorem bits128ToNum_little_endian (m : list byte) (offset : nat) (σ : heap) :
  let '(n, σ') := bits128ToNum (bA.fromBytes m) (Z.of_nat offset) σ in
  n = length σ
  /\ σ' = σ ++ [σ' !!! n]
  /\ bn.value (σ' !!! n) = le_value (take 16 (drop (4 * offset) m))
  /\ 0 <= bn.value (σ' !!! n) < 2 ^ 128.
Proof.
  unfold bits128ToNum, bn_fromBits, alloc.
  rewrite heap_alloc_new by done.
  split; [done|]. split; [done|].
  assert (Hs : JS.slice (bA.fromBytes m) (Z.of_nat offset) (Z.of_nat offset + 4)
               = bA.fromBytes (take 16 (drop (4 * offset) m))).
  { unfold JS.slice.
    replace (Z.to_nat (Z.of_nat offset + 4) - Z.to_nat (Z.of_nat offset))%nat with 4%nat by lia.
    rewrite Nat2Z.id, drop_fromBytes. apply take4_fromBytes. }
  rewrite Hs.
  destruct (fromBits_rev_byteswap (bA.fromBytes (take 16 (drop (4 * offset) m)))) as [-> _].
  rewrite le_words_byteswap. split; [done|].
  pose proof (le_value_range (take 16 (drop (4 * offset) m))) as Hr.
  assert (Hl : (length (take 16 (drop (4 * offset) m)) <= 16)%nat)
    by (rewrite length_take; lia).
  assert (2 ^ (8 * Z.of_nat (length (take 16 (drop (4 * offset) m)))) <= 2 ^ 128)
    by (apply Z.pow_le_mono_r; lia).
  lia.
Qed.

(** ** The one-shot call *)

(** X3.  [poly1305(key, data)] called as a function throws "invalid Poly1305
    key size" when the key array does not have eight words, whatever the
    data, and then nothing was written, the key array included.  With eight
    key words and a data array that is the bit array of any bytes (the key
    array itself included) it returns a tag of 128 bits in four words. *)
Theorem poly1305_call_outcome (key : loc) (σ : heap) :
  (length (σ !!! key) <> 8%nat ->
   forall data, poly1305 key data σ = (inl (invalid "invalid Poly1305 key size"), σ))
  /\ (length (σ !!! key) = 8%nat ->
      forall data m, σ !!! data = bA.fromBytes m ->
      exists t σ',
        poly1305 key data σ = (inr t, σ')
        /\ length t = 4%nat /\ bA.bitLength t = 128).
Proof.
  split; intros Hlen; [intros data | intros data m _]; rewrite poly1305_eq.
  - by rewrite poly1305_new_fail.
  - destruct (poly1305_new key σ) as [[e|c0] σ0] eqn:Hnew.
    { destruct (poly1305_new_ok key σ Hlen) as [_ Hok]. congruence. }
    destruct (poly1305_new_contents _ _ _ _ Hnew) as (Hv0 & _).
    destruct (update c0 (σ0 !!! data) σ0) as [c1 σ1] eqn:Hup.
    destruct (update_frame _ _ _ _ _ Hup Hv0) as (Hv1 & _).
    destruct (finalize c1 σ1) as [t σ2] eqn:Hfin.
    destruct (finalize_spec _ _ _ _ Hfin Hv1) as (-> & _).
    eexists _, _. split; [reflexivity|].
    unfold tag. split; [|apply tag_of_bytes].
    rewrite tag_of_value, length_fromBytes, length_le_bytes. reflexivity.
Qed.

(* ================================================================== *)
(** * The numbers r and s of a key *)
(* ================================================================== *)

Lemma le_words_clamped (k : list Z) :
  length k = 8%nat ->
  le_words (byteswap (JS.slice (clamped k) 0 (0 + 4)))
  = Z.land (le_words (byteswap (JS.slice k 0 (0 + 4)))) clamp_mask.
Proof.
  intros Hlen.
  destruct (length_8_inv k Hlen) as (k0 & k1 & k2 & k3 & k4 & k5 & k6 & k7 & ->).
  rewrite clamped_8.
  change (JS.slice [JS.and k0 (JS.not 240); JS.and k1 (JS.not 50331888);
                    JS.and k2 (JS.not 50331888); JS.and k3 (JS.not 50331888);
                    k4; k5; k6; k7] 0 (0 + 4))
    with [JS.and k0 (JS.not 240); JS.and k1 (JS.not 50331888);
          JS.and k2 (JS.not 50331888); JS.and k3 (JS.not 50331888)].
  change (JS.slice [k0; k1; k2; k3; k4; k5; k6; k7] 0 (0 + 4)) with [k0; k1; k2; k3].
  cbn [byteswap map le_words]. rewrite !byteswap_word_and.
  change (JS.toUint32 (byteswap_word (JS.not 240))) with 0x0fffffff.
  change (JS.toUint32 (byteswap_word (JS.not 50331888))) with 0x0ffffffc.
  change clamp_mask
    with (0x0fffffff
          + 2 ^ 32 * (0x0ffffffc + 2 ^ 32 * (0x0ffffffc + 2 ^ 32 * (0x0ffffffc + 2 ^ 32 * 0)))).
  pose proof (toUint32_range (byteswap_word k0)).
  pose proof (toUint32_range (byteswap_word k1)).
  pose proof (toUint32_range (byteswap_word k2)).
  pose proof (toUint32_range (byteswap_word k3)).
  rewrite !land_concat by lia. reflexivity.
Qed.

(** The first and the second half of a 32-byte key, as words. *)
Lemma slice_key_halves (kb : list byte) :
  length kb = 32%nat ->
  JS.slice (bA.fromBytes kb) 0 (0 + 4) = bA.fromBytes (take 16 kb)
  /\ JS.slice (bA.fromBytes kb) 4 (4 + 4) = bA.fromBytes (drop 16 kb).
Proof.
  intros Hlen. split.
  - pose proof (slice_block kb 0 ltac:(lia)) as H. rewrite drop_0 in H. exact H.
  - pose proof (slice_block kb 1 ltac:(lia)) as H.
    change (16 * 1)%nat with 16%nat in H.
    rewrite (take_ge (drop 16 kb)) in H by (rewrite length_drop; lia). exact H.
Qed.

(* ================================================================== *)
(** * The tag as a number *)
(* ================================================================== *)

Lemma fold_blocks_value (r : Z) (blocks : list (list byte)) :
  Forall (fun blk => length blk = 16%nat) blocks ->
  forall h,
  fold_left (fun h blk => step r h (le_value blk + 2 ^ 128)) blocks h
  = fold_left (step r) (map block_value blocks) h.
Proof.
  induction 1 as [|blk blocks Hblk _ IH]; intros h; [reflexivity|].
  cbn [fold_left map]. rewrite IH. do 2 f_equal. unfold block_value. by rewrite Hblk.
Qed.

Lemma value_folded_blocks (r s : list Z) (m : list byte) :
  bn.value (folded (contents_after r s m)) mod p1305.modulus
  = fold_left (step (bn.value r)) (map block_value (message_blocks m)) 0 mod p1305.modulus.
Proof.
  unfold message_blocks. rewrite map_app, fold_left_app.
  rewrite <- (fold_blocks_value _ (full_blocks m)) by apply full_blocks_length.
  pose proof (value_fold_absorb r (full_blocks m) (full_blocks_length m) [0]) as Hh.
  change (bn.value [0]) with 0 in Hh.
  pose proof (length_tail_bytes m) as Hlt.
  destruct (tail_bytes m) as [|x t] eqn:Htail.
  - unfold folded, contents_after. cbn [c_buffer c_h map fold_left].
    rewrite Htail. exact Hh.
  - rewrite (value_folded_partial _ (x :: t)).
    + cbn [contents_after c_r c_h map fold_left].
      rewrite <- step_mod_l, Hh, step_mod_l.
      symmetry. apply Z.mod_small, step_range.
    + cbn [contents_after c_buffer]. by rewrite Htail.
    + cbn [length] in *. lia.
Qed.

Lemma tag_value (r s : list Z) (m : list byte) :
  tag (contents_after r s m)
  = bA.fromBytes
      (le_bytes 16
         ((poly (bn.value r) (map block_value (message_blocks m)) mod p1305.modulus
           + bn.value s) mod 2 ^ 128)).
Proof.
  unfold tag. rewrite tag_of_value, value_folded_blocks, fold_step_poly.
  cbn [contents_after c_s]. rewrite Z.mul_0_l, Z.add_0_l.
  by rewrite Zplus_mod_idemp_l.
Qed.

(** The one-shot call on a key array of eight words: the tag of the contents
    that the bytes lead to which the data array holds once the key array is
    clamped. *)
Lemma poly1305_call_tag (key data : loc) (σ : heap) (m : list byte) :
  length (σ !!! key) = 8%nat -> (data < length σ)%nat ->
  <[key := clamped (σ !!! key)]> σ !!! data = bA.fromBytes m -> short m ->
  fst (poly1305 key data σ)
  = inr (tag (contents_after
                (bn.fromBits (rev (byteswap (JS.slice (clamped (σ !!! key)) 0 (0 + 4)))))
                (bn.fromBits (rev (byteswap (JS.slice (clamped (σ !!! key)) 4 (4 + 4)))))
                m)).
Proof.
  intros Hlen Hdata Hm Hshort. rewrite poly1305_eq.
  destruct (poly1305_new key σ) as [[e|c0] σ0] eqn:Hnew.
  { destruct (poly1305_new_ok key σ Hlen) as [_ Hok]. congruence. }
  destruct (poly1305_new_inv _ _ _ _ Hnew) as (_ & Hkey & _ & _ & Hk & Hr & Hs & _ & Hold).
  destruct (poly1305_new_contents _ _ _ _ Hnew) as (Hv0 & Hc0).
  assert (Hd : σ0 !!! data = bA.fromBytes m).
  { rewrite <- Hm. destruct (Nat.eq_dec data key) as [->|Hne].
    - by rewrite heap_store_eq.
    - rewrite heap_store_ne by done. by apply Hold. }
  rewrite Hd.
  destruct (update c0 (bA.fromBytes m) σ0) as [c1 σ1] eqn:Hup.
  destruct (update_frame _ _ _ _ _ Hup Hv0) as (Hv1 & _).
  pose proof (update_contents _ _ _ _ _ _ [] _ Hup Hv0 Hc0 Hshort) as Hc1.
  destruct (finalize c1 σ1) as [t σ2] eqn:Hfin.
  destruct (finalize_spec _ _ _ _ Hfin Hv1) as (-> & _).
  cbn [fst]. rewrite Hc1, Hr, Hs. reflexivity.
Qed.

Lemma value_r_bytes (kb : list byte) :
  length kb = 32%nat ->
  bn.value (bn.fromBits (rev (byteswap (JS.slice (clamped (bA.fromBytes kb)) 0 (0 + 4)))))
  = Z.land (le_value (take 16 kb)) clamp_mask
  /\ bn.value (bn.fromBits (rev (byteswap (JS.slice (clamped (bA.fromBytes kb)) 4 (4 + 4)))))
     = le_value (drop 16 kb).
Proof.
  intros Hlen.
  assert (Hw : length (bA.fromBytes kb) = 8%nat) by (by rewrite length_fromBytes, Hlen).
  destruct (slice_key_halves kb Hlen) as [H0 H4].
  split.
  - destruct (fromBits_rev_byteswap (JS.slice (clamped (bA.fromBytes kb)) 0 (0 + 4))) as [-> _].
    by rewrite le_words_clamped, H0, le_words_byteswap.
  - destruct (fromBits_rev_byteswap (JS.slice (clamped (bA.fromBytes kb)) 4 (4 + 4))) as [-> _].
    by rewrite slice_clamped, H4, le_words_byteswap.
Qed.

(** ** The tag of the one-shot call *)

(** X4.  The one-shot call [poly1305(key, data)] on a key array of 32 bytes
    and another array that holds the bytes of a message returns the tag of
    the header of poly1305.js: with r the little-endian number of the first
    16 key bytes under the clamp mask and s that of the last 16, the 16
    little-endian bytes of
    ((c_1 r^q + ... + c_q r) mod (2^130 - 5) + s) mod 2^128, where c_i is the
    little-endian number of the i-th block of at most 16 bytes plus 2 to the
    number of its bits.  This holds whichever representatives the
    multiplication returns on the way. *)
Theorem poly1305_computes_mac (key data : loc) (σ : heap) (kb m : list byte) :
  σ !!! key = bA.fromBytes kb -> length kb = 32%nat ->
  (data < length σ)%nat -> data <> key ->
  σ !!! data = bA.fromBytes m -> short m ->
  fst (poly1305 key data σ) = inr (bA.fromBytes (mac kb m)).
Proof.
  intros Hkey Hlen Hdata Hne Hm Hshort.
  rewrite (poly1305_call_tag key data σ m);
    [|by rewrite Hkey, length_fromBytes, Hlen|done|by rewrite heap_store_ne|done].
  rewrite tag_value, Hkey.
  destruct (value_r_bytes kb Hlen) as [-> ->]. reflexivity.
Qed.

(** ** The numbers of a new context *)

(** X5.  A context built from a key of 32 bytes holds r, the little-endian number
    of the first 16 key bytes with exactly the bits of the clamp mask kept,
    s, the little-endian number of the last 16 key bytes unchanged, the
    accumulator 0 and no pending bytes. *)
Theorem constructor_numbers (key : loc) (σ σ0 : heap) (c0 : poly1305_ctx) (kb : list byte) :
  poly1305_new key σ = (inr c0, σ0) ->
  σ !!! key = bA.fromBytes kb -> length kb = 32%nat ->
  bn.value (σ0 !!! _r c0) = Z.land (le_value (take 16 kb)) clamp_mask
  /\ bn.value (σ0 !!! _s c0) = le_value (drop 16 kb)
  /\ bn.value (σ0 !!! _h c0) = 0
  /\ _buffer c0 = None.
Proof.
  intros Hnew Hkey Hlen.
  destruct (poly1305_new_inv _ _ _ _ Hnew) as (_ & _ & Hc & _ & _ & Hr & Hs & Hh & _).
  rewrite Hr, Hs, Hh, Hkey.
  destruct (value_r_bytes kb Hlen) as [-> ->].
  subst c0. done.
Qed.

(** ** Streaming and the one-shot call *)

(** X8.  Whatever sequence of [update], [finalize] and [verify] calls a
    context went through, its [finalize] returns what the one-shot call
    [poly1305(key, data)] returns on the key array the context was built
    from and another array that holds all the bytes fed, in one piece. *)
Theorem streaming_is_one_shot (key data : loc) (σ σ0 : heap) (c0 : poly1305_ctx)
    (ops : list op) :
  poly1305_new key σ = (inr c0, σ0) ->
  (data < length σ)%nat -> data <> key ->
  σ !!! data = bA.fromBytes (fed ops) ->
  short (fed ops) ->
  let '((c, _), σ1) := run ops c0 σ0 in
  fst (poly1305 key data σ) = inr (fst (finalize c σ1)).
Proof.
  intros Hnew Hdata Hne Hm Hshort.
  destruct (poly1305_new_inv _ _ _ _ Hnew) as (Hlen & _ & _ & _ & _ & Hr & Hs & _).
  destruct (poly1305_new_contents _ _ _ _ Hnew) as (Hv0 & Hc0).
  destruct (run ops c0 σ0) as [[c os] σ1] eqn:Hrun.
  destruct (run_frame _ _ _ _ _ _ Hrun Hv0) as (Hv & _).
  destruct (run_contents _ _ _ [] _ _ _ _ _ Hrun Hv0 Hc0 Hshort) as (Hc & _).
  rewrite (poly1305_call_tag key data σ (fed ops)); [|done|done|by rewrite heap_store_ne|done].
  destruct (finalize c σ1) as [t σ2] eqn:Hfin.
  destruct (finalize_spec _ _ _ _ Hfin Hv) as (-> & _).
  cbn [fst]. rewrite Hc, Hr, Hs. reflexivity.
Qed.

(** ** The key array after construction *)

Lemma int32_quot (y : Z) :
  - 2 ^ 31 <= y < 2 ^ 31 <-> Z.shiftr y 31 = 0 \/ Z.shiftr y 31 = -1.
Proof.
  rewrite Z.shiftr_div_pow2 by lia.
  pose proof (Z.div_mod y (2 ^ 31) ltac:(lia)).
  pose proof (Z.mod_pos_bound y (2 ^ 31) ltac:(lia)). lia.
Qed.

Lemma and_range (x m : Z) : - 2 ^ 31 <= JS.and x m < 2 ^ 31.
Proof.
  unfold JS.and. apply int32_quot. rewrite Z.shiftr_land.
  destruct (proj1 (int32_quot _) (toInt32_range x)) as [-> | ->];
    destruct (proj1 (int32_quot _) (toInt32_range m)) as [-> | ->]; auto.
Qed.

Lemma and_idem (x m : Z) : JS.and (JS.and x m) m = JS.and x m.
Proof.
  unfold JS.and at 1. rewrite (toInt32_small (JS.and x m)) by apply and_range.
  unfold JS.and. by rewrite <- Z.land_assoc, Z.land_diag.
Qed.

(** The clamp of lines 58-61 changes nothing the second time. *)
Lemma clamped_idem (k : list Z) : length k = 8%nat -> clamped (clamped k) = clamped k.
Proof.
  intros Hlen.
  destruct (length_8_inv k Hlen) as (k0 & k1 & k2 & k3 & k4 & k5 & k6 & k7 & ->).
  rewrite !clamped_8, !and_idem. reflexivity.
Qed.

Lemma length_clamped (k : list Z) : length k = 8%nat -> length (clamped k) = 8%nat.
Proof.
  intros Hlen.
  destruct (length_8_inv k Hlen) as (k0 & k1 & k2 & k3 & k4 & k5 & k6 & k7 & ->).
  by rewrite clamped_8.
Qed.

(** X6.  After construction no call writes the key array: it keeps the clamped
    words.  Since the clamp changes nothing the second time, a second
    context constructed from the same array, at any later point, starts with
    the same r, s, accumulator and empty buffer as the first one did. *)
Theorem key_array_reusable (key : loc) (σ σ0 : heap) (c0 : poly1305_ctx) (ops : list op) :
  poly1305_new key σ = (inr c0, σ0) ->
  let '((c, _), σ1) := run ops c0 σ0 in
  σ1 !!! key = clamped (σ !!! key)
  /\ exists c' σ',
       poly1305_new key σ1 = (inr c', σ')
       /\ σ' !!! key = σ1 !!! key
       /\ contents_of c' σ' = contents_of c0 σ0.
Proof.
  intros Hnew.
  destruct (poly1305_new_inv _ _ _ _ Hnew)
    as (Hlen & Hkey & Hc & Hlen0 & Hk & Hr & Hs & Hh & _).
  destruct (poly1305_new_contents _ _ _ _ Hnew) as (Hv0 & _).
  destruct (run ops c0 σ0) as [[c os] σ1] eqn:Hrun.
  destruct (run_frame _ _ _ _ _ _ Hrun Hv0) as (_ & _ & _ & _ & Hold).
  assert (Hk1 : σ1 !!! key = clamped (σ !!! key)).
  { rewrite Hold; [exact Hk | lia | subst c0; cbn [_h]; lia]. }
  split; [exact Hk1|].
  assert (Hlen1 : length (σ1 !!! key) = 8%nat) by (rewrite Hk1; by apply length_clamped).
  destruct (poly1305_new key σ1) as [[e|c'] σ'] eqn:Hnew'.
  { destruct (poly1305_new_ok key σ1 Hlen1) as [_ Hok]. congruence. }
  exists c', σ'. split; [reflexivity|].
  destruct (poly1305_new_inv _ _ _ _ Hnew')
    as (_ & _ & _ & _ & Hk' & Hr' & Hs' & Hh' & _).
  rewrite Hk1, clamped_idem in Hk', Hr', Hs' by done.
  split; [by rewrite Hk', Hk1|].
  destruct (poly1305_new_inv _ _ _ _ Hnew') as (_ & _ & Hc' & _).
  unfold contents_of. rewrite Hr', Hs', Hh', Hr, Hs, Hh.
  rewrite Hc, Hc'. reflexivity.
Qed.

(** ** The pending buffer *)

(** X7.  In every reachable context the buffer holds exactly the bytes fed after
    the last full 16-byte block: as many as the number of bytes fed modulo
    16, and [_buffer] is null exactly when that number is 0. *)
Theorem buffer_holds_tail (ops : list op) (c : poly1305_ctx) (σ : heap) :
  reachable_by ops c σ ->
  short (fed ops) ->
  pending c σ = drop (16 * (length (fed ops) / 16)) (fed ops)
  /\ length (pending c σ) = (length (fed ops) mod 16)%nat
  /\ (_buffer c = None <-> (length (fed ops) mod 16 = 0)%nat).
Proof.
  intros Hreach Hshort.
  destruct (reachable_contents _ _ _ Hreach Hshort) as (Hv & Hc).
  pose proof (pending_contents _ _ _ _ _ Hc) as Hp.
  pose proof (Nat.div_mod_eq (length (fed ops)) 16) as Hdm.
  assert (Hlen : length (tail_bytes (fed ops)) = (length (fed ops) mod 16)%nat).
  { unfold tail_bytes. rewrite length_drop. lia. }
  rewrite Hp. split; [reflexivity|]. split; [exact Hlen|].
  pose proof (f_equal c_buffer Hc) as Hb.
  cbn [contents_of contents_after c_buffer] in Hb.
  rewrite <- Hlen. destruct (tail_bytes (fed ops)) as [|x t]; cbn [buffer_of length] in *.
  - destruct (_buffer c); [discriminate|done].
  - destruct (_buffer c); [|discriminate]. split; [discriminate|lia].
Qed.

(** ** [poly1305aes] *)

(** X10.  Poly1305-AES(r, k, n, c) = Poly1305(concat(r, AES_k(n)), c), as the
    header of poly1305.js has it: with a cipher key and a nonce of four
    words, [poly1305aes(r, key, nonce, data)] returns what the one-shot
    [poly1305] returns on a key array that holds the words of [r] followed
    by the words the cipher returns and on an array with the words of
    [data], the error for a key array that does not have eight words
    included. *)
Theorem poly1305aes_is_poly1305 (aes : list Z -> list Z -> list Z) (r ckey nonce data : loc)
    (σ : heap) (m : list byte) :
  (r < length σ)%nat -> (data < length σ)%nat ->
  length (σ !!! ckey) = 4%nat -> length (σ !!! nonce) = 4%nat ->
  σ !!! data = bA.fromBytes m -> short m ->
  fst (poly1305aes aes r ckey nonce data σ)
  = fst (poly1305 0%nat 1%nat [σ !!! r ++ aes (σ !!! ckey) (σ !!! nonce); σ !!! data]).
Proof.
  intros Hr Hdata Hk Hn Hm Hshort. unfold poly1305aes.
  rewrite bind_eq, poly1305aes_key_eq, Hk, Hn.
  change (negb (4 =? Z.of_nat 4) || negb (4 =? Z.of_nat 4)) with false.
  cbv beta iota zeta.
  rewrite (heap_alloc_old σ _ r) by done.
  rewrite (heap_alloc_new σ _ (length σ)) by done.
  set (K := σ !!! r ++ aes (σ !!! ckey) (σ !!! nonce)).
  set (σ1 := σ ++ [aes (σ !!! ckey) (σ !!! nonce)]).
  assert (Hlen1 : length σ1 = S (length σ)) by (subst σ1; rewrite length_app; simpl; lia).
  assert (HK : (σ1 ++ [K]) !!! length σ1 = K) by (by apply heap_alloc_new).
  assert (HD : (σ1 ++ [K]) !!! data = bA.fromBytes m).
  { rewrite heap_alloc_old by lia. subst σ1. by rewrite heap_alloc_old. }
  destruct (Nat.eq_dec (length K) 8%nat) as [Hlen|Hlen].
  - rewrite (poly1305_call_tag (length σ1) data (σ1 ++ [K]) m);
      [|by rewrite HK|rewrite length_app; simpl; lia| |done].
    + rewrite (poly1305_call_tag 0%nat 1%nat [K; σ !!! data] m);
        [by rewrite HK|done|simpl; lia|by rewrite Hm|done].
    + rewrite heap_store_ne by lia. exact HD.
  - rewrite !poly1305_eq.
    rewrite !poly1305_new_fail by (done || by rewrite HK). reflexivity.
Qed.

(** ** [verify] *)

Lemma or_range (x y : Z) : - 2 ^ 31 <= JS.or x y < 2 ^ 31.
Proof.
  unfold JS.or. apply int32_quot. rewrite Z.shiftr_lor.
  destruct (proj1 (int32_quot _) (toInt32_range x)) as [-> | ->];
    destruct (proj1 (int32_quot _) (toInt32_range y)) as [-> | ->]; auto.
Qed.

Lemma xor_range (x y : Z) : - 2 ^ 31 <= JS.xor x y < 2 ^ 31.
Proof.
  unfold JS.xor. apply int32_quot. rewrite Z.shiftr_lxor.
  destruct (proj1 (int32_quot _) (toInt32_range x)) as [-> | ->];
    destruct (proj1 (int32_quot _) (toInt32_range y)) as [-> | ->]; auto.
Qed.

Lemma or_eq_0 (x y : Z) :
  - 2 ^ 31 <= x < 2 ^ 31 -> - 2 ^ 31 <= y < 2 ^ 31 -> JS.or x y = 0 -> x = 0 /\ y = 0.
Proof.
  intros Hx Hy. unfold JS.or. rewrite !toInt32_small by done. apply Z.lor_eq_0_iff.
Qed.

Lemma xor_eq_0 (x y : Z) :
  - 2 ^ 31 <= x < 2 ^ 31 -> - 2 ^ 31 <= y < 2 ^ 31 -> JS.xor x y = 0 -> x = y.
Proof.
  intros Hx Hy. unfold JS.xor. rewrite !toInt32_small by done. apply Z.lxor_eq.
Qed.

Lemma xor_diag (x : Z) : JS.xor x x = 0.
Proof. unfold JS.xor. apply Z.lxor_nilpotent. Qed.

(** A bit array is equal to itself. *)
Lemma equal_refl (a : list Z) : bA.equal a a = true.
Proof.
  unfold bA.equal. rewrite Z.eqb_refl. cbn [negb].
  assert (H : forall l, fold_left
            (fun x i => JS.or x (JS.xor (JS.get_or0 a (Z.of_nat i)) (JS.get_or0 a (Z.of_nat i))))
            l 0 = 0).
  { induction l as [|i l IH]; [done|]. cbn [fold_left]. by rewrite xor_diag. }
  by rewrite H.
Qed.

Lemma be_value_4_inj (a0 a1 a2 a3 b0 b1 b2 b3 : byte) :
  JS.toInt32 (bA.be_value [a0; a1; a2; a3]) = JS.toInt32 (bA.be_value [b0; b1; b2; b3]) ->
  a0 = b0 /\ a1 = b1 /\ a2 = b2 /\ a3 = b3.
Proof.
  intros H. apply (f_equal bA.word_bytes) in H. rewrite !word_bytes_full in H.
  by injection H.
Qed.

Lemma equal_words4 (a0 a1 a2 a3 b0 b1 b2 b3 : Z) :
  bA.equal [a0; a1; a2; a3] [b0; b1; b2; b3]
  = if negb (bA.bitLength [a0; a1; a2; a3] =? bA.bitLength [b0; b1; b2; b3]) then false
    else JS.or (JS.or (JS.or (JS.or 0 (JS.xor a0 b0)) (JS.xor a1 b1)) (JS.xor a2 b2))
               (JS.xor a3 b3) =? 0.
Proof. reflexivity. Qed.

Lemma equal_int32s4 (a0 a1 a2 a3 b0 b1 b2 b3 : Z) :
  bA.equal [JS.toInt32 a0; JS.toInt32 a1; JS.toInt32 a2; JS.toInt32 a3]
           [JS.toInt32 b0; JS.toInt32 b1; JS.toInt32 b2; JS.toInt32 b3] = true ->
  JS.toInt32 a0 = JS.toInt32 b0 /\ JS.toInt32 a1 = JS.toInt32 b1
  /\ JS.toInt32 a2 = JS.toInt32 b2 /\ JS.toInt32 a3 = JS.toInt32 b3.
Proof.
  rewrite equal_words4. destruct (negb _); [done|]. intros Heq. apply Z.eqb_eq in Heq.
  apply or_eq_0 in Heq as [Heq H3]; [|apply or_range|apply xor_range].
  apply or_eq_0 in Heq as [Heq H2]; [|apply or_range|apply xor_range].
  apply or_eq_0 in Heq as [Heq H1]; [|apply or_range|apply xor_range].
  apply or_eq_0 in Heq as [_ H0]; [|lia|apply xor_range].
  apply xor_eq_0 in H0; [|apply toInt32_range..].
  apply xor_eq_0 in H1; [|apply toInt32_range..].
  apply xor_eq_0 in H2; [|apply toInt32_range..].
  apply xor_eq_0 in H3; [|apply toInt32_range..].
  done.
Qed.

Lemma bytes_16_inv (x : list byte) :
  length x = 16%nat ->
  exists a0 a1 a2 a3 b0 b1 b2 b3 c0 c1 c2 c3 d0 d1 d2 d3,
    x = [a0; a1; a2; a3; b0; b1; b2; b3; c0; c1; c2; c3; d0; d1; d2; d3].
Proof.
  intros H. do 16 (destruct x as [|? x]; [discriminate|]).
  destruct x; [|discriminate]. by repeat eexists.
Qed.

(** Two bit arrays of 16 bytes that [equal] accepts hold the same bytes. *)
Lemma equal_16_bytes (x y : list byte) :
  length x = 16%nat -> bA.equal (bA.fromBytes x) (bA.fromBytes y) = true -> x = y.
Proof.
  intros Hx Heq.
  assert (Hy : length y = 16%nat).
  { unfold bA.equal in Heq. rewrite !bitLength_fromBytes, Hx in Heq.
    destruct (Z.eqb_spec (8 * Z.of_nat 16) (8 * Z.of_nat (length y))); [lia|done]. }
  destruct (bytes_16_inv x Hx)
    as (a0 & a1 & a2 & a3 & b0 & b1 & b2 & b3 & c0 & c1 & c2 & c3 & d0 & d1 & d2 & d3 & ->).
  destruct (bytes_16_inv y Hy)
    as (a0' & a1' & a2' & a3' & b0' & b1' & b2' & b3' & c0' & c1' & c2' & c3'
        & d0' & d1' & d2' & d3' & ->).
  rewrite !fromBytes_4 in Heq.
  change (bA.fromBytes []) with (@nil Z) in Heq.
  apply equal_int32s4 in Heq as (H0 & H1 & H2 & H3).
  apply be_value_4_inj in H0 as (-> & -> & -> & ->).
  apply be_value_4_inj in H1 as (-> & -> & -> & ->).
  apply be_value_4_inj in H2 as (-> & -> & -> & ->).
  apply be_value_4_inj in H3 as (-> & -> & -> & ->).
  reflexivity.
Qed.

(** X9.  [verify] on a candidate that is the bit array of some bytes, whatever
    their number, returns true exactly when the candidate is the tag that
    [finalize] returns. *)
Theorem verify_accepts_exactly_tag (ops : list op) (c : poly1305_ctx) (σ : heap)
    (candidate : list byte) :
  reachable_by ops c σ ->
  fst (verify c (bA.fromBytes candidate) σ) = true
  <-> bA.fromBytes candidate = fst (finalize c σ).
Proof.
  intros (key & σi & c0 & σ0 & os & Hnew & Hrun).
  destruct (poly1305_new_contents _ _ _ _ Hnew) as (Hv0 & _).
  destruct (run_frame _ _ _ _ _ _ Hrun Hv0) as (Hv & _).
  destruct (verify c (bA.fromBytes candidate) σ) as [b σ1] eqn:Hver.
  destruct (verify_spec _ _ _ _ _ Hver Hv) as (-> & _).
  destruct (finalize c σ) as [t σ2] eqn:Hfin.
  destruct (finalize_spec _ _ _ _ Hfin Hv) as (-> & _).
  cbn [fst]. unfold tag. rewrite tag_of_value. split.
  - intros Heq. apply equal_16_bytes in Heq; [by rewrite Heq | apply length_le_bytes].
  - intros ->. apply equal_refl.
Qed.

End Poly1305.

(* ================================================================== *)
(** * The theorems at sample data *)
(* ================================================================== *)

(** [lazy_mul] is a multiplication of the field, and its products are never
    canonical. *)
Lemma lazy_mul_value (a b : list Z) :
  bn.value (lazy_mul a b) = (bn.value a * bn.value b) mod p1305.modulus + p1305.modulus.
Proof.
  unfold lazy_mul. apply value_limbs_of_small.
  pose proof (Z.mod_pos_bound (bn.value a * bn.value b) p1305.modulus ltac:(done)).
  change (2 ^ (bn.radix * Z.of_nat p1305.nlimbs)) with (2 ^ 144).
  unfold p1305.modulus in *. lia.
Qed.

Lemma lazy_mul_spec (a b : list Z) :
  bn.value (lazy_mul a b) mod p1305.modulus = (bn.value a * bn.value b) mod p1305.modulus.
Proof.
  rewrite lazy_mul_value.
  rewrite <- (Z.mul_1_l p1305.modulus) at 2.
  rewrite Z.mod_add by done. apply Z.mod_mod. done.
Qed.

Lemma lazy_mul_not_canonical (a b : list Z) : p1305.modulus <= bn.value (lazy_mul a b).
Proof.
  rewrite lazy_mul_value.
  pose proof (Z.mod_pos_bound (bn.value a * bn.value b) p1305.modulus ltac:(done)). lia.
Qed.

Lemma update_chunking_witness :
  exists c0 σ0,
    poly1305_new 0%nat sample_heap = (inr c0, σ0)
    /\ let '((c1, _), σ1) := run lazy_mul (sample_ops ++ map Update sample_chunks) c0 σ0 in
       let '((c2, _), σ2) :=
         run lazy_mul (sample_ops ++ [Update (concat sample_chunks)]) c0 σ0 in
       contents_of c1 σ1 = contents_of c2 σ2
       /\ fst (finalize lazy_mul c1 σ1) = fst (finalize lazy_mul c2 σ2).
Proof.
  destruct (poly1305_new 0%nat sample_heap) as [[e|c0] σ0] eqn:Hnew;
    [vm_compute in Hnew; discriminate|].
  exists c0, σ0. split; [reflexivity|].
  apply (update_chunking lazy_mul 0%nat sample_heap σ0 c0 sample_ops sample_chunks Hnew).
  vm_compute. reflexivity.
Defined.

Lemma update_absorbs_blocks_witness :
  exists c σ,
    reachable_by lazy_mul sample_ops c σ
    /\ let bs := drop 23 sample_message in
       let '(c', σ') := update lazy_mul c (bA.fromBytes bs) σ in
       Forall (fun blk => length blk = 16%nat) (full_blocks (pending c σ ++ bs))
       /\ bn.value (σ' !!! _h c') mod p1305.modulus
          = fold_left (fun h blk => step (bn.value (σ !!! _r c)) h (le_value blk + 2 ^ 128))
              (full_blocks (pending c σ ++ bs))
              (bn.value (σ !!! _h c) mod p1305.modulus)
            mod p1305.modulus
       /\ pending c' σ' = tail_bytes (pending c σ ++ bs).
Proof.
  destruct (poly1305_new 0%nat sample_heap) as [[e|c0] σ0] eqn:Hnew;
    [vm_compute in Hnew; discriminate|].
  destruct (run lazy_mul sample_ops c0 σ0) as [[c os] σ] eqn:Hrun.
  assert (Hreach : reachable_by lazy_mul sample_ops c σ)
    by (exists 0%nat, sample_heap, c0, σ0, os; split; assumption).
  exists c, σ. split; [exact Hreach|].
  apply (update_absorbs_blocks lazy_mul lazy_mul_spec sample_ops c σ
           (drop 23 sample_message) Hreach).
  vm_compute. reflexivity.
Defined.

Lemma finalize_folds_pending_witness :
  exists c σ,
    reachable_by lazy_mul sample_ops c σ
    /\ let '(h, σ') := finalize_fold lazy_mul c σ in
       let rest := pending c σ in
       (length rest < 16)%nat
       /\ (length σ <= h)%nat
       /\ h <> _h c
       /\ σ' !!! _h c = σ !!! _h c
       /\ (forall l, (l < length σ)%nat -> σ' !!! l = σ !!! l)
       /\ (rest = [] -> σ' !!! h = σ !!! _h c)
       /\ (rest <> [] ->
           bn.value (σ' !!! h) mod p1305.modulus
           = step (bn.value (σ !!! _r c)) (bn.value (σ !!! _h c))
                  (le_value rest + 2 ^ (8 * Z.of_nat (length rest)))).
Proof.
  destruct (poly1305_new 0%nat sample_heap) as [[e|c0] σ0] eqn:Hnew;
    [vm_compute in Hnew; discriminate|].
  destruct (run lazy_mul sample_ops c0 σ0) as [[c os] σ] eqn:Hrun.
  assert (Hreach : reachable_by lazy_mul sample_ops c σ)
    by (exists 0%nat, sample_heap, c0, σ0, os; split; assumption).
  exists c, σ. split; [exact Hreach|].
  apply (finalize_folds_pending lazy_mul lazy_mul_spec sample_ops c σ Hreach).
  vm_compute. reflexivity.
Defined.

Lemma finalize_tag_witness :
  exists c σ,
    reachable_by lazy_mul sample_ops c σ
    /\ let '(h, σ2) := finalize_fold lazy_mul c σ in
       let '(t, σ') := finalize lazy_mul c σ in
       let s := bn.value (σ !!! _s c) in
       bn.value (σ' !!! h) = bn.value (σ2 !!! h) mod p1305.modulus
       /\ 0 <= bn.value (σ' !!! h) < p1305.modulus
       /\ t = bA.fromBytes (le_bytes 16 ((bn.value (σ' !!! h) mod 2 ^ 128 + s) mod 2 ^ 128))
       /\ length (bA.toBytes t) = 16%nat
       /\ bA.bitLength t = 128.
Proof.
  destruct (poly1305_new 0%nat sample_heap) as [[e|c0] σ0] eqn:Hnew;
    [vm_compute in Hnew; discriminate|].
  destruct (run lazy_mul sample_ops c0 σ0) as [[c os] σ] eqn:Hrun.
  assert (Hreach : reachable_by lazy_mul sample_ops c σ)
    by (exists 0%nat, sample_heap, c0, σ0, os; split; assumption).
  exists c, σ. split; [exact Hreach|].
  apply (finalize_tag lazy_mul sample_ops c σ Hreach).
  vm_compute. reflexivity.
Defined.

(** With [lazy_mul] the folded accumulator of the sample context is not
    below p, and the tag is not what lines 111-112 would give without the
    full reduction of line 110. *)
Example full_reduction_is_needed :
  match poly1305_new 0%nat sample_heap with
  | (inr c0, σ0) =>
      let '((c, _), σ) := run lazy_mul sample_ops c0 σ0 in
      let '(h, σ2) := finalize_fold lazy_mul c σ in
      let '(t, _) := finalize lazy_mul c σ in
      p1305.modulus <= bn.value (σ2 !!! h)
      /\ t <> bA.fromBytes
                (le_bytes 16
                   ((bn.value (σ2 !!! h) mod 2 ^ 128 + bn.value (σ !!! _s c)) mod 2 ^ 128))
  | _ => False
  end.
Proof. vm_compute. split; intros H; discriminate H. Qed.

Lemma finalize_is_projection_witness :
  exists c0 σ0,
    poly1305_new 0%nat sample_heap = (inr c0, σ0)
    /\ let '((c, os), σ1) := run lazy_mul sample_ops c0 σ0 in
       os = expected (tag_after lazy_mul c0 σ0) [] sample_ops
       /\ (let '(_, σ2) := finalize lazy_mul c σ1 in
           contents_of c σ2 = contents_of c σ1
           /\ forall l, (l < length σ1)%nat -> σ2 !!! l = σ1 !!! l)
       /\ (forall candidate,
           let '(_, σ2) := verify lazy_mul c candidate σ1 in
           contents_of c σ2 = contents_of c σ1
           /\ forall l, (l < length σ1)%nat -> σ2 !!! l = σ1 !!! l).
Proof.
  destruct (poly1305_new 0%nat sample_heap) as [[e|c0] σ0] eqn:Hnew;
    [vm_compute in Hnew; discriminate|].
  exists c0, σ0. split; [reflexivity|].
  apply (finalize_is_projection lazy_mul 0%nat sample_heap σ0 c0 sample_ops Hnew).
  vm_compute. reflexivity.
Defined.

Lemma r_clamped_and_fixed_witness :
  exists c0 σ0,
    poly1305_new 0%nat sample_heap = (inr c0, σ0)
    /\ clamped_number (bn.value (σ0 !!! _r c0))
    /\ let '((c, _), σ1) := run lazy_mul sample_ops c0 σ0 in
       _r c = _r c0 /\ σ1 !!! _r c = σ0 !!! _r c0.
Proof.
  destruct (poly1305_new 0%nat sample_heap) as [[e|c0] σ0] eqn:Hnew;
    [vm_compute in Hnew; discriminate|].
  exists c0, σ0. split; [reflexivity|].
  exact (r_clamped_and_fixed lazy_mul 0%nat sample_heap σ0 c0 sample_ops Hnew).
Defined.

Lemma empty_message_tag_witness :
  exists c0 σ0,
    poly1305_new 0%nat sample_heap = (inr c0, σ0)
    /\ let '((c, _), σ1) :=
         run lazy_mul [Finalize; Update []; Verify []; Update []] c0 σ0 in
       let s := bn.value (σ1 !!! _s c) in
       s = le_words (byteswap (JS.slice (sample_heap !!! 0%nat) 4 (4 + 4)))
       /\ fst (finalize lazy_mul c σ1) = bA.fromBytes (le_bytes 16 s).
Proof.
  destruct (poly1305_new 0%nat sample_heap) as [[e|c0] σ0] eqn:Hnew;
    [vm_compute in Hnew; discriminate|].
  exists c0, σ0. split; [reflexivity|].
  apply (empty_message_tag lazy_mul 0%nat sample_heap σ0 c0 _ Hnew). reflexivity.
Defined.

(** ** A known vector *)

(** The one-shot call on the key and message of RFC 7539, section 2.5.2,
    returns the tag given there. *)
Example rfc7539_vector :
  fst (poly1305 lazy_mul 0%nat 1%nat sample_call_heap) = inr (bA.fromBytes sample_tag).
Proof. vm_compute. reflexivity. Qed.

(** The one-shot call with the key array as the data array as well
    authenticates the clamped key words, which are what [update] reads. *)
Example poly1305_key_as_data :
  fst (poly1305 lazy_mul 0%nat 0%nat sample_heap)
  = inr (bA.fromBytes (mac sample_key (bA.toBytes (clamped (bA.fromBytes sample_key)))))
  /\ mac sample_key (bA.toBytes (clamped (bA.fromBytes sample_key)))
     <> mac sample_key sample_key.
Proof. split; [vm_compute; reflexivity | vm_compute; discriminate]. Qed.

Lemma poly1305_computes_mac_witness :
  fst (poly1305 lazy_mul 0%nat 1%nat sample_call_heap)
  = inr (bA.fromBytes (mac sample_key sample_message)).
Proof.
  apply (poly1305_computes_mac lazy_mul lazy_mul_spec 0%nat 1%nat sample_call_heap
           sample_key sample_message).
  - reflexivity.
  - reflexivity.
  - vm_compute. lia.
  - discriminate.
  - reflexivity.
  - vm_compute. reflexivity.
Defined.

Lemma constructor_numbers_witness :
  exists c0 σ0,
    poly1305_new 0%nat sample_heap = (inr c0, σ0)
    /\ bn.value (σ0 !!! _r c0) = Z.land (le_value (take 16 sample_key)) clamp_mask
    /\ bn.value (σ0 !!! _s c0) = le_value (drop 16 sample_key)
    /\ bn.value (σ0 !!! _h c0) = 0
    /\ _buffer c0 = None.
Proof.
  destruct (poly1305_new 0%nat sample_heap) as [[e|c0] σ0] eqn:Hnew;
    [vm_compute in Hnew; discriminate|].
  exists c0, σ0. split; [reflexivity|].
  apply (constructor_numbers 0%nat sample_heap σ0 c0 sample_key Hnew); reflexivity.
Defined.

Lemma streaming_is_one_shot_witness :
  exists c0 σ0,
    poly1305_new 0%nat sample_stream_heap = (inr c0, σ0)
    /\ let '((c, _), σ1) := run lazy_mul sample_ops c0 σ0 in
       fst (poly1305 lazy_mul 0%nat 1%nat sample_stream_heap)
       = inr (fst (finalize lazy_mul c σ1)).
Proof.
  destruct (poly1305_new 0%nat sample_stream_heap) as [[e|c0] σ0] eqn:Hnew;
    [vm_compute in Hnew; discriminate|].
  exists c0, σ0. split; [reflexivity|].
  apply (streaming_is_one_shot lazy_mul 0%nat 1%nat sample_stream_heap σ0 c0 sample_ops Hnew).
  - vm_compute. lia.
  - discriminate.
  - reflexivity.
  - vm_compute. reflexivity.
Defined.

Lemma key_array_reusable_witness :
  exists c0 σ0,
    poly1305_new 0%nat sample_heap = (inr c0, σ0)
    /\ let '((c, _), σ1) := run lazy_mul sample_ops c0 σ0 in
       σ1 !!! 0%nat = clamped (sample_heap !!! 0%nat)
       /\ exists c' σ',
            poly1305_new 0%nat σ1 = (inr c', σ')
            /\ σ' !!! 0%nat = σ1 !!! 0%nat
            /\ contents_of c' σ' = contents_of c0 σ0.
Proof.
  destruct (poly1305_new 0%nat sample_heap) as [[e|c0] σ0] eqn:Hnew;
    [vm_compute in Hnew; discriminate|].
  exists c0, σ0. split; [reflexivity|].
  exact (key_array_reusable lazy_mul 0%nat sample_heap σ0 c0 sample_ops Hnew).
Defined.

Lemma buffer_holds_tail_witness :
  exists c σ,
    reachable_by lazy_mul sample_ops c σ
    /\ pending c σ = drop (16 * (length (fed sample_ops) / 16)) (fed sample_ops)
    /\ length (pending c σ) = (length (fed sample_ops) mod 16)%nat
    /\ (_buffer c = None <-> (length (fed sample_ops) mod 16 = 0)%nat).
Proof.
  destruct (poly1305_new 0%nat sample_heap) as [[e|c0] σ0] eqn:Hnew;
    [vm_compute in Hnew; discriminate|].
  destruct (run lazy_mul sample_ops c0 σ0) as [[c os] σ] eqn:Hrun.
  assert (Hreach : reachable_by lazy_mul sample_ops c σ)
    by (exists 0%nat, sample_heap, c0, σ0, os; split; assumption).
  exists c, σ. split; [exact Hreach|].
  apply (buffer_holds_tail lazy_mul sample_ops c σ Hreach).
  vm_compute. reflexivity.
Defined.

Lemma poly1305aes_is_poly1305_witness :
  fst (poly1305aes lazy_mul (fun k n => n) 0%nat 1%nat 2%nat 3%nat sample_aes_call_heap)
  = fst (poly1305 lazy_mul 0%nat 1%nat
           [sample_aes_call_heap !!! 0%nat
            ++ (fun k n => n) (sample_aes_call_heap !!! 1%nat) (sample_aes_call_heap !!! 2%nat);
            sample_aes_call_heap !!! 3%nat]).
Proof.
  apply (poly1305aes_is_poly1305 lazy_mul (fun k n => n) 0%nat 1%nat 2%nat 3%nat
           sample_aes_call_heap sample_message).
  - vm_compute. lia.
  - vm_compute. lia.
  - reflexivity.
  - reflexivity.
  - reflexivity.
  - vm_compute. reflexivity.
Defined.

Lemma verify_accepts_exactly_tag_witness :
  exists c σ,
    reachable_by lazy_mul sample_ops c σ
    /\ (fst (verify lazy_mul c (bA.fromBytes sample_tag) σ) = true
        <-> bA.fromBytes sample_tag = fst (finalize lazy_mul c σ)).
Proof.
  destruct (poly1305_new 0%nat sample_heap) as [[e|c0] σ0] eqn:Hnew;
    [vm_compute in Hnew; discriminate|].
  destruct (run lazy_mul sample_ops c0 σ0) as [[c os] σ] eqn:Hrun.
  assert (Hreach : reachable_by lazy_mul sample_ops c σ)
    by (exists 0%nat, sample_heap, c0, σ0, os; split; assumption).
  exists c, σ. split; [exact Hreach|].
  exact (verify_accepts_exactly_tag lazy_mul sample_ops c σ sample_tag Hreach).
Defined.
